(** * Global-scope isolation sandboxes of qiankun: a model of the code and its properties

    The development embeds [src/sandbox/common.ts] (running-app registry and the
    native value binding layer), [src/sandbox/proxySandbox.ts] (the multiplexed
    sandbox) and the legacy sandbox class (the diffing sandbox) as functions over
    an explicit state, and proves properties of these functions.

    Conventions of the model.
    - A JavaScript object is its table of own properties, the view of what its
      prototype chain provides ([inherited]) and its extensible flag.  The chain
      is not changed by the modelled code, so the view is a table as well.
    - [obj.hasOwnProperty(p)] is the own-property test of the platform.
    - The sources are ES modules, hence strict code: a rejected assignment or
      deletion raises a TypeError.
    - Accessor functions are code of the page.  A getter is an observation of the
      host global object and a setter is an update of it ([getterOf], [setterOf]
      of the environment); neither raises.
    - The handler given to [new Proxy] is modelled; the checks that the Proxy
      object applies to what a handler returns are not.  Of the handlers, [set],
      [get], [has], [getOwnPropertyDescriptor], [defineProperty] and
      [deleteProperty] are embedded; [ownKeys] and [getPrototypeOf] are not.
    - All sandbox instances share the one host global object of the heap. *)

From Stdlib Require Import ZArith.
From stdpp Require Import base option list strings gmap fin_maps.

Set Default Proof Using "Type".

(** ** Values and property keys *)

Inductive PropertyKey :=
| KString (s : string)
| KSymbol (n : nat).

#[global] Instance PropertyKey_eq_dec : EqDecision PropertyKey.
Proof. solve_decision. Defined.

#[global] Instance PropertyKey_countable : Countable PropertyKey.
Proof.
  refine (inj_countable'
            (λ k, match k with KString s => inl s | KSymbol n => inr n end)
            (λ x, match x with inl s => KString s | inr n => KSymbol n end) _).
  by intros [].
Defined.

(** [Symbol.unscopables] is one of the well-known symbols. *)
Definition Symbol_unscopables : PropertyKey := KSymbol 0.

(** Objects with an identity the sandbox code compares or hands out. *)
Inductive ref :=
| RGlobalContext            (* the host global object given to the constructors *)
| RProxy (i : nat)          (* the proxy of the i-th ProxySandbox *)
| RLegacyProxy              (* the proxy of the LegacySandbox *)
| RUnscopables              (* the module constant [unscopables] *)
| RObject (n : nat).        (* any other object that is not callable *)

Inductive value :=
| VUndefined
| VNull
| VBoolean (b : bool)
| VNumber (z : Z)
| VString (s : string)
| VSymbol (n : nat)
| VObject (r : ref)
| VFunction (f : nat).      (* a callable object, by identity *)

#[global] Instance ref_eq_dec : EqDecision ref.
Proof. solve_decision. Defined.

#[global] Instance value_eq_dec : EqDecision value.
Proof. solve_decision. Defined.

(** ToBoolean, as used by [if (x)], [a || b] and [!x]. *)
Definition truthy (v : value) : bool :=
  match v with
  | VUndefined | VNull => false
  | VBoolean b => b
  | VNumber z => negb (z =? 0)%Z
  | VString s => negb (bool_decide (s = ""))
  | VSymbol _ | VObject _ | VFunction _ => true
  end.

(** [typeof v === 'function'] *)
Definition typeof_function (v : value) : bool :=
  match v with VFunction _ => true | _ => false end.

(** [typeof v === 'object'] *)
Definition typeof_object (v : value) : bool :=
  match v with VNull | VObject _ => true | _ => false end.

(** ** Properties, descriptors, objects *)

Inductive property :=
| Data (v : value) (writable enumerable configurable : bool)
| Accessor (getter setter : value) (enumerable configurable : bool).

#[global] Instance property_eq_dec : EqDecision property.
Proof. solve_decision. Defined.

Definition prop_enumerable (pr : property) : bool :=
  match pr with Data _ _ e _ => e | Accessor _ _ e _ => e end.

Definition prop_configurable (pr : property) : bool :=
  match pr with Data _ _ _ c => c | Accessor _ _ _ c => c end.

Definition prop_is_accessor (pr : property) : bool :=
  match pr with Data _ _ _ _ => false | Accessor _ _ _ _ => true end.

(** A descriptor object: each field is present or absent. *)
Record PropertyDescriptor := {
  d_value : option value;
  d_writable : option bool;
  d_get : option value;
  d_set : option value;
  d_enumerable : option bool;
  d_configurable : option bool;
}.

#[global] Instance PropertyDescriptor_eq_dec : EqDecision PropertyDescriptor.
Proof. solve_decision. Defined.

Definition with_configurable (c : bool) (d : PropertyDescriptor) : PropertyDescriptor :=
  {| d_value := d_value d; d_writable := d_writable d; d_get := d_get d; d_set := d_set d;
     d_enumerable := d_enumerable d; d_configurable := Some c |}.

Definition with_writable (w : bool) (d : PropertyDescriptor) : PropertyDescriptor :=
  {| d_value := d_value d; d_writable := Some w; d_get := d_get d; d_set := d_set d;
     d_enumerable := d_enumerable d; d_configurable := d_configurable d |}.

Definition with_value (v : value) (d : PropertyDescriptor) : PropertyDescriptor :=
  {| d_value := Some v; d_writable := d_writable d; d_get := d_get d; d_set := d_set d;
     d_enumerable := d_enumerable d; d_configurable := d_configurable d |}.

Definition empty_descriptor : PropertyDescriptor :=
  {| d_value := None; d_writable := None; d_get := None; d_set := None;
     d_enumerable := None; d_configurable := None |}.

(** FromPropertyDescriptor: what [Object.getOwnPropertyDescriptor] builds. *)
Definition fromProperty (pr : property) : PropertyDescriptor :=
  match pr with
  | Data v w e c =>
      {| d_value := Some v; d_writable := Some w; d_get := None; d_set := None;
         d_enumerable := Some e; d_configurable := Some c |}
  | Accessor g s e c =>
      {| d_value := None; d_writable := None; d_get := Some g; d_set := Some s;
         d_enumerable := Some e; d_configurable := Some c |}
  end.

Definition isAccessorDescriptor (d : PropertyDescriptor) : bool :=
  bool_decide (is_Some (d_get d)) || bool_decide (is_Some (d_set d)).

Definition isDataDescriptor (d : PropertyDescriptor) : bool :=
  bool_decide (is_Some (d_value d)) || bool_decide (is_Some (d_writable d)).

(** ToPropertyDescriptor accepts the descriptor object: it does not mix the
    fields of an accessor with those of a data property.  (The getters and
    setters of the descriptors the modelled code builds come from properties
    that exist, so their callability is not checked again.) *)
Definition well_formed_descriptor (d : PropertyDescriptor) : bool :=
  negb (isAccessorDescriptor d && isDataDescriptor d).

Record object := {
  own : gmap PropertyKey property;
  inherited : gmap PropertyKey property;
  extensible : bool;
}.

Definition with_own (f : gmap PropertyKey property → gmap PropertyKey property) (o : object) : object :=
  {| own := f (own o); inherited := inherited o; extensible := extensible o |}.

(** [{}] with the given view of [Object.prototype]. *)
Definition new_object (proto : gmap PropertyKey property) : object :=
  {| own := ∅; inherited := proto; extensible := true |}.

Definition hasOwnProperty (o : object) (p : PropertyKey) : bool :=
  bool_decide (is_Some (own o !! p)).

(** [p in o] *)
Definition hasProperty (o : object) (p : PropertyKey) : bool :=
  hasOwnProperty o p || bool_decide (is_Some (inherited o !! p)).

Definition getOwnPropertyDescriptor (o : object) (p : PropertyKey) : option PropertyDescriptor :=
  fromProperty <$> own o !! p.

(** The property a lookup of [p] along the prototype chain finds. *)
Definition findProperty (o : object) (p : PropertyKey) : option property :=
  match own o !! p with
  | Some pr => Some pr
  | None => inherited o !! p
  end.

(** ValidateAndApplyPropertyDescriptor. *)
Definition rejected_on_non_configurable (d : PropertyDescriptor) (cur : property) : bool :=
  bool_decide (d_configurable d = Some true)
  || match d_enumerable d with Some e => negb (eqb e (prop_enumerable cur)) | None => false end
  || ((isAccessorDescriptor d || isDataDescriptor d)
      && negb (eqb (isAccessorDescriptor d) (prop_is_accessor cur)))
  || match cur with
     | Accessor g s _ _ =>
         match d_get d with Some g' => negb (bool_decide (g' = g)) | None => false end
         || match d_set d with Some s' => negb (bool_decide (s' = s)) | None => false end
     | Data v w _ _ =>
         negb w
         && (bool_decide (d_writable d = Some true)
             || match d_value d with Some v' => negb (bool_decide (v' = v)) | None => false end)
     end.

Definition apply_descriptor (d : PropertyDescriptor) (cur : property) : property :=
  let e := default (prop_enumerable cur) (d_enumerable d) in
  let c := default (prop_configurable cur) (d_configurable d) in
  match cur with
  | Data v w _ _ =>
      if isAccessorDescriptor d
      then Accessor (default VUndefined (d_get d)) (default VUndefined (d_set d)) e c
      else Data (default v (d_value d)) (default w (d_writable d)) e c
  | Accessor g s _ _ =>
      if isDataDescriptor d
      then Data (default VUndefined (d_value d)) (default false (d_writable d)) e c
      else Accessor (default g (d_get d)) (default s (d_set d)) e c
  end.

Definition create_property (d : PropertyDescriptor) : property :=
  let e := default false (d_enumerable d) in
  let c := default false (d_configurable d) in
  if isAccessorDescriptor d
  then Accessor (default VUndefined (d_get d)) (default VUndefined (d_set d)) e c
  else Data (default VUndefined (d_value d)) (default false (d_writable d)) e c.

Definition validateAndApply (ext : bool) (d : PropertyDescriptor) (current : option property)
  : option property :=
  match current with
  | None => if ext then Some (create_property d) else None
  | Some cur =>
      if negb (prop_configurable cur) && rejected_on_non_configurable d cur
      then None
      else Some (apply_descriptor d cur)
  end.

(** [[DefineOwnProperty]] of an ordinary object; [None] when the definition is
    rejected ([Object.defineProperty] then raises, [Reflect.defineProperty]
    returns false). *)
Definition defineOwnProperty (o : object) (p : PropertyKey) (d : PropertyDescriptor)
  : option object :=
  if well_formed_descriptor d then
    pr ← validateAndApply (extensible o) d (own o !! p);
    Some (with_own (insert p pr) o)
  else None.

(** [[Delete]] of an ordinary object; [None] when the property cannot be removed. *)
Definition deleteOwnProperty (o : object) (p : PropertyKey) : option object :=
  match own o !! p with
  | None => Some o
  | Some pr => if prop_configurable pr then Some (with_own (delete p) o) else None
  end.

(** [[Set]] of an ordinary object that is its own receiver ([o[p] = v]): the new
    object, the setter to run, or a rejection. *)
Inductive set_result :=
| SetOwn (o' : object)
| SetSetter (f : value)
| SetRejected.

Definition ordinarySet (o : object) (p : PropertyKey) (v : value) : set_result :=
  match own o !! p with
  | Some (Data _ w e c) =>
      if w then SetOwn (with_own (insert p (Data v w e c)) o) else SetRejected
  | Some (Accessor _ s _ _) =>
      if bool_decide (s = VUndefined) then SetRejected else SetSetter s
  | None =>
      match inherited o !! p with
      | Some (Data _ false _ _) => SetRejected
      | Some (Accessor _ s _ _) =>
          if bool_decide (s = VUndefined) then SetRejected else SetSetter s
      | _ =>
          if extensible o
          then SetOwn (with_own (insert p (Data v true true true)) o)
          else SetRejected
      end
  end.

(** The setter an assignment [o[p] = v] hands the value to, if any. *)
Definition reaches_setter (o : object) (p : PropertyKey) : bool :=
  match ordinarySet o p VUndefined with
  | SetSetter _ => true
  | _ => false
  end.

(** An assignment [o[p] = v] that the object itself stores. *)
Definition accepts_write (o : object) (p : PropertyKey) : bool :=
  match ordinarySet o p VUndefined with
  | SetOwn _ => true
  | _ => false
  end.

(** ** The environment of the modules

    What the modelled files import and do not define: the build-time
    environment, [./globals], the helpers of [../utils] and the meaning of the
    accessor functions found on the page. *)

Record Env := {
  NODE_ENV : string;                                  (* process.env.NODE_ENV *)
  QIANKUN_DEVELOPMENT : bool;                         (* window.__QIANKUN_DEVELOPMENT__, as a condition *)
  globals : list string;                              (* ./globals *)
  nativeGlobal : value;                               (* utils.nativeGlobal *)
  evalFunction : value;                               (* the global eval *)
  pageDocument : value;                               (* the global document *)
  objectPrototype : gmap PropertyKey property;        (* what an object literal inherits *)
  getterOf : value → object → value;                  (* running a getter against the host object *)
  setterOf : value → value → object → object;         (* running a setter against the host object *)
  isCallable : value → bool;                          (* utils.isCallable *)
  isBoundedFunction : value → bool;                   (* utils.isBoundedFunction *)
  isConstructable : value → bool;                     (* utils.isConstructable *)
  isPropertyFrozen : object → PropertyKey → bool;     (* utils.isPropertyFrozen *)
}.

Definition inTest (env : Env) : bool := bool_decide (NODE_ENV env = "test").
Definition inDevelopment (env : Env) : bool := bool_decide (NODE_ENV env = "development").

(** ** Computations: a state and a completion *)

Inductive error := TypeError.

Inductive completion (A : Type) :=
| Normal (a : A)
| Throw (e : error).
Arguments Normal {A} a.
Arguments Throw {A} e.

Definition M (S A : Type) : Type := S → completion A * S.

#[global] Instance M_ret {S} : MRet (M S) := λ A a s, (Normal a, s).

#[global] Instance M_bind {S} : MBind (M S) := λ A B f m s,
  match m s with
  | (Normal a, s') => f a s'
  | (Throw e, s') => (Throw e, s')
  end.

Definition throw {S A} (e : error) : M S A := λ s, (Throw e, s).
Definition gets {S A} (f : S → A) : M S A := λ s, (Normal (f s), s).
Definition modify {S} (f : S → S) : M S unit := λ s, (Normal (), f s).

Definition when {S} (b : bool) (c : M S unit) : M S unit :=
  if b then c else mret ().

(** [l.forEach(f)] *)
Fixpoint forEach {S A} (l : list A) (f : A → M S unit) : M S unit :=
  match l with
  | [] => mret ()
  | x :: l' => f x ;; forEach l' f
  end.

(** The completion and the state a computation ends with. *)
Definition result_of {S A} (r : completion A * S) : completion A := fst r.
Definition state_of {S A} (r : completion A * S) : S := snd r.

(** ** The heap shared by everything on the page *)

Record Heap := {
  globalContext : object;                     (* the host global object *)
  functionPrototype : object;                 (* Function.prototype *)
  functions : gmap nat object;                (* the properties of the callable objects *)
  boundFunctions : gmap nat (value * value);  (* bound functions: their target and their this *)
  nextFunction : nat;                         (* identity of the next callable object created *)
  functionBoundedValueMap : gmap nat value;   (* common.ts: the WeakMap of bound wrappers *)
}.

Definition set_globalContext (o : object) (h : Heap) : Heap :=
  {| globalContext := o; functionPrototype := functionPrototype h; functions := functions h;
     boundFunctions := boundFunctions h;
     nextFunction := nextFunction h; functionBoundedValueMap := functionBoundedValueMap h |}.

Definition set_function (n : nat) (o : object) (h : Heap) : Heap :=
  {| globalContext := globalContext h; functionPrototype := functionPrototype h;
     functions := <[n := o]> (functions h); boundFunctions := boundFunctions h;
     nextFunction := nextFunction h; functionBoundedValueMap := functionBoundedValueMap h |}.

Definition set_boundFunction (n : nat) (target this : value) (h : Heap) : Heap :=
  {| globalContext := globalContext h; functionPrototype := functionPrototype h;
     functions := functions h; boundFunctions := <[n := (target, this)]> (boundFunctions h);
     nextFunction := nextFunction h; functionBoundedValueMap := functionBoundedValueMap h |}.

Definition set_nextFunction (n : nat) (h : Heap) : Heap :=
  {| globalContext := globalContext h; functionPrototype := functionPrototype h;
     functions := functions h; boundFunctions := boundFunctions h;
     nextFunction := n; functionBoundedValueMap := functionBoundedValueMap h |}.

Definition set_bounded (n : nat) (b : value) (h : Heap) : Heap :=
  {| globalContext := globalContext h; functionPrototype := functionPrototype h;
     functions := functions h; boundFunctions := boundFunctions h;
     nextFunction := nextFunction h;
     functionBoundedValueMap := <[n := b]> (functionBoundedValueMap h) |}.

(** What a function object inherits when its prototype is [Function.prototype]. *)
Definition function_view (h : Heap) : gmap PropertyKey property :=
  own (functionPrototype h) ∪ inherited (functionPrototype h).

(** The properties of the callable object [n]. *)
Definition function_object (h : Heap) (n : nat) : object :=
  default (new_object (function_view h)) (functions h !! n).

(** [o[p]] read against the host object [host]. *)
Definition readProperty (env : Env) (host o : object) (p : PropertyKey) : value :=
  match findProperty o p with
  | Some (Data v _ _ _) => v
  | Some (Accessor g _ _ _) =>
      if bool_decide (g = VUndefined) then VUndefined else getterOf env g host
  | None => VUndefined
  end.

(** [globalContext[p]] *)
Definition global_get (env : Env) (p : PropertyKey) : M Heap value :=
  gets (λ h, readProperty env (globalContext h) (globalContext h) p).

(** [globalContext[p] = v] *)
Definition global_assign (env : Env) (p : PropertyKey) (v : value) : M Heap unit := λ h,
  match ordinarySet (globalContext h) p v with
  | SetOwn o' => (Normal (), set_globalContext o' h)
  | SetSetter f => (Normal (), set_globalContext (setterOf env f v (globalContext h)) h)
  | SetRejected => (Throw TypeError, h)
  end.

(** [Object.defineProperty(globalContext, p, d)] *)
Definition global_define (p : PropertyKey) (d : PropertyDescriptor) : M Heap unit := λ h,
  match defineOwnProperty (globalContext h) p d with
  | Some o' => (Normal (), set_globalContext o' h)
  | None => (Throw TypeError, h)
  end.

(** [delete globalContext[p]] *)
Definition global_delete (p : PropertyKey) : M Heap unit := λ h,
  match deleteOwnProperty (globalContext h) p with
  | Some o' => (Normal (), set_globalContext o' h)
  | None => (Throw TypeError, h)
  end.

(** [f[p]] for the callable object [n] *)
Definition function_get (env : Env) (n : nat) (p : PropertyKey) : M Heap value :=
  gets (λ h, readProperty env (globalContext h) (function_object h n) p).

(** [f[p] = v] for the callable object [n] *)
Definition function_assign (env : Env) (n : nat) (p : PropertyKey) (v : value) : M Heap unit := λ h,
  match ordinarySet (function_object h n) p v with
  | SetOwn o' => (Normal (), set_function n o' h)
  | SetSetter f => (Normal (), set_globalContext (setterOf env f v (globalContext h)) h)
  | SetRejected => (Throw TypeError, h)
  end.

(** [Object.defineProperty(f, p, d)] for the callable object [n] *)
Definition function_define (n : nat) (p : PropertyKey) (d : PropertyDescriptor) : M Heap unit := λ h,
  match defineOwnProperty (function_object h n) p d with
  | Some o' => (Normal (), set_function n o' h)
  | None => (Throw TypeError, h)
  end.

(** A new callable object with the given properties. *)
Definition new_function (o : object) : M Heap nat := λ h,
  let n := nextFunction h in
  (Normal n, set_nextFunction (S n) (set_function n o h)).

(** The names a [for (key in o)] loop visits: the enumerable string keys, own
    ones first, then those of the chain that are not shadowed. *)
Definition string_keys (m : gmap PropertyKey property) : list (string * property) :=
  omap (λ kp, match kp.1 with KString s => Some (s, kp.2) | KSymbol _ => None end) (map_to_list m).

Definition for_in_keys (o : object) : list string :=
  (string_keys (filter (λ kp, prop_enumerable kp.2 = true) (own o))).*1
  ++ (string_keys (filter (λ kp, prop_enumerable kp.2 = true ∧ own o !! kp.1 = None) (inherited o))).*1.

(** [Function.prototype.bind.call(value, target)]: the bound function takes the
    prototype of its target and own [length] and [name] properties. *)
Definition bound_function_object (env : Env) (h : Heap) (n : nat) : object :=
  let f := function_object h n in
  let len :=
    if hasOwnProperty f (KString "length") then
      match readProperty env (globalContext h) f (KString "length") with
      | VNumber z => Z.max 0 z
      | _ => 0%Z
      end
    else 0%Z in
  let nm :=
    match readProperty env (globalContext h) f (KString "name") with
    | VString s => s
    | _ => ""
    end in
  {| own := <[KString "name" := Data (VString ("bound " +:+ nm)) false false true]>
              (<[KString "length" := Data (VNumber len) false false true]> ∅);
     inherited := inherited f;
     extensible := true |}.

Definition bind_function (env : Env) (n : nat) (this : value) : M Heap nat :=
  h ← gets id;
  bound ← new_function (bound_function_object env h n);
  modify (set_boundFunction bound (VFunction n) this);;
  mret bound.

(** The arrow function [() => value.toString()]. *)
Definition toString_closure (h : Heap) : object :=
  {| own := <[KString "name" := Data (VString "value") false false true]>
              (<[KString "length" := Data (VNumber 0) false false true]> ∅);
     inherited := function_view h;
     extensible := true |}.

(** ** common.ts: the native value binding layer *)

(** [functionBoundedValueMap.get(value)] *)
Definition cachedBoundFunction (h : Heap) (val : value) : value :=
  match val with
  | VFunction n => default VUndefined (functionBoundedValueMap h !! n)
  | _ => VUndefined
  end.

(** [for (const key in value) boundValue[key] = value[key]] *)
Definition copy_fields (env : Env) (n bound : nat) : M Heap unit :=
  keys ← gets (λ h, for_in_keys (function_object h n));
  forEach keys (λ key,
    v ← function_get env n (KString key);
    function_assign env bound (KString key) v).

(** Copy [prototype] if the bound function has none and the target has one. *)
Definition copy_prototype (env : Env) (n bound : nat) : M Heap unit :=
  hasProto ← gets (λ h,
    hasOwnProperty (function_object h n) (KString "prototype")
    && negb (hasOwnProperty (function_object h bound) (KString "prototype")));
  when hasProto (
    proto ← function_get env n (KString "prototype");
    function_define bound (KString "prototype")
      {| d_value := Some proto; d_writable := Some true; d_get := None; d_set := None;
         d_enumerable := Some false; d_configurable := None |}).

(** Keep the result of the original [toString]. *)
Definition keep_toString (env : Env) (n bound : nat) : M Heap unit :=
  valueToString ← function_get env n (KString "toString");
  when (typeof_function valueToString) (
    valueHasInstanceToString ← gets (λ h,
      hasOwnProperty (function_object h n) (KString "toString")
      && negb (hasOwnProperty (function_object h bound) (KString "toString")));
    boundToString ← function_get env bound (KString "toString");
    protoToString ← gets (λ h,
      readProperty env (globalContext h) (functionPrototype h) (KString "toString"));
    let boundValueHasPrototypeToString := bool_decide (boundToString = protoToString) in
    when (valueHasInstanceToString || boundValueHasPrototypeToString) (
      originToStringDescriptor ← gets (λ h,
        getOwnPropertyDescriptor
          (if valueHasInstanceToString then function_object h n else functionPrototype h)
          (KString "toString"));
      let origin := default empty_descriptor originToStringDescriptor in
      if truthy (default VUndefined (d_get origin))
      then function_define bound (KString "toString") origin
      else
        h ← gets id;
        closure ← new_function (toString_closure h);
        function_define bound (KString "toString") (with_value (VFunction closure) origin))).

(** The callables the layer binds: [isCallable(value) && !isBoundedFunction(value)
    && !isConstructable(value)]. *)
Definition eligible (env : Env) (val : value) : bool :=
  isCallable env val && negb (isBoundedFunction env val) && negb (isConstructable env val).

Definition getTargetValue (env : Env) (target val : value) : M Heap value :=
  if eligible env val
  then
    cached ← gets (λ h, cachedBoundFunction h val);
    if truthy cached then mret cached
    else
      match val with
      | VFunction n =>
          boundValue ← bind_function env n target;
          copy_fields env n boundValue;;
          copy_prototype env n boundValue;;
          keep_toString env n boundValue;;
          modify (set_bounded n (VFunction boundValue));;
          mret (VFunction boundValue)
      | _ =>
          (* Function.prototype.bind rejects what cannot be called *)
          throw TypeError
      end
  else mret val.

(** ** common.ts: the running-app registry *)

Record AppInstance := { app_name : string; app_window : value }.

(** The single slot [currentRunningApp]. *)
Definition getCurrentRunningApp : M (option AppInstance) (option AppInstance) := gets id.
Definition setCurrentRunningApp (appInstance : AppInstance) : M (option AppInstance) unit :=
  modify (λ _, Some appInstance).
Definition clearCurrentRunningApp : M (option AppInstance) unit :=
  modify (λ _, None).

(** Callbacks waiting for the next microtask boundary. *)
Inductive task := ClearCurrentRunningApp.

(** What the modules print. *)
Inductive LogEntry :=
| InfoRestore (name : string) (keys : list PropertyKey)
| WarnSetWhileInactive (p : PropertyKey) (name : string).

(** [array.indexOf(x)] *)
Fixpoint indexOf {A} `{EqDecision A} (l : list A) (x : A) : Z :=
  match l with
  | [] => -1
  | y :: l' =>
      if decide (y = x) then 0
      else let r := indexOf l' x in if (r =? -1)%Z then -1 else (r + 1)%Z
  end.

(** An object or a [Map] used as a table, in insertion order: [m.set(k, v)] or
    [obj[k] = v] keeps the place of an existing key. *)
Fixpoint table_set {K A} `{EqDecision K} (k : K) (v : A) (l : list (K * A)) : list (K * A) :=
  match l with
  | [] => [(k, v)]
  | (k', v') :: l' => if decide (k' = k) then (k, v) :: l' else (k', v') :: table_set k v l'
  end.

Fixpoint table_get {K A} `{EqDecision K} (k : K) (l : list (K * A)) : option A :=
  match l with
  | [] => None
  | (k', v') :: l' => if decide (k' = k) then Some v' else table_get k l'
  end.

(** [m.has(k)] *)
Definition table_has {K A} `{EqDecision K} (k : K) (l : list (K * A)) : bool :=
  match table_get k l with Some _ => true | None => false end.

(** ** proxySandbox.ts: the multiplexed sandbox *)

Module ProxySandbox.

Definition variableWhiteListInDev (env : Env) : list string :=
  if inTest env || inDevelopment env || QIANKUN_DEVELOPMENT env
  then ["__REACT_ERROR_OVERLAY_GLOBAL_HOOK__"; "event"]
  else [].

Definition globalVariableWhiteList (env : Env) : list string :=
  ["System"; "__cjsWrapper"] ++ variableWhiteListInDev env.

Definition mockSafariTop : string := "mockSafariTop".
Definition mockTop : string := "mockTop".
Definition mockGlobalThis : string := "mockGlobalThis".

Definition accessingSpiedGlobals : list string := ["document"; "top"; "parent"; "eval"].

Definition overwrittenGlobals (env : Env) : list string :=
  ["window"; "self"; "globalThis"; "hasOwnProperty"] ++ (if inTest env then [mockGlobalThis] else []).

(** lodash [without(array, ...values)] *)
Definition without (array values : list string) : list string :=
  filter (λ x, x ∉ values) array.

(** [Array.from(new Set(array))]: the first occurrence of each element. *)
Fixpoint unique_from (seen array : list string) : list string :=
  match array with
  | [] => []
  | x :: l => if decide (x ∈ seen) then unique_from seen l else x :: unique_from (x :: seen) l
  end.

Definition unique (array : list string) : list string := unique_from [] array.

Definition cachedGlobals (env : Env) : list string :=
  unique (without (globals env ++ overwrittenGlobals env ++ ["requestAnimationFrame"])
                  accessingSpiedGlobals).

(** [p in cachedGlobalObjects]: the object is built from [{}], so it also has
    what an object literal inherits. *)
Definition in_cachedGlobalObjects (env : Env) (p : PropertyKey) : bool :=
  match p with
  | KString s => bool_decide (s ∈ cachedGlobals env)
  | KSymbol _ => false
  end
  || bool_decide (is_Some (objectPrototype env !! p)).

(** [useNativeWindowForBindingsProps.get(p)], as a condition. *)
Definition useNativeWindowForBindingsProps (env : Env) (p : PropertyKey) : bool :=
  bool_decide (p = KString "fetch")
  || (bool_decide (p = KString "mockDomAPIInBlackList") && inTest env).

(** [typeof p === 'string' && globalVariableWhiteList.indexOf(p) !== -1] *)
Definition in_whitelist (env : Env) (p : PropertyKey) : bool :=
  match p with
  | KString s => negb (indexOf (globalVariableWhiteList env) s =? -1)%Z
  | KSymbol _ => false
  end.

(** The names whose copy in the fake window is made configurable. *)
Definition normalized (env : Env) (speedy : bool) (p : string) : bool :=
  bool_decide (p = "top") || bool_decide (p = "parent")
  || bool_decide (p = "self") || bool_decide (p = "window")
  || (bool_decide (p = "document") && speedy)
  || (inTest env && (bool_decide (p = mockTop) || bool_decide (p = mockSafariTop))).

(** [Object.getOwnPropertyNames(o)] *)
Definition getOwnPropertyNames (o : object) : list string := (string_keys (own o)).*1.

(** The body of the [forEach] of [createFakeWindow]. *)
Definition copy_to_fakeWindow (env : Env) (globalContext : object) (speedy : bool) (p : string)
  : M (object * gset PropertyKey) unit :=
  match getOwnPropertyDescriptor globalContext (KString p) with
  | Some descriptor =>
      let hasGetter := bool_decide (is_Some (d_get descriptor)) in
      let descriptor :=
        if normalized env speedy p then
          let descriptor := with_configurable true descriptor in
          if negb hasGetter then with_writable true descriptor else descriptor
        else descriptor in
      when hasGetter (modify (λ st, (st.1, {[KString p]} ∪ st.2)));;
      st ← gets id;
      match defineOwnProperty st.1 (KString p) descriptor with
      | Some fakeWindow => modify (λ st, (fakeWindow, st.2))
      | None => throw TypeError
      end
  | None => mret ()
  end.

(** [createFakeWindow]: the fake window and [propertiesWithGetter]. *)
Definition createFakeWindow (env : Env) (globalContext : object) (speedy : bool)
  : completion unit * (object * gset PropertyKey) :=
  forEach
    (filter (λ p, (getOwnPropertyDescriptor globalContext (KString p) ≫= d_configurable) ≠ Some true)
            (getOwnPropertyNames globalContext))
    (copy_to_fakeWindow env globalContext speedy)
    (new_object (objectPrototype env), ∅).

Inductive SymbolTarget := FromTarget | FromGlobalContext.

(** An instance of the class, with what its constructor closes over. *)
Record t := {
  name : string;
  sandboxRunning : bool;
  latestSetProp : option PropertyKey;
  updatedValueSet : gset PropertyKey;
  document : value;
  globalWhitelistPrevDescriptor : list (string * option PropertyDescriptor);
  proxy : value;
  fakeWindow : object;
  propertiesWithGetter : gset PropertyKey;
  descriptorTargetMap : gmap PropertyKey SymbolTarget;
  hasOwnProperty_closure : value;
}.

Definition set_sandboxRunning (b : bool) (s : t) : t :=
  {| name := name s; sandboxRunning := b; latestSetProp := latestSetProp s;
     updatedValueSet := updatedValueSet s; document := document s;
     globalWhitelistPrevDescriptor := globalWhitelistPrevDescriptor s; proxy := proxy s;
     fakeWindow := fakeWindow s; propertiesWithGetter := propertiesWithGetter s;
     descriptorTargetMap := descriptorTargetMap s;
     hasOwnProperty_closure := hasOwnProperty_closure s |}.

Definition set_latestSetProp (p : option PropertyKey) (s : t) : t :=
  {| name := name s; sandboxRunning := sandboxRunning s; latestSetProp := p;
     updatedValueSet := updatedValueSet s; document := document s;
     globalWhitelistPrevDescriptor := globalWhitelistPrevDescriptor s; proxy := proxy s;
     fakeWindow := fakeWindow s; propertiesWithGetter := propertiesWithGetter s;
     descriptorTargetMap := descriptorTargetMap s;
     hasOwnProperty_closure := hasOwnProperty_closure s |}.

Definition set_updatedValueSet (u : gset PropertyKey) (s : t) : t :=
  {| name := name s; sandboxRunning := sandboxRunning s; latestSetProp := latestSetProp s;
     updatedValueSet := u; document := document s;
     globalWhitelistPrevDescriptor := globalWhitelistPrevDescriptor s; proxy := proxy s;
     fakeWindow := fakeWindow s; propertiesWithGetter := propertiesWithGetter s;
     descriptorTargetMap := descriptorTargetMap s;
     hasOwnProperty_closure := hasOwnProperty_closure s |}.

Definition set_document (doc : value) (s : t) : t :=
  {| name := name s; sandboxRunning := sandboxRunning s; latestSetProp := latestSetProp s;
     updatedValueSet := updatedValueSet s; document := doc;
     globalWhitelistPrevDescriptor := globalWhitelistPrevDescriptor s; proxy := proxy s;
     fakeWindow := fakeWindow s; propertiesWithGetter := propertiesWithGetter s;
     descriptorTargetMap := descriptorTargetMap s;
     hasOwnProperty_closure := hasOwnProperty_closure s |}.

Definition set_globalWhitelistPrevDescriptor (g : list (string * option PropertyDescriptor)) (s : t) : t :=
  {| name := name s; sandboxRunning := sandboxRunning s; latestSetProp := latestSetProp s;
     updatedValueSet := updatedValueSet s; document := document s;
     globalWhitelistPrevDescriptor := g; proxy := proxy s;
     fakeWindow := fakeWindow s; propertiesWithGetter := propertiesWithGetter s;
     descriptorTargetMap := descriptorTargetMap s;
     hasOwnProperty_closure := hasOwnProperty_closure s |}.

Definition set_fakeWindow (o : object) (s : t) : t :=
  {| name := name s; sandboxRunning := sandboxRunning s; latestSetProp := latestSetProp s;
     updatedValueSet := updatedValueSet s; document := document s;
     globalWhitelistPrevDescriptor := globalWhitelistPrevDescriptor s; proxy := proxy s;
     fakeWindow := o; propertiesWithGetter := propertiesWithGetter s;
     descriptorTargetMap := descriptorTargetMap s;
     hasOwnProperty_closure := hasOwnProperty_closure s |}.

Definition set_descriptorTargetMap (m : gmap PropertyKey SymbolTarget) (s : t) : t :=
  {| name := name s; sandboxRunning := sandboxRunning s; latestSetProp := latestSetProp s;
     updatedValueSet := updatedValueSet s; document := document s;
     globalWhitelistPrevDescriptor := globalWhitelistPrevDescriptor s; proxy := proxy s;
     fakeWindow := fakeWindow s; propertiesWithGetter := propertiesWithGetter s;
     descriptorTargetMap := m;
     hasOwnProperty_closure := hasOwnProperty_closure s |}.

(** The page as the module sees it: the heap, the registry of common.ts, the
    pending microtasks, the console, the module variable [activeSandboxCount]
    and the instances of the class. *)
Record world := {
  heap : Heap;
  currentRunningApp : option AppInstance;
  microtasks : list task;
  console : list LogEntry;
  activeSandboxCount : Z;
  sandboxes : gmap nat t;
}.

Definition set_heap (h : Heap) (w : world) : world :=
  {| heap := h; currentRunningApp := currentRunningApp w; microtasks := microtasks w;
     console := console w; activeSandboxCount := activeSandboxCount w; sandboxes := sandboxes w |}.

Definition set_currentRunningApp (a : option AppInstance) (w : world) : world :=
  {| heap := heap w; currentRunningApp := a; microtasks := microtasks w;
     console := console w; activeSandboxCount := activeSandboxCount w; sandboxes := sandboxes w |}.

Definition set_microtasks (q : list task) (w : world) : world :=
  {| heap := heap w; currentRunningApp := currentRunningApp w; microtasks := q;
     console := console w; activeSandboxCount := activeSandboxCount w; sandboxes := sandboxes w |}.

Definition set_console (c : list LogEntry) (w : world) : world :=
  {| heap := heap w; currentRunningApp := currentRunningApp w; microtasks := microtasks w;
     console := c; activeSandboxCount := activeSandboxCount w; sandboxes := sandboxes w |}.

Definition set_activeSandboxCount (n : Z) (w : world) : world :=
  {| heap := heap w; currentRunningApp := currentRunningApp w; microtasks := microtasks w;
     console := console w; activeSandboxCount := n; sandboxes := sandboxes w |}.

Definition set_sandboxes (m : gmap nat t) (w : world) : world :=
  {| heap := heap w; currentRunningApp := currentRunningApp w; microtasks := microtasks w;
     console := console w; activeSandboxCount := activeSandboxCount w; sandboxes := m |}.

(** Running a computation of a component inside the world. *)
Definition on_heap {A} (c : M Heap A) : M world A := λ w,
  let r := c (heap w) in (r.1, set_heap r.2 w).

Definition on_registry {A} (c : M (option AppInstance) A) : M world A := λ w,
  let r := c (currentRunningApp w) in (r.1, set_currentRunningApp r.2 w).

(** [this] for the instance [i]; a method of an instance that does not exist
    cannot be called. *)
Definition this (i : nat) : M world t := λ w,
  match sandboxes w !! i with
  | Some s => (Normal s, w)
  | None => (Throw TypeError, w)
  end.

Definition update_this (i : nat) (f : t → t) : M world unit :=
  modify (λ w, set_sandboxes (alter f i (sandboxes w)) w).

(** Modelled from the spec: [utils.nextTask] is not among the sources; it
    schedules its callback for the next microtask boundary. *)
Definition nextTask (cb : task) : M world unit :=
  modify (λ w, set_microtasks (microtasks w ++ [cb]) w).

(** The microtask boundary: every scheduled callback runs. *)
Definition run_task (cb : task) : M world unit :=
  match cb with
  | ClearCurrentRunningApp => on_registry clearCurrentRunningApp
  end.

Definition run_microtasks : M world unit :=
  q ← gets microtasks;
  modify (set_microtasks []);;
  forEach q run_task.

Definition console_log (e : LogEntry) : M world unit :=
  modify (λ w, set_console (console w ++ [e]) w).

Definition registerRunningApp (i : nat) : M world unit :=
  s ← this i;
  when (sandboxRunning s) (
    currentRunningApp ← on_registry getCurrentRunningApp;
    when (match currentRunningApp with
          | None => true
          | Some app => negb (bool_decide (app_name app = name s))
          end)
      (on_registry (setCurrentRunningApp {| app_name := name s; app_window := proxy s |}));;
    nextTask ClearCurrentRunningApp).

Definition active (i : nat) : M world unit :=
  s ← this i;
  when (negb (sandboxRunning s))
    (modify (λ w, set_activeSandboxCount (activeSandboxCount w + 1) w));;
  update_this i (set_sandboxRunning true).

(** [inTest || --activeSandboxCount === 0] *)
Definition last_exit (env : Env) : M world bool :=
  if inTest env then mret true
  else
    modify (λ w, set_activeSandboxCount (activeSandboxCount w - 1) w);;
    gets (λ w, (activeSandboxCount w =? 0)%Z).

Definition inactive (env : Env) (i : nat) : M world unit :=
  s ← this i;
  when (inDevelopment env) (console_log (InfoRestore (name s) (elements (updatedValueSet s))));;
  restore ← last_exit env;
  when restore (
    s ← this i;
    forEach (globalWhitelistPrevDescriptor s).*1 (λ p,
      s ← this i;
      match mjoin (table_get p (globalWhitelistPrevDescriptor s)) with
      | Some descriptor => on_heap (global_define (KString p) descriptor)
      | None => on_heap (global_delete (KString p))
      end));;
  update_this i (set_sandboxRunning false).

Definition patchDocument (i : nat) (doc : value) : M world unit :=
  update_this i (set_document doc).

(** [target[p] = value] for the fake window of instance [i] *)
Definition target_assign (env : Env) (i : nat) (p : PropertyKey) (v : value) : M world unit :=
  s ← this i;
  match ordinarySet (fakeWindow s) p v with
  | SetOwn o' => update_this i (set_fakeWindow o')
  | SetSetter f =>
      on_heap (modify (λ h, set_globalContext (setterOf env f v (globalContext h)) h))
  | SetRejected => throw TypeError
  end.

(** [Object.defineProperty(target, p, d)] for the fake window of instance [i] *)
Definition target_define (i : nat) (p : PropertyKey) (d : PropertyDescriptor) : M world unit :=
  s ← this i;
  match defineOwnProperty (fakeWindow s) p d with
  | Some o' => update_this i (set_fakeWindow o')
  | None => throw TypeError
  end.

(** [delete target[p]] for the fake window of instance [i] *)
Definition target_delete (i : nat) (p : PropertyKey) : M world unit :=
  s ← this i;
  match deleteOwnProperty (fakeWindow s) p with
  | Some o' => update_this i (set_fakeWindow o')
  | None => throw TypeError
  end.

(** The [set] handler of the proxy of instance [i]. *)
Definition set_trap (env : Env) (i : nat) (p : PropertyKey) (v : value) : M world bool :=
  s ← this i;
  if sandboxRunning s then
    registerRunningApp i;;
    (if in_whitelist env p then
       (* sync the property to globalContext *)
       descriptor ← on_heap (gets (λ h, getOwnPropertyDescriptor (globalContext h) p));
       update_this i (λ s, set_globalWhitelistPrevDescriptor
         (table_set (match p with KString k => k | KSymbol _ => "" end) descriptor
                    (globalWhitelistPrevDescriptor s)) s);;
       on_heap (global_assign env p v)
     else
       s ← this i;
       let target := fakeWindow s in
       globalContext ← gets (λ w, globalContext (heap w));
       if negb (hasOwnProperty target p) && hasOwnProperty globalContext p then
         match getOwnPropertyDescriptor globalContext p with
         | Some descriptor =>
             (* only writable property can be overwritten *)
             when (default false (d_writable descriptor)
                   || truthy (default VUndefined (d_set descriptor)))
               (target_define i p
                  {| d_value := Some v; d_writable := Some true; d_get := None; d_set := None;
                     d_enumerable := d_enumerable descriptor;
                     d_configurable := d_configurable descriptor |})
         | None => throw TypeError
         end
       else target_assign env i p v);;
    update_this i (λ s, set_updatedValueSet ({[p]} ∪ updatedValueSet s) s);;
    update_this i (set_latestSetProp (Some p));;
    mret true
  else
    when (inDevelopment env) (console_log (WarnSetWhileInactive p (name s)));;
    (* a false result would raise in strict mode; the error is ignored *)
    mret true.

(** The guard of the whitelist branch of the [get] handler. *)
Definition get_whitelist_guard (env : Env) (p : PropertyKey) : bool :=
  bool_decide (p = KString "string") && in_whitelist env p.

(** The last part of the [get] handler: the lookup in the fake window or the
    host object, and the binding of what is found. *)
Definition get_lookup (env : Env) (s : t) (p : PropertyKey) : M Heap value :=
  h ← gets id;
  let fromTarget := negb (bool_decide (p ∈ propertiesWithGetter s)) && hasProperty (fakeWindow s) p in
  let actualTarget := if fromTarget then fakeWindow s else globalContext h in
  let val := readProperty env (globalContext h) actualTarget p in
  (* frozen value should return directly *)
  if isPropertyFrozen env actualTarget p then mret val
  else
    let boundTarget :=
      if useNativeWindowForBindingsProps env p then nativeGlobal env else VObject RGlobalContext in
    getTargetValue env boundTarget val.

(** What the [get] handler returns, once the running app is registered. *)
Definition get_value (env : Env) (s : t) (p : PropertyKey) : M Heap value :=
  if bool_decide (p = Symbol_unscopables) then mret (VObject RUnscopables)
  else if bool_decide (p = KString "window") || bool_decide (p = KString "self") then
    mret (proxy s)
  else if bool_decide (p = KString "globalThis")
          || (inTest env && bool_decide (p = KString mockGlobalThis)) then
    mret (proxy s)
  else if bool_decide (p = KString "top") || bool_decide (p = KString "parent")
          || (inTest env && (bool_decide (p = KString mockTop)
                             || bool_decide (p = KString mockSafariTop))) then
    (* if your master app in an iframe context, allow these props escape the sandbox *)
    parent ← global_get env (KString "parent");
    if bool_decide (VObject RGlobalContext = parent) then mret (proxy s)
    else global_get env p
  else if bool_decide (p = KString "hasOwnProperty") then mret (hasOwnProperty_closure s)
  else if bool_decide (p = KString "document") then mret (document s)
  else if bool_decide (p = KString "eval") then mret (evalFunction env)
  else if get_whitelist_guard env p then global_get env p
  else get_lookup env s p.

(** The [get] handler of the proxy of instance [i]. *)
Definition get_trap (env : Env) (i : nat) (p : PropertyKey) : M world value :=
  registerRunningApp i;;
  s ← this i;
  on_heap (get_value env s p).

(** The [has] handler. *)
Definition has_trap (env : Env) (i : nat) (p : PropertyKey) : M world bool :=
  s ← this i;
  globalContext ← gets (λ w, globalContext (heap w));
  mret (in_cachedGlobalObjects env p || hasProperty (fakeWindow s) p || hasProperty globalContext p).

(** The [getOwnPropertyDescriptor] handler. *)
Definition getOwnPropertyDescriptor_trap (i : nat) (p : PropertyKey)
  : M world (option PropertyDescriptor) :=
  s ← this i;
  globalContext ← gets (λ w, globalContext (heap w));
  if hasOwnProperty (fakeWindow s) p then
    let descriptor := getOwnPropertyDescriptor (fakeWindow s) p in
    update_this i (λ s, set_descriptorTargetMap (<[p := FromTarget]> (descriptorTargetMap s)) s);;
    mret descriptor
  else if hasOwnProperty globalContext p then
    let descriptor := getOwnPropertyDescriptor globalContext p in
    update_this i (λ s, set_descriptorTargetMap (<[p := FromGlobalContext]> (descriptorTargetMap s)) s);;
    (* a property cannot be reported as non-configurable if the target does not own it *)
    mret ((λ d, if negb (default false (d_configurable d)) then with_configurable true d else d)
            <$> descriptor)
  else mret None.

(** [Reflect.defineProperty(o, p, attributes)] reports a rejection as false. *)
Definition defineProperty_trap (i : nat) (p : PropertyKey) (attributes : PropertyDescriptor)
  : M world bool :=
  s ← this i;
  match descriptorTargetMap s !! p with
  | Some FromGlobalContext =>
      h ← gets heap;
      match defineOwnProperty (globalContext h) p attributes with
      | Some o' => on_heap (modify (set_globalContext o'));; mret true
      | None => mret false
      end
  | _ =>
      match defineOwnProperty (fakeWindow s) p attributes with
      | Some o' => update_this i (set_fakeWindow o');; mret true
      | None => mret false
      end
  end.

(** The [deleteProperty] handler. *)
Definition deleteProperty_trap (i : nat) (p : PropertyKey) : M world bool :=
  registerRunningApp i;;
  s ← this i;
  if hasOwnProperty (fakeWindow s) p then
    target_delete i p;;
    update_this i (λ s, set_updatedValueSet (updatedValueSet s ∖ {[p]}) s);;
    mret true
  else mret true.

(** The function declaration [hasOwnProperty] of the constructor. *)
Definition hasOwnProperty_function (h : Heap) (n : nat) : object :=
  {| own := <[KString "prototype" := Data (VObject (RObject n)) true false false]>
              (<[KString "name" := Data (VString "hasOwnProperty") false false true]>
                 (<[KString "length" := Data (VNumber 1) false false true]> ∅));
     inherited := function_view h;
     extensible := true |}.

(** [new ProxySandbox(name, globalContext, {speedy})]: the new instance. *)
Definition construct (env : Env) (name : string) (speedy : bool) : M world nat :=
  i ← gets (λ w, fresh (dom (sandboxes w)));
  globalContext ← gets (λ w, globalContext (heap w));
  let fw := createFakeWindow env globalContext speedy in
  match fw.1 with
  | Throw e => throw e
  | Normal _ =>
      h ← gets heap;
      closure ← on_heap (new_function (hasOwnProperty_function h (nextFunction h)));
      modify (λ w, set_sandboxes (<[i := {|
        name := name;
        sandboxRunning := true;
        latestSetProp := None;
        updatedValueSet := ∅;
        document := pageDocument env;
        globalWhitelistPrevDescriptor := [];
        proxy := VObject (RProxy i);
        fakeWindow := fw.2.1;
        propertiesWithGetter := fw.2.2;
        descriptorTargetMap := ∅;
        hasOwnProperty_closure := VFunction closure |}]> (sandboxes w)) w);;
      modify (λ w, set_activeSandboxCount (activeSandboxCount w + 1) w);;
      mret i
  end.

(** [uniq(array)]: the filter keeps an element the first time it comes and
    marks it in the object it is given as [this]. *)
Fixpoint uniq_filter (seen : gset PropertyKey) (array : list PropertyKey) : list PropertyKey :=
  match array with
  | [] => []
  | element :: rest =>
      if decide (element ∈ seen) then uniq_filter seen rest
      else element :: uniq_filter ({[element]} ∪ seen) rest
  end.

Definition uniq (array : list PropertyKey) : list PropertyKey := uniq_filter ∅ array.

(** The keys of [unscopables]; each holds [true]. *)
Definition unscopables (env : Env) : list string :=
  without (cachedGlobals env) (accessingSpiedGlobals ++ overwrittenGlobals env).

(** [Object.getOwnPropertySymbols(o)] *)
Definition getOwnPropertySymbols (o : object) : list nat :=
  omap (λ kp : PropertyKey * property,
          match kp.1 with KSymbol n => Some n | KString _ => None end)
       (map_to_list (own o)).

(** [Reflect.ownKeys(o)]: the string keys, then the symbols.  Within each group
    the order of the table stands for the order of creation. *)
Definition ownKeys (o : object) : list PropertyKey :=
  (KString <$> getOwnPropertyNames o) ++ (KSymbol <$> getOwnPropertySymbols o).

(** The [ownKeys] handler. *)
Definition ownKeys_trap (i : nat) : M world (list PropertyKey) :=
  s ← this i;
  globalContext ← gets (λ w, globalContext (heap w));
  mret (uniq (ownKeys globalContext ++ ownKeys (fakeWindow s))).

(** The function [hasOwnProperty] that the constructor of instance [i]
    declares, called with [receiver] as its [this].  [native] is
    [Object.prototype.hasOwnProperty.call(receiver, key)] of the platform. *)
Definition hasOwnProperty_call (native : value → PropertyKey → M world bool)
    (i : nat) (receiver : value) (key : PropertyKey) : M world bool :=
  s ← this i;
  if negb (bool_decide (receiver = proxy s)) && negb (bool_decide (receiver = VNull))
     && typeof_object receiver
  then
    (* calling from hasOwnProperty.call(obj, key) *)
    native receiver key
  else
    globalContext ← gets (λ w, globalContext (heap w));
    mret (hasOwnProperty (fakeWindow s) key || hasOwnProperty globalContext key).

End ProxySandbox.

(** ** The legacy sandbox: the diffing sandbox *)

Module LegacySandbox.

Definition isPropConfigurable (target : object) (prop : PropertyKey) : bool :=
  match getOwnPropertyDescriptor target prop with
  | Some descriptor => default false (d_configurable descriptor)
  | None => true
  end.

Record t := {
  name : string;
  sandboxRunning : bool;
  latestSetProp : option PropertyKey;
  addedPropsMapInSandbox : list (PropertyKey * value);
  modifiedPropsOriginalValueMapInSandbox : list (PropertyKey * value);
  currentUpdatedPropsValueMap : list (PropertyKey * value);
}.

Definition set_sandboxRunning (b : bool) (s : t) : t :=
  {| name := name s; sandboxRunning := b; latestSetProp := latestSetProp s;
     addedPropsMapInSandbox := addedPropsMapInSandbox s;
     modifiedPropsOriginalValueMapInSandbox := modifiedPropsOriginalValueMapInSandbox s;
     currentUpdatedPropsValueMap := currentUpdatedPropsValueMap s |}.

Definition set_latestSetProp (p : option PropertyKey) (s : t) : t :=
  {| name := name s; sandboxRunning := sandboxRunning s; latestSetProp := p;
     addedPropsMapInSandbox := addedPropsMapInSandbox s;
     modifiedPropsOriginalValueMapInSandbox := modifiedPropsOriginalValueMapInSandbox s;
     currentUpdatedPropsValueMap := currentUpdatedPropsValueMap s |}.

Definition set_added (m : list (PropertyKey * value)) (s : t) : t :=
  {| name := name s; sandboxRunning := sandboxRunning s; latestSetProp := latestSetProp s;
     addedPropsMapInSandbox := m;
     modifiedPropsOriginalValueMapInSandbox := modifiedPropsOriginalValueMapInSandbox s;
     currentUpdatedPropsValueMap := currentUpdatedPropsValueMap s |}.

Definition set_modified (m : list (PropertyKey * value)) (s : t) : t :=
  {| name := name s; sandboxRunning := sandboxRunning s; latestSetProp := latestSetProp s;
     addedPropsMapInSandbox := addedPropsMapInSandbox s;
     modifiedPropsOriginalValueMapInSandbox := m;
     currentUpdatedPropsValueMap := currentUpdatedPropsValueMap s |}.

Definition set_current (m : list (PropertyKey * value)) (s : t) : t :=
  {| name := name s; sandboxRunning := sandboxRunning s; latestSetProp := latestSetProp s;
     addedPropsMapInSandbox := addedPropsMapInSandbox s;
     modifiedPropsOriginalValueMapInSandbox := modifiedPropsOriginalValueMapInSandbox s;
     currentUpdatedPropsValueMap := m |}.

(** The heap and the instance. *)
Record world := {
  heap : Heap;
  self : t;
}.

Definition on_heap {A} (c : M Heap A) : M world A := λ w,
  let r := c (heap w) in (r.1, {| heap := r.2; self := self w |}).

Definition update_this (f : t → t) : M world unit :=
  modify (λ w, {| heap := heap w; self := f (self w) |}).

Definition proxy : value := VObject RLegacyProxy.

(** [setWindowProp(prop, value, toDelete)] *)
Definition setWindowProp (env : Env) (prop : PropertyKey) (v : value) (toDelete : bool)
  : M Heap unit :=
  if bool_decide (v = VUndefined) && toDelete then global_delete prop
  else
    globalContext ← gets globalContext;
    when (isPropConfigurable globalContext prop
          && negb (match prop with KSymbol _ => true | KString _ => false end)) (
      global_define prop
        {| d_value := None; d_writable := Some true; d_get := None; d_set := None;
           d_enumerable := None; d_configurable := Some true |};;
      global_assign env prop v).

Definition active (env : Env) : M world unit :=
  s ← gets self;
  when (negb (sandboxRunning s))
    (forEach (currentUpdatedPropsValueMap s) (λ pv, on_heap (setWindowProp env pv.1 pv.2 false)));;
  update_this (set_sandboxRunning true).

Definition inactive (env : Env) : M world unit :=
  s ← gets self;
  (* restore global props to initial snapshot *)
  forEach (modifiedPropsOriginalValueMapInSandbox s)
    (λ pv, on_heap (setWindowProp env pv.1 pv.2 false));;
  forEach (addedPropsMapInSandbox s)
    (λ pv, on_heap (setWindowProp env pv.1 VUndefined true));;
  update_this (set_sandboxRunning false).

(** A new instance: what the field initialisers and the constructor set. *)
Definition construct (name : string) : t :=
  {| name := name; sandboxRunning := true; latestSetProp := None;
     addedPropsMapInSandbox := []; modifiedPropsOriginalValueMapInSandbox := [];
     currentUpdatedPropsValueMap := [] |}.

Definition setTrap (env : Env) (p : PropertyKey) (v originalValue : value) (sync2Window : bool)
  : M world bool :=
  s ← gets self;
  if sandboxRunning s then
    rawWindow ← gets (λ w, globalContext (heap w));
    (if negb (hasOwnProperty rawWindow p) then
       update_this (λ s, set_added (table_set p v (addedPropsMapInSandbox s)) s)
     else
       when (negb (table_has p (modifiedPropsOriginalValueMapInSandbox s)))
         (update_this (λ s, set_modified
            (table_set p originalValue (modifiedPropsOriginalValueMapInSandbox s)) s)));;
    update_this (λ s, set_current (table_set p v (currentUpdatedPropsValueMap s)) s);;
    when sync2Window (on_heap (global_assign env p v));;
    update_this (set_latestSetProp (Some p));;
    mret true
  else
    (* a false result would raise in strict mode; the error is ignored *)
    mret true.

(** The [set] handler. *)
Definition set_trap (env : Env) (p : PropertyKey) (v : value) : M world bool :=
  originalValue ← on_heap (global_get env p);
  setTrap env p v originalValue true.

(** The [get] handler. *)
Definition get_trap (env : Env) (p : PropertyKey) : M world value :=
  if bool_decide (p = KString "top") || bool_decide (p = KString "parent")
     || bool_decide (p = KString "window") || bool_decide (p = KString "self")
  then mret proxy
  else
    val ← on_heap (global_get env p);
    on_heap (getTargetValue env (VObject RGlobalContext) val).

(** The [has] handler. *)
Definition has_trap (p : PropertyKey) : M world bool :=
  gets (λ w, hasProperty (globalContext (heap w)) p).

(** The [getOwnPropertyDescriptor] handler. *)
Definition getOwnPropertyDescriptor_trap (p : PropertyKey) : M world (option PropertyDescriptor) :=
  gets (λ w,
    (λ d, if negb (default false (d_configurable d)) then with_configurable true d else d)
      <$> getOwnPropertyDescriptor (globalContext (heap w)) p).

(** The [defineProperty] handler. *)
Definition defineProperty_trap (env : Env) (p : PropertyKey) (attributes : PropertyDescriptor)
  : M world bool :=
  originalValue ← on_heap (global_get env p);
  rawWindow ← gets (λ w, globalContext (heap w));
  done ← match defineOwnProperty rawWindow p attributes with
         | Some o' => on_heap (modify (set_globalContext o'));; mret true
         | None => mret false
         end;
  val ← on_heap (global_get env p);
  setTrap env p val originalValue false;;
  mret done.

End LegacySandbox.

(** ** loader.ts: the life cycles of an entry *)

Module Loader.

(** What a function of the loader ends with when nothing it calls throws: the
    value it returns, or the [QiankunError] it throws, with the message given
    to the constructor. *)
Inductive outcome (A : Type) :=
| Returned (a : A)
| QiankunError (message : string).
Arguments Returned {A} a.
Arguments QiankunError {A} message.

(** [if (globalLatestSetProp)]: no key and the empty string are skipped. *)
Definition given (globalLatestSetProp : option PropertyKey) : bool :=
  match globalLatestSetProp with
  | Some (KString s) => negb (bool_decide (s = ""))
  | Some (KSymbol _) => true
  | None => false
  end.

Section getLifecyclesFromExports.
Context {S : Type}.

(** [validateExportLifecycle] of [./utils], the read [global[p]] of the global
    object given to the function, and [console.warn]. *)
Variable validateExportLifecycle : value → bool.
Variable global_get : PropertyKey → M S value.
Variable console_warn : string → M S unit.

Definition getLifecyclesFromExports (env : Env) (scriptExports : value) (appName : string)
    (globalLatestSetProp : option PropertyKey) : M S (outcome value) :=
  if validateExportLifecycle scriptExports then mret (Returned scriptExports)
  else
    (* fallback to sandbox latest set property if it had *)
    found ← match globalLatestSetProp with
            | Some p =>
                if given globalLatestSetProp then
                  lifecycles ← global_get p;
                  mret (if validateExportLifecycle lifecycles then Some lifecycles else None)
                else mret None
            | None => mret None
            end;
    match found with
    | Some lifecycles => mret (Returned lifecycles)
    | None =>
        when (inDevelopment env)
          (console_warn ("[qiankun] lifecycle not found from " +:+ appName
                         +:+ " entry exports, fallback to get from window['" +:+ appName
                         +:+ "']"));;
        (* fallback to global variable who named with ${appName} *)
        globalVariableExports ← global_get (KString appName);
        if validateExportLifecycle globalVariableExports
        then mret (Returned globalVariableExports)
        else mret (QiankunError ("You need to export lifecycle functions in " +:+ appName
                                 +:+ " entry"))
    end.

End getLifecyclesFromExports.

(** The page of [loadApp] with a sandbox: the world of the multiplexed sandbox
    and the warnings of the loader on the console. *)
Record world := {
  sandbox_world : ProxySandbox.world;
  warnings : list string;
}.

Definition on_sandbox {A} (c : M ProxySandbox.world A) : M world A := λ w,
  let (r, sw) := c (sandbox_world w) in
  (r, {| sandbox_world := sw; warnings := warnings w |}).

Definition console_warn (message : string) : M world unit :=
  modify (λ w, {| sandbox_world := sandbox_world w; warnings := warnings w ++ [message] |}).

(** [getLifecyclesFromExports(scriptExports, appName, global, sandboxContainer.instance.latestSetProp)]
    of [loadApp], where [global] is the proxy of the sandbox [i]. *)
Definition lifecyclesFromSandbox (validateExportLifecycle : value → bool) (env : Env)
    (i : nat) (scriptExports : value) (appName : string) : M world (outcome value) :=
  s ← on_sandbox (ProxySandbox.this i);
  getLifecyclesFromExports validateExportLifecycle
    (λ p, on_sandbox (ProxySandbox.get_trap env i p)) console_warn
    env scriptExports appName (ProxySandbox.latestSetProp s).

End Loader.

(** ** Notions used to state the properties *)

(** A computation leaves a component [proj] of the state as it is, whatever
    its completion. *)
Definition preserves {S A X} (proj : S → X) (c : M S A) : Prop :=
  ∀ s, proj (c s).2 = proj s.

(** The host object after [globalContext[p] = v] when no setter is involved. *)
Definition assigned (host : object) (p : PropertyKey) (v : value) : object :=
  match ordinarySet host p v with
  | SetOwn o' => o'
  | _ => host
  end.

(** What plain writes can have made of a property. *)
Definition written_over (before after : option property) : Prop :=
  match before with
  | None => after = None ∨ ∃ v, after = Some (Data v true true true)
  | Some pr =>
      after = Some pr ∨ ∃ v0 v e c, pr = Data v0 true e c ∧ after = Some (Data v true e c)
  end.

(** The world after [registerRunningApp] for a running instance [s]. *)
Definition registered (s : ProxySandbox.t) (w : ProxySandbox.world) : ProxySandbox.world :=
  ProxySandbox.set_microtasks (ProxySandbox.microtasks w ++ [ClearCurrentRunningApp])
    (match ProxySandbox.currentRunningApp w with
     | Some app =>
         if bool_decide (app_name app = ProxySandbox.name s)
         then ProxySandbox.set_currentRunningApp (ProxySandbox.currentRunningApp w) w
         else ProxySandbox.set_currentRunningApp
                (Some {| app_name := ProxySandbox.name s; app_window := ProxySandbox.proxy s |}) w
     | None =>
         ProxySandbox.set_currentRunningApp
           (Some {| app_name := ProxySandbox.name s; app_window := ProxySandbox.proxy s |}) w
     end).

(** The property the fake window receives for the host property [pr] at [p]. *)
Definition copied (env : Env) (speedy : bool) (p : string) (pr : property) : property :=
  if ProxySandbox.normalized env speedy p then
    match pr with
    | Data v _ e _ => Data v true e true
    | Accessor g s e _ => Accessor g s e true
    end
  else pr.

(** The write of [p] through the proxy is an assignment to the fake window that
    a setter receives. *)
Definition write_reaches_setter (target globalContext : object) (p : PropertyKey) : bool :=
  (hasOwnProperty target p || negb (hasOwnProperty globalContext p)) && reaches_setter target p.

(** The property [setWindowProp] leaves at a configurable string key. *)
Definition rewritten (v : value) (pr : property) : property :=
  Data v true (prop_enumerable pr) true.

(** A legacy sandbox that has just been constructed over the heap [h]. *)
Definition fresh_legacy (h : Heap) (name : string) : LegacySandbox.world :=
  {| LegacySandbox.heap := h; LegacySandbox.self := LegacySandbox.construct name |}.

Definition intercepted (env : Env) (p : PropertyKey) : bool :=
  bool_decide (p = Symbol_unscopables)
  || bool_decide (p = KString "window") || bool_decide (p = KString "self")
  || bool_decide (p = KString "globalThis")
  || bool_decide (p = KString "top") || bool_decide (p = KString "parent")
  || bool_decide (p = KString "hasOwnProperty") || bool_decide (p = KString "document")
  || bool_decide (p = KString "eval")
  || (inTest env && (bool_decide (p = KString ProxySandbox.mockGlobalThis)
                     || bool_decide (p = KString ProxySandbox.mockTop)
                     || bool_decide (p = KString ProxySandbox.mockSafariTop))).

Definition overwritable (pr : property) : bool :=
  match pr with Data _ w _ _ => w | Accessor _ s _ _ => truthy s end.

Definition write_is_kept (target globalContext : object) (p : PropertyKey) : bool :=
  if negb (hasOwnProperty target p) && hasOwnProperty globalContext p
  then match own globalContext !! p with
       | Some pr => overwritable pr && extensible target
       | None => false
       end
  else accepts_write target p.

(** The property of the fake window after a kept write of [v] at [p]. *)
Definition kept_property (target globalContext : object) (p : PropertyKey) (v : value) : property :=
  match own target !! p, own globalContext !! p with
  | Some pr, _ => Data v true (prop_enumerable pr) (prop_configurable pr)
  | None, Some pr => Data v true (prop_enumerable pr) (prop_configurable pr)
  | None, None => Data v true true true
  end.

(** The number of instances whose running flag is set. *)
Definition running_instances (w : ProxySandbox.world) : Z :=
  Z.of_nat (size (filter (λ kv : nat * ProxySandbox.t, ProxySandbox.sandboxRunning kv.2 = true)
                         (ProxySandbox.sandboxes w))).

(** Every run of the computation relates the state it starts from to the
    state it ends in, whatever its completion. *)
Definition respects {S A} (R : relation S) (c : M S A) : Prop :=
  ∀ s, R s (c s).2.

(** What the heap keeps while a wrapper is built for the function [b]: the
    host object, [Function.prototype], the bound functions, the cache and the
    function objects that exist already, other than [b]. *)
Definition keeps_but (b : nat) (h h' : Heap) : Prop :=
  nextFunction h ≤ nextFunction h'
  ∧ globalContext h' = globalContext h
  ∧ functionPrototype h' = functionPrototype h
  ∧ boundFunctions h' = boundFunctions h
  ∧ functionBoundedValueMap h' = functionBoundedValueMap h
  ∧ ∀ m, m < nextFunction h → m ≠ b → functions h' !! m = functions h !! m.

(** Writing the pairs of [ws] through the proxy of the diffing sandbox, in order. *)
Definition legacy_writes (env : Env) (ws : list (string * value)) : M LegacySandbox.world unit :=
  forEach ws (λ kv, LegacySandbox.set_trap env (KString kv.1) kv.2 ;; mret ()).

(** A key for which the host object stores a write and [setWindowProp] can
    undo it: a writable and configurable data property, or a key that the host
    object does not own and whose assignment creates it. *)
Definition restorable (host : object) (p : PropertyKey) : bool :=
  match own host !! p with
  | Some (Data _ true _ true) => true
  | Some _ => false
  | None => accepts_write host p
  end.

(** The bookkeeping of a running diffing sandbox, constructed over the heap
    [h0], agrees with the host object. *)
Definition legacy_consistent (h0 : Heap) (w : LegacySandbox.world) : Prop :=
  let host0 := globalContext h0 in
  let host := globalContext (LegacySandbox.heap w) in
  let s := LegacySandbox.self w in
  LegacySandbox.sandboxRunning s = true
  ∧ set_globalContext host0 (LegacySandbox.heap w) = h0
  ∧ inherited host = inherited host0 ∧ extensible host = extensible host0
  ∧ NoDup (LegacySandbox.addedPropsMapInSandbox s).*1
  ∧ NoDup (LegacySandbox.modifiedPropsOriginalValueMapInSandbox s).*1
  ∧ ∀ p,
      match own host0 !! p with
      | None =>
          (table_get p (LegacySandbox.addedPropsMapInSandbox s) = None
           ∧ table_get p (LegacySandbox.modifiedPropsOriginalValueMapInSandbox s) = None
           ∧ own host !! p = None)
          ∨ (is_Some (table_get p (LegacySandbox.addedPropsMapInSandbox s))
             ∧ (∃ k, p = KString k) ∧ ∃ v, own host !! p = Some (Data v true true true))
      | Some pr0 =>
          table_get p (LegacySandbox.addedPropsMapInSandbox s) = None
          ∧ ((table_get p (LegacySandbox.modifiedPropsOriginalValueMapInSandbox s) = None
              ∧ own host !! p = Some pr0)
             ∨ (∃ k v0 e v, p = KString k ∧ pr0 = Data v0 true e true
                  ∧ table_get p (LegacySandbox.modifiedPropsOriginalValueMapInSandbox s) = Some v0
                  ∧ own host !! p = Some (Data v true e true)))
      end.

(** What the heap keeps while the property [q] of the function [b] is
    defined: what [keeps_but] tells, and the other properties of [b]. *)
Definition keeps_own (b : nat) (q : PropertyKey) (h h' : Heap) : Prop :=
  keeps_but b h h'
  ∧ (b < nextFunction h →
       inherited (function_object h' b) = inherited (function_object h b)
       ∧ extensible (function_object h' b) = extensible (function_object h b)
       ∧ ∀ q', q' ≠ q → own (function_object h' b) !! q' = own (function_object h b) !! q').

(** The fields that the [for ... in] loop of [getTargetValue] gives the wrapper [ob]. *)
Definition with_fields (ob : object) (fields : list (string * value)) : object :=
  foldl (λ o kv, with_own (insert (KString kv.1) (Data kv.2 true true true)) o) ob fields.

(** ** A page to run the code on *)

(** On this page the function 100 is a getter that returns the host property
    [_foo] and the function 101 is the setter that stores into it. *)
Definition page_getter (f : value) (host : object) : value :=
  if bool_decide (f = VFunction 100) then
    match own host !! KString "_foo" with
    | Some (Data v _ _ _) => v
    | _ => VUndefined
    end
  else VUndefined.

Definition page_setter (f v : value) (host : object) : object :=
  if bool_decide (f = VFunction 101)
  then with_own (insert (KString "_foo") (Data v true false true)) host
  else host.

(** A property is frozen when it cannot be configured and cannot be written. *)
Definition page_isPropertyFrozen (o : object) (p : PropertyKey) : bool :=
  match own o !! p with
  | Some (Data _ w _ c) => negb c && negb w
  | Some (Accessor g s _ c) => negb c && truthy g && negb (truthy s)
  | None => false
  end.

Definition page_env (node_env : string) : Env :=
  {| NODE_ENV := node_env;
     QIANKUN_DEVELOPMENT := false;
     globals := ["Array"; "Object"; "undefined"; "NaN"];
     nativeGlobal := VObject RGlobalContext;
     evalFunction := VFunction 1;
     pageDocument := VObject (RObject 0);
     objectPrototype := {[ KString "toString" := Data (VFunction 2) true false true ]};
     getterOf := page_getter;
     setterOf := page_setter;
     isCallable := typeof_function;
     isBoundedFunction := λ _, false;
     isConstructable := λ v, bool_decide (v = VFunction 3);
     isPropertyFrozen := page_isPropertyFrozen |}.

Definition production : Env := page_env "production".
Definition test_env : Env := page_env "test".

Definition page_host : object :=
  {| own :=
       <[KString "window" := Data (VObject RGlobalContext) false true false]>
       (<[KString "x" := Data (VNumber 1) true true true]>
       (<[KString "fixed" := Data (VNumber 7) true true false]>
       (<[KString "NaN" := Data (VNumber 0) false false false]>
       (<[KString "foo" := Accessor (VFunction 100) (VFunction 101) true false]>
       (<[KString "_foo" := Data (VNumber 0) true false true]>
       (<[KString "atob" := Data (VFunction 5) true true true]>
       (<[KSymbol 7 := Data (VNumber 0) true true true]> ∅)))))));
     inherited := {[ KString "toString" := Data (VFunction 2) true false true ]};
     extensible := true |}.

Definition page_heap : Heap :=
  {| globalContext := page_host;
     functionPrototype :=
       {| own := {[ KString "toString" := Data (VFunction 4) true false true ]};
          inherited := {[ KString "toString" := Data (VFunction 2) true false true ]};
          extensible := true |};
     functions := ∅;
     boundFunctions := ∅;
     nextFunction := 200;
     functionBoundedValueMap := ∅ |}.

Definition page_world : ProxySandbox.world :=
  {| ProxySandbox.heap := page_heap;
     ProxySandbox.currentRunningApp := None;
     ProxySandbox.microtasks := [];
     ProxySandbox.console := [];
     ProxySandbox.activeSandboxCount := 0;
     ProxySandbox.sandboxes := ∅ |}.

(** The page after [new ProxySandbox("A")] and [new ProxySandbox("B")]: the
    instances 0 and 1, both active. *)
Definition one_sandbox (env : Env) : ProxySandbox.world :=
  state_of (ProxySandbox.construct env "A" false page_world).

Definition two_sandboxes (env : Env) : ProxySandbox.world :=
  state_of (ProxySandbox.construct env "B" false (one_sandbox env)).

(** The page with the instance 0 deactivated. *)
Definition stopped_sandbox (env : Env) : ProxySandbox.world :=
  state_of (ProxySandbox.inactive env 0 (one_sandbox env)).

Definition stopped_legacy : LegacySandbox.world :=
  state_of (LegacySandbox.inactive production (fresh_legacy page_heap "legacy")).

(** The page after the host script
    [Object.defineProperty(window, "build", {value: 3, enumerable: true, configurable: true})],
    with one sandbox constructed over it. *)
Definition page_with_build : ProxySandbox.world :=
  ProxySandbox.set_heap
    (set_globalContext
       (with_own (insert (KString "build") (Data (VNumber 3) false true true)) page_host)
       page_heap)
    page_world.

Definition sandbox_over_build (env : Env) : ProxySandbox.world :=
  state_of (ProxySandbox.construct env "A" false page_with_build).

(** The page with a callable [6] that has an enumerable field [version] and a
    [prototype] that is not enumerable, as a function written in script has. *)
Definition page_with_moment : Heap :=
  set_function 6
    (with_own (insert (KString "version") (Data (VString "2.29.4") true true true))
       (with_own (insert (KString "prototype") (Data (VObject (RObject 1)) true false false))
          (new_object (function_view page_heap))))
    page_heap.

Definition development : Env := page_env "development".

(** The page with one sandbox whose entry script has run
    [window.app1 = lifecycles], the object [9]. *)
Definition sandbox_with_lifecycles (env : Env) : ProxySandbox.world :=
  state_of (ProxySandbox.set_trap env 0 (KString "app1") (VObject (RObject 9)) (one_sandbox env)).

(** * Properties *)

(** ** Computations *)

Section computations.
Context {S : Type}.

Lemma bind_normal {A B} (m : M S A) (f : A → M S B) s b s' :
  (m ≫= f) s = (Normal b, s') →
  ∃ a s1, m s = (Normal a, s1) ∧ f a s1 = (Normal b, s').
Proof.
  unfold mbind, M_bind. destruct (m s) as [[a|e] s1]; [eauto | discriminate].
Qed.

Lemma bind_eq {A B} (m : M S A) (f : A → M S B) s a s1 :
  m s = (Normal a, s1) → (m ≫= f) s = f a s1.
Proof. unfold mbind, M_bind. by intros ->. Qed.

Lemma preserves_ret {A X} (proj : S → X) (a : A) : preserves proj (mret a : M S A).
Proof. by intros s. Qed.

Lemma preserves_throw {A X} (proj : S → X) e : preserves proj (throw e : M S A).
Proof. by intros s. Qed.

Lemma preserves_gets {A X} (proj : S → X) (f : S → A) : preserves proj (gets f).
Proof. by intros s. Qed.

Lemma preserves_modify {X} (proj : S → X) (f : S → S) :
  (∀ s, proj (f s) = proj s) → preserves proj (modify f).
Proof. intros H s. apply H. Qed.

Lemma preserves_bind_at {A B X} (proj : S → X) (m : M S A) (f : A → M S B) s :
  proj (m s).2 = proj s → (∀ a, preserves proj (f a)) → proj ((m ≫= f) s).2 = proj s.
Proof.
  intros Hm Hf. unfold mbind, M_bind.
  destruct (m s) as [[a|e] s1]; simpl in *; [|done].
  by rewrite Hf.
Qed.

Lemma preserves_bind {A B X} (proj : S → X) (m : M S A) (f : A → M S B) :
  preserves proj m → (∀ a, preserves proj (f a)) → preserves proj (m ≫= f).
Proof. intros Hm Hf s. by apply preserves_bind_at. Qed.

Lemma preserves_when {X} (proj : S → X) b (c : M S unit) :
  preserves proj c → preserves proj (when b c).
Proof. destruct b; [done|]. intros _. apply preserves_ret. Qed.

Lemma preserves_forEach {A X} (proj : S → X) (l : list A) (f : A → M S unit) :
  (∀ a, preserves proj (f a)) → preserves proj (forEach l f).
Proof.
  intros Hf. induction l as [|a l IH]; [apply preserves_ret|].
  apply preserves_bind; [apply Hf | intros _; apply IH].
Qed.

End computations.

(** ** Objects *)

Lemma hasOwnProperty_true o p pr : own o !! p = Some pr → hasOwnProperty o p = true.
Proof. intros H. unfold hasOwnProperty. rewrite H. apply bool_decide_true. eauto. Qed.

Lemma hasOwnProperty_false o p : own o !! p = None → hasOwnProperty o p = false.
Proof. intros H. unfold hasOwnProperty. rewrite H. apply bool_decide_false. by intros [??]. Qed.

Lemma readProperty_data env host o p v wr e c :
  own o !! p = Some (Data v wr e c) → readProperty env host o p = v.
Proof. intros H. unfold readProperty, findProperty. by rewrite H. Qed.

Lemma create_property_fromProperty pr : create_property (fromProperty pr) = pr.
Proof. by destruct pr. Qed.

Lemma well_formed_fromProperty pr : well_formed_descriptor (fromProperty pr) = true.
Proof. by destruct pr. Qed.

(** Which of the three outcomes an assignment has does not depend on the value. *)
Lemma ordinarySet_kind o p v v' :
  match ordinarySet o p v, ordinarySet o p v' with
  | SetOwn _, SetOwn _ | SetRejected, SetRejected => True
  | SetSetter f, SetSetter f' => f = f'
  | _, _ => False
  end.
Proof.
  unfold ordinarySet.
  destruct (own o !! p) as [[? [] ? ?|? s ? ?]|]; try done.
  - by destruct (bool_decide (s = VUndefined)).
  - destruct (inherited o !! p) as [[? [] ? ?|? s ? ?]|]; try done.
    + by destruct (extensible o).
    + by destruct (bool_decide (s = VUndefined)).
    + by destruct (extensible o).
Qed.

Lemma not_reaches_setter o p v f : reaches_setter o p = false → ordinarySet o p v ≠ SetSetter f.
Proof.
  unfold reaches_setter. intros H Hs. pose proof (ordinarySet_kind o p v VUndefined) as Hk.
  rewrite Hs in Hk. by destruct (ordinarySet o p VUndefined).
Qed.

Lemma ordinarySet_own_absent o p v o' :
  own o !! p = None → ordinarySet o p v = SetOwn o' →
  o' = with_own (insert p (Data v true true true)) o.
Proof.
  unfold ordinarySet. intros ->.
  destruct (inherited o !! p) as [[? [] ? ?|? s ? ?]|]; try done.
  - destruct (extensible o); [|done]. by intros [= <-].
  - by destruct (bool_decide (s = VUndefined)).
  - destruct (extensible o); [|done]. by intros [= <-].
Qed.

Lemma accepts_write_cases o p :
  accepts_write o p = true →
  (own o !! p = None ∧ extensible o = true ∧ reaches_setter o p = false
   ∧ ∀ v, ordinarySet o p v = SetOwn (with_own (insert p (Data v true true true)) o))
  ∨ (∃ v0 e c, own o !! p = Some (Data v0 true e c)).
Proof.
  unfold accepts_write, reaches_setter, ordinarySet.
  destruct (own o !! p) as [[v0 [] e c|g s e c]|] eqn:Hown; try done.
  - intros _. right. eauto.
  - by destruct (bool_decide (s = VUndefined)).
  - intros H. left.
    destruct (inherited o !! p) as [[? [] ? ?|? s ? ?]|]; try done.
    + by destruct (extensible o).
    + by destruct (bool_decide (s = VUndefined)).
    + by destruct (extensible o).
Qed.

Lemma string_keys_elem m s pr :
  (s, pr) ∈ string_keys m ↔ m !! KString s = Some pr.
Proof.
  unfold string_keys. rewrite list_elem_of_omap. split.
  - intros ([k pr'] & Hin & Hf). simpl in Hf. destruct k; [|done].
    injection Hf as -> ->. by apply elem_of_map_to_list.
  - intros H. exists (KString s, pr). split; [by apply elem_of_map_to_list|done].
Qed.

Lemma string_keys_NoDup m : NoDup (string_keys m).*1.
Proof.
  unfold string_keys. pose proof (NoDup_fst_map_to_list m) as Hnd.
  induction (map_to_list m) as [|[k pr] l IH]; simpl; [constructor|].
  simpl in Hnd. apply NoDup_cons in Hnd as [Hk Hnd].
  destruct k as [s|n]; simpl; [|by apply IH].
  apply NoDup_cons. split; [|by apply IH].
  intros Hin. apply Hk. apply list_elem_of_fmap in Hin as ([s' pr'] & -> & Hin).
  apply list_elem_of_omap in Hin as ([k' pr''] & Hin & Hf). simpl in Hf.
  destruct k'; [|done]. injection Hf as -> ->.
  apply list_elem_of_fmap. by exists (KString s', pr').
Qed.

(** ** Plain writes to the host object and their undoing *)

Lemma set_globalContext_id h : set_globalContext (globalContext h) h = h.
Proof. by destruct h. Qed.

Lemma global_assign_state env p v h :
  reaches_setter (globalContext h) p = false →
  (global_assign env p v h).2 = set_globalContext (assigned (globalContext h) p v) h.
Proof.
  intros Hset. unfold global_assign, assigned.
  destruct (ordinarySet (globalContext h) p v) eqn:Hos; simpl.
  - done.
  - by apply not_reaches_setter in Hos.
  - by rewrite set_globalContext_id.
Qed.

Lemma written_over_refl x : written_over x x.
Proof. destruct x; simpl; auto. Qed.

Lemma assigned_other host p v q : p ≠ q → own (assigned host p v) !! q = own host !! q.
Proof.
  intros Hpq. unfold assigned, ordinarySet.
  repeat case_match; simplify_eq; simpl; rewrite ?lookup_insert_ne by done; done.
Qed.

Lemma assigned_inherited host p v : inherited (assigned host p v) = inherited host.
Proof. unfold assigned, ordinarySet. repeat case_match; by simplify_eq. Qed.

Lemma assigned_extensible host p v : extensible (assigned host p v) = extensible host.
Proof. unfold assigned, ordinarySet. repeat case_match; by simplify_eq. Qed.

Lemma assigned_written_over host p v x :
  written_over x (own host !! p) → written_over x (own (assigned host p v) !! p).
Proof.
  unfold assigned, ordinarySet. intros Hx.
  destruct (own host !! p) as [[v0 [] e c|g s e c]|] eqn:Hown; simpl; rewrite ?lookup_insert_eq, ?Hown.
  - destruct x as [pr|]; simpl in *.
    + destruct Hx as [Hx|(v0' & v' & e' & c' & Hpr & Hx)]; simplify_eq; right; eauto 10.
    + destruct Hx as [Hx|[v' Hx]]; simplify_eq; right; eauto.
  - done.
  - by destruct (bool_decide (s = VUndefined)); simpl; rewrite Hown.
  - destruct x as [pr|]; simpl in *; [by destruct Hx as [|(?&?&?&?&?&?)]|].
    repeat case_match; simplify_eq; simpl; rewrite ?lookup_insert_eq, ?Hown; eauto.
Qed.

Lemma assigned_written_over_any host p v q x :
  written_over x (own host !! q) → written_over x (own (assigned host p v) !! q).
Proof.
  destruct (decide (p = q)) as [->|Hpq]; [apply assigned_written_over|].
  by rewrite assigned_other.
Qed.

Lemma assigned_reaches_setter host p v q :
  reaches_setter host q = false → reaches_setter (assigned host p v) q = false.
Proof.
  destruct (decide (p = q)) as [->|Hpq].
  - unfold reaches_setter, assigned, ordinarySet. intros H.
    destruct (own host !! q) as [[v0 [] e c|g s e c]|] eqn:Hown; simpl in *.
    + by rewrite lookup_insert_eq.
    + by rewrite Hown.
    + destruct (bool_decide (s = VUndefined)) eqn:Hs; simpl in *; [|done]. by rewrite Hown, Hs.
    + destruct (inherited host !! q) as [[? [] ? ?|? s ? ?]|] eqn:Hinh; simpl in *.
      * destruct (extensible host) eqn:Hext; simpl; by rewrite ?lookup_insert_eq, ?Hown, ?Hinh, ?Hext.
      * by rewrite Hown, Hinh.
      * destruct (bool_decide (s = VUndefined)) eqn:Hs; simpl in *; [|done]. by rewrite Hown, Hinh, Hs.
      * destruct (extensible host) eqn:Hext; simpl; by rewrite ?lookup_insert_eq, ?Hown, ?Hinh, ?Hext.
  - intros H. unfold reaches_setter, ordinarySet in *.
    rewrite assigned_other, assigned_inherited, assigned_extensible by done.
    by repeat (case_match; simplify_eq).
Qed.

Lemma define_recorded pr cur :
  cur = pr ∨ (∃ v0 v e c, pr = Data v0 true e c ∧ cur = Data v true e c) →
  validateAndApply true (fromProperty pr) (Some cur) = Some pr
  ∧ validateAndApply false (fromProperty pr) (Some cur) = Some pr.
Proof.
  intros [->|(v0 & v & e & c & -> & ->)]; unfold validateAndApply.
  - destruct pr as [v [] [] []|g s [] []]; unfold rejected_on_non_configurable; simpl;
      rewrite ?bool_decide_true by done; done.
  - destruct e, c; unfold rejected_on_non_configurable; simpl; done.
Qed.

(** Defining the recorded descriptor again, or deleting the key when nothing
    was recorded, undoes plain writes. *)
Lemma restore_recorded host p before :
  written_over before (own host !! p) →
  match before with
  | Some pr => ∃ host', defineOwnProperty host p (fromProperty pr) = Some host'
                        ∧ own host' !! p = Some pr
  | None => ∃ host', deleteOwnProperty host p = Some host' ∧ own host' !! p = None
  end.
Proof.
  destruct before as [pr|]; simpl.
  - intros H. unfold defineOwnProperty. rewrite well_formed_fromProperty.
    assert (∃ cur, own host !! p = Some cur
                   ∧ (cur = pr ∨ (∃ v0 v e c, pr = Data v0 true e c ∧ cur = Data v true e c)))
      as (cur & -> & Hcur) by (destruct H as [?|(?&?&?&?&?&?)]; eauto 10).
    apply (define_recorded pr cur) in Hcur as [H1 H2].
    destruct (extensible host); rewrite ?H1, ?H2; simpl;
      eexists; (split; [done|]); simpl; by rewrite lookup_insert_eq.
  - intros [Hown|[v Hown]]; unfold deleteOwnProperty; rewrite Hown; simpl.
    + by eexists.
    + eexists. split; [done|]. simpl. by rewrite lookup_delete_eq.
Qed.

(** ** The native value binding layer *)

(** C7. For a callable that is neither bound nor constructable, a second
    application of the binding layer returns the very wrapper the first one
    returned, whatever the receivers, and changes nothing; a value that is not
    eligible is returned as it is, and nothing changes. *)
Theorem bound_wrapper_is_reused env target target' v :
  (eligible env v = true →
     ∀ h r1 h1, getTargetValue env target v h = (Normal r1, h1) →
                getTargetValue env target' v h1 = (Normal r1, h1))
  ∧ (eligible env v = false → ∀ h, getTargetValue env target v h = (Normal v, h)).
Proof.
  split; intros He.
  - intros h r1 h1. unfold getTargetValue. rewrite He.
    intros H. apply bind_normal in H as (cached & h' & Hc & H).
    unfold gets in Hc. injection Hc as <- <-.
    destruct (truthy _) eqn:Ht.
    + injection H as <- <-. unfold mbind, M_bind, gets. by rewrite Ht.
    + destruct v as [| | | | | | |n]; try discriminate H.
      apply bind_normal in H as (bound & h2 & _ & H).
      do 3 (apply bind_normal in H as (? & ? & _ & H)).
      apply bind_normal in H as (? & h3 & Hm & H).
      injection H as <- <-. unfold modify in Hm. injection Hm as Hm. subst h3.
      unfold mbind, M_bind, gets. simpl. by rewrite lookup_insert_eq.
  - intros h. unfold getTargetValue. by rewrite He.
Qed.

Lemma bound_wrapper_is_reused_witness :
  eligible production (VFunction 5) = true
  ∧ eligible production (VNumber 1) = false
  ∧ (let r := getTargetValue production (VObject RGlobalContext) (VFunction 5) page_heap in
     result_of r = Normal (VFunction 200)
     ∧ getTargetValue production (nativeGlobal production) (VFunction 5) (state_of r)
       = (Normal (VFunction 200), state_of r))
  ∧ getTargetValue production (VObject RGlobalContext) (VNumber 1) page_heap
    = (Normal (VNumber 1), page_heap).
Proof.
  split; [reflexivity|]. split; [reflexivity|]. split.
  - split; [by vm_compute|].
    apply (proj1 (bound_wrapper_is_reused production (VObject RGlobalContext)
                    (nativeGlobal production) (VFunction 5)) eq_refl page_heap).
    by vm_compute.
  - apply (proj2 (bound_wrapper_is_reused production (VObject RGlobalContext)
                    (VObject RGlobalContext) (VNumber 1)) eq_refl).
Defined.

(** *** The first application returns

    For a callable without enumerable fields and without a [toString] of its
    own the first application does return, and its result is the function
    allocated for the wrapper. *)

Ltac run_heap :=
  repeat progress (try unfold mbind; try unfold M_bind; try unfold mret; try unfold M_ret;
  cbn [gets modify when throw forEach state_of result_of fst snd id
       new_function bind_function function_get negb andb orb]).

Lemma function_object_set_function h m o n :
  function_object (set_function m o h) n = if decide (m = n) then o else function_object h n.
Proof.
  unfold function_object, function_view. simpl. case_decide as Hmn.
  - subst. by rewrite lookup_insert_eq.
  - by rewrite lookup_insert_ne.
Qed.

Lemma function_object_new_function h k o n :
  n ≠ nextFunction h →
  function_object (set_nextFunction k (set_function (nextFunction h) o h)) n = function_object h n.
Proof.
  intros Hn. unfold function_object, function_view. simpl. by rewrite lookup_insert_ne.
Qed.

Lemma copy_prototype_returns env n b h :
  own (function_object h b) !! KString "prototype" = None →
  extensible (function_object h b) = true →
  copy_prototype env n b h = (Normal (), h)
  ∨ ∃ pr, copy_prototype env n b h
          = (Normal (), set_function b (with_own (insert (KString "prototype") pr)
                                                 (function_object h b)) h).
Proof.
  intros Hown Hext. unfold copy_prototype. run_heap.
  destruct (hasOwnProperty (function_object h n) (KString "prototype") && _); run_heap; [|by left].
  right. unfold function_define, defineOwnProperty. simpl. rewrite Hown, Hext. simpl. eauto.
Qed.

Lemma keep_toString_returns env n b h :
  own (function_object h n) !! KString "toString" = None →
  own (function_object h b) !! KString "toString" = None →
  extensible (function_object h b) = true →
  b ≠ nextFunction h →
  (∀ g s e c, own (functionPrototype h) !! KString "toString" ≠ Some (Accessor g s e c)) →
  ∃ h', keep_toString env n b h = (Normal (), h').
Proof.
  intros Hn Hb Hext Hfresh Hproto. unfold keep_toString. run_heap.
  destruct (typeof_function _); run_heap; [|eauto].
  rewrite (hasOwnProperty_false _ _ Hn). run_heap.
  destruct (bool_decide _); run_heap; [|eauto].
  unfold getOwnPropertyDescriptor.
  destruct (own (functionPrototype h) !! KString "toString") as [[v w e c|g s e c]|] eqn:Hp;
    [| by destruct (Hproto g s e c) |]; simpl (truthy _); cbv iota; run_heap;
    unfold function_define; rewrite function_object_new_function by done;
    unfold defineOwnProperty; rewrite Hb, Hext; simpl; eauto.
Qed.

Lemma bound_function_object_own env h n p :
  p ≠ KString "name" → p ≠ KString "length" →
  own (bound_function_object env h n) !! p = None.
Proof.
  intros H1 H2. unfold bound_function_object. cbn [own].
  by rewrite !lookup_insert_ne, lookup_empty.
Qed.

(** The first application of the layer to an eligible callable that is not yet
    in [functionBoundedValueMap] returns the newly bound function. *)
Lemma getTargetValue_returns env target n h :
  eligible env (VFunction n) = true →
  functionBoundedValueMap h !! n = None →
  n ≠ nextFunction h →
  for_in_keys (function_object h n) = [] →
  own (function_object h n) !! KString "toString" = None →
  (∀ g s e c, own (functionPrototype h) !! KString "toString" ≠ Some (Accessor g s e c)) →
  ∃ h', getTargetValue env target (VFunction n) h = (Normal (VFunction (nextFunction h)), h').
Proof.
  intros He Hcache Hn Hkeys Hown Hproto.
  unfold getTargetValue. rewrite He. unfold cachedBoundFunction. run_heap. rewrite Hcache. simpl.
  run_heap.
  set (b := nextFunction h).
  set (h1 := set_boundFunction _ _ _ _).
  assert (function_object h1 n = function_object h n) as Hfn.
  { unfold h1, function_object, function_view. simpl. by rewrite lookup_insert_ne. }
  assert (function_object h1 b = bound_function_object env h n) as Hfb.
  { unfold h1, function_object, function_view. simpl. by rewrite lookup_insert_eq. }
  assert (b ≠ nextFunction h1) as Hb1 by (unfold h1, b; simpl; lia).
  unfold copy_fields. run_heap. rewrite Hfn, Hkeys. run_heap.
  destruct (copy_prototype_returns env n b h1) as [Hcp|[pr Hcp]].
  { rewrite Hfb. by apply bound_function_object_own. }
  { by rewrite Hfb. }
  - rewrite Hcp. run_heap.
    destruct (keep_toString_returns env n b h1) as [h' Hk]; try done.
    + by rewrite Hfn.
    + rewrite Hfb. by apply bound_function_object_own.
    + by rewrite Hfb.
    + rewrite Hk. run_heap. eauto.
  - rewrite Hcp. run_heap.
    destruct (keep_toString_returns env n b
                (set_function b (with_own (insert (KString "prototype") pr)
                                          (function_object h1 b)) h1)) as [h' Hk]; try done.
    + rewrite function_object_set_function, decide_False by done. by rewrite Hfn.
    + rewrite function_object_set_function, decide_True by done. simpl.
      rewrite lookup_insert_ne by done. rewrite Hfb. by apply bound_function_object_own.
    + rewrite function_object_set_function, decide_True by done. simpl. by rewrite Hfb.
    + rewrite Hk. run_heap. eauto.
Qed.

Example getTargetValue_returns_on_the_page :
  ∃ h', getTargetValue production (VObject RGlobalContext) (VFunction 5) page_heap
        = (Normal (VFunction 200), h').
Proof.
  by apply (getTargetValue_returns production (VObject RGlobalContext) 5 page_heap);
    vm_compute.
Defined.

(** ** The multiplexed sandbox *)

Module ProxySandboxProperties.
Import ProxySandbox.

Lemma preserves_on_heap {A X} (proj : world → X) (c : M Heap A) :
  (∀ h w, proj (set_heap h w) = proj w) → preserves proj (on_heap c).
Proof. intros H w. apply H. Qed.

Lemma preserves_this {X} (proj : world → X) i : preserves proj (this i).
Proof. intros w. unfold this. by destruct (sandboxes w !! i). Qed.

Lemma preserves_update_this {X} (proj : world → X) i f :
  (∀ m w, proj (set_sandboxes m w) = proj w) → preserves proj (update_this i f).
Proof. intros H w. apply H. Qed.

Lemma update_this_other i j f : i ≠ j → preserves (λ w, sandboxes w !! j) (update_this i f).
Proof. intros Hij w. simpl. by apply lookup_alter_ne. Qed.

Ltac preserves_step :=
  first
    [ apply preserves_ret
    | apply preserves_throw
    | apply preserves_gets
    | apply preserves_this
    | apply preserves_on_heap; intros; reflexivity
    | apply preserves_update_this; intros; reflexivity
    | apply update_this_other; assumption
    | apply preserves_modify; intros; reflexivity
    | apply preserves_when
    | apply preserves_forEach; intros
    | apply preserves_bind; [|intros]
    | match goal with
      | |- preserves _ (if ?b then _ else _) => destruct b
      | |- preserves _ (match ?x with _ => _ end) => destruct x
      end ].

Ltac preserves_tac := repeat preserves_step.

(** Unfolding the sequencing of a handler and reading the fields of the
    records it builds. *)
Ltac run :=
  repeat progress (try unfold mbind; try unfold M_bind; try unfold mret; try unfold M_ret;
  cbn [gets modify when throw forEach state_of result_of fst snd
       on_heap on_registry update_this console_log nextTask
       heap currentRunningApp microtasks console activeSandboxCount sandboxes
       set_heap set_currentRunningApp set_microtasks set_console set_activeSandboxCount
       set_sandboxes
       name sandboxRunning latestSetProp updatedValueSet document globalWhitelistPrevDescriptor
       proxy fakeWindow propertiesWithGetter descriptorTargetMap hasOwnProperty_closure
       set_sandboxRunning set_latestSetProp set_updatedValueSet set_document
       set_globalWhitelistPrevDescriptor set_fakeWindow set_descriptorTargetMap
       negb andb orb]).

Lemma this_eq i s w : sandboxes w !! i = Some s → this i w = (Normal s, w).
Proof. intros H. unfold this. by rewrite H. Qed.

Lemma registerRunningApp_running i s w :
  sandboxes w !! i = Some s → sandboxRunning s = true →
  registerRunningApp i w = (Normal (), registered s w).
Proof.
  intros Hs Hr. unfold registerRunningApp, registered, mbind, M_bind, this. rewrite Hs, Hr. simpl.
  destruct (currentRunningApp w) as [app|] eqn:Happ; simpl; [|reflexivity].
  case_bool_decide; reflexivity.
Qed.

Lemma registerRunningApp_stopped i s w :
  sandboxes w !! i = Some s → sandboxRunning s = false →
  registerRunningApp i w = (Normal (), w).
Proof.
  intros Hs Hr. unfold registerRunningApp, mbind, M_bind, this. by rewrite Hs, Hr.
Qed.

Lemma registered_name s w : app_name <$> currentRunningApp (registered s w) = Some (name s).
Proof.
  unfold registered. destruct (currentRunningApp w) as [app|] eqn:Happ; simpl; [|done].
  case_bool_decide; simpl; [by f_equal|done].
Qed.

Lemma registered_sandboxes s w : sandboxes (registered s w) = sandboxes w.
Proof. unfold registered. destruct (currentRunningApp w); [case_bool_decide|]; done. Qed.

Lemma registered_heap s w : heap (registered s w) = heap w.
Proof. unfold registered. destruct (currentRunningApp w); [case_bool_decide|]; done. Qed.

Lemma registered_count s w : activeSandboxCount (registered s w) = activeSandboxCount w.
Proof. unfold registered. destruct (currentRunningApp w); [case_bool_decide|]; done. Qed.

(** *** The running-app registry *)

(** C9, as the code has it.  For a running instance, the [get], [set] and
    [deleteProperty] handlers leave the registry naming this instance, whatever
    their completion; the [has] handler does not touch the registry. *)
Theorem traps_register_running_app env w i s p v :
  sandboxes w !! i = Some s → sandboxRunning s = true →
  app_name <$> currentRunningApp (state_of (get_trap env i p w)) = Some (name s)
  ∧ app_name <$> currentRunningApp (state_of (set_trap env i p v w)) = Some (name s)
  ∧ app_name <$> currentRunningApp (state_of (deleteProperty_trap i p w)) = Some (name s)
  ∧ currentRunningApp (state_of (has_trap env i p w)) = currentRunningApp w.
Proof.
  intros Hs Hr. unfold state_of. repeat split.
  - unfold get_trap. rewrite (bind_eq _ _ _ _ _ (registerRunningApp_running _ _ _ Hs Hr)).
    rewrite <- (registered_name s w).
    match goal with |- _ <$> currentRunningApp (?c _).2 = _ =>
      assert (preserves currentRunningApp c) as -> by preserves_tac end.
    done.
  - unfold set_trap. rewrite (bind_eq _ _ w s w) by (by apply this_eq).
    rewrite Hr. rewrite (bind_eq _ _ _ _ _ (registerRunningApp_running _ _ _ Hs Hr)).
    rewrite <- (registered_name s w).
    match goal with |- _ <$> currentRunningApp (?c _).2 = _ =>
      assert (preserves currentRunningApp c) as ->; [|done] end.
    unfold target_assign, target_define. preserves_tac.
  - unfold deleteProperty_trap.
    rewrite (bind_eq _ _ _ _ _ (registerRunningApp_running _ _ _ Hs Hr)).
    rewrite <- (registered_name s w).
    match goal with |- _ <$> currentRunningApp (?c _).2 = _ =>
      assert (preserves currentRunningApp c) as ->; [|done] end.
    unfold target_delete. preserves_tac.
  - assert (preserves currentRunningApp (has_trap env i p)) as Hp
      by (unfold has_trap; preserves_tac).
    apply Hp.
Qed.

Lemma traps_register_running_app_witness :
  ∃ s, sandboxes (two_sandboxes production) !! 1 = Some s ∧ sandboxRunning s = true
    ∧ app_name <$> currentRunningApp
                     (state_of (get_trap production 1 (KString "x") (two_sandboxes production)))
      = Some (name s)
    ∧ app_name <$> currentRunningApp
                     (state_of (set_trap production 1 (KString "x") (VNumber 2)
                                         (two_sandboxes production)))
      = Some (name s)
    ∧ app_name <$> currentRunningApp
                     (state_of (deleteProperty_trap 1 (KString "x") (two_sandboxes production)))
      = Some (name s)
    ∧ currentRunningApp (state_of (has_trap production 1 (KString "x") (two_sandboxes production)))
      = currentRunningApp (two_sandboxes production).
Proof.
  eexists. split; [by vm_compute|]. split; [reflexivity|].
  apply (traps_register_running_app production (two_sandboxes production) 1);
    [by vm_compute | reflexivity].
Defined.

(** C9, as it is stated, fails for [has]: on a page where nothing is registered,
    a membership test through the proxy of the running instance 0 leaves the
    registry empty. *)
Lemma has_does_not_register :
  (sandboxRunning <$> sandboxes (one_sandbox production) !! 0) = Some true
  ∧ result_of (has_trap production 0 (KString "x") (one_sandbox production)) = Normal true
  ∧ currentRunningApp (state_of (has_trap production 0 (KString "x") (one_sandbox production)))
    = None.
Proof. by vm_compute. Qed.

(** *** The whitelist branch of the [get] handler *)

Lemma get_whitelist_guard_false env p : get_whitelist_guard env p = false.
Proof.
  unfold get_whitelist_guard. case_bool_decide as Hp; [subst p|done].
  unfold in_whitelist, globalVariableWhiteList, variableWhiteListInDev.
  by destruct (inTest env || inDevelopment env || QIANKUN_DEVELOPMENT env).
Qed.

Lemma in_whitelist_cases env p :
  in_whitelist env p = true →
  p = KString "System" ∨ p = KString "__cjsWrapper"
  ∨ p = KString "__REACT_ERROR_OVERLAY_GLOBAL_HOOK__" ∨ p = KString "event".
Proof.
  destruct p as [s|n]; [|done].
  unfold in_whitelist, globalVariableWhiteList, variableWhiteListInDev.
  destruct (inTest env || inDevelopment env || QIANKUN_DEVELOPMENT env); simpl;
    repeat (case_decide; [subst; tauto|]); done.
Qed.

(** C10. The guard of the whitelist branch of the [get] handler is false for
    every key in every environment, and the value the handler returns for a
    whitelisted key is the one of the generic lookup. *)
Theorem whitelist_get_branch_unreachable env :
  (∀ p, get_whitelist_guard env p = false)
  ∧ (∀ s p, in_whitelist env p = true → get_value env s p = get_lookup env s p).
Proof.
  split; [apply get_whitelist_guard_false|].
  intros s p Hp. unfold get_value. rewrite get_whitelist_guard_false.
  destruct (in_whitelist_cases _ _ Hp) as [-> | [-> | [-> | ->]]];
    destruct (inTest env); reflexivity.
Qed.

Lemma whitelist_get_branch_unreachable_witness :
  in_whitelist production (KString "System") = true
  ∧ ∀ s, get_value production s (KString "System") = get_lookup production s (KString "System").
Proof.
  split; [reflexivity|].
  intros s. by apply (proj2 (whitelist_get_branch_unreachable production)).
Defined.

(** *** The fake window *)

Lemma getOwnPropertyNames_elem o s :
  s ∈ getOwnPropertyNames o ↔ is_Some (own o !! KString s).
Proof.
  unfold getOwnPropertyNames. rewrite list_elem_of_fmap. split.
  - intros ([s' pr] & -> & Hin). apply string_keys_elem in Hin. by eexists.
  - intros [pr Hpr]. exists (s, pr). split; [done|]. by apply string_keys_elem.
Qed.

Lemma copy_to_fakeWindow_fresh env host speedy p pr (st : object * gset PropertyKey) :
  own host !! KString p = Some pr →
  own st.1 !! KString p = None → extensible st.1 = true →
  copy_to_fakeWindow env host speedy p st =
    (Normal (),
     (with_own (insert (KString p) (copied env speedy p pr)) st.1,
      if prop_is_accessor pr then {[KString p]} ∪ st.2 else st.2)).
Proof.
  intros Hpr Hfresh Hext. unfold copy_to_fakeWindow, getOwnPropertyDescriptor, copied.
  rewrite Hpr. simpl.
  destruct pr as [v w e c|g s e c], (normalized env speedy p); simpl;
    unfold mbind, M_bind, defineOwnProperty; simpl; rewrite Hfresh, Hext; simpl;
    by destruct st.
Qed.

(** The loop of [createFakeWindow] over names that are distinct and not yet in
    the fake window: it completes, and defines each of them once. *)
Lemma createFakeWindow_loop env host speedy (l : list string) (st : object * gset PropertyKey) :
  NoDup l → (∀ p, p ∈ l → is_Some (own host !! KString p)) →
  (∀ p, p ∈ l → own st.1 !! KString p = None) → extensible st.1 = true →
  ∃ st', forEach l (copy_to_fakeWindow env host speedy) st = (Normal (), st')
    ∧ (∀ p pr, p ∈ l → own host !! KString p = Some pr →
         own st'.1 !! KString p = Some (copied env speedy p pr)
         ∧ (KString p ∈ st'.2 ↔ prop_is_accessor pr = true ∨ KString p ∈ st.2))
    ∧ (∀ q, (∀ p, p ∈ l → q ≠ KString p) →
         own st'.1 !! q = own st.1 !! q ∧ (q ∈ st'.2 ↔ q ∈ st.2))
    ∧ inherited st'.1 = inherited st.1.
Proof.
  intros Hnd. revert st. induction Hnd as [|p l Hp Hnd IH]; intros st Hhost Hfresh Hext.
  - exists st. split; [done|]. split; [by intros ?? ?%elem_of_nil|done].
  - destruct (Hhost p) as [pr Hpr]; [by left|]. simpl.
    rewrite (bind_eq _ _ _ _ _
               (copy_to_fakeWindow_fresh _ _ _ _ _ _ Hpr (Hfresh p ltac:(by left)) Hext)).
    set (st1 := (with_own _ _, _)).
    destruct (IH st1) as (st' & Hrun & Hin & Hout & Hinh).
    + intros q Hq. apply Hhost. by right.
    + intros q Hq. simpl. rewrite lookup_insert_ne; [apply Hfresh; by right|].
      intros [= ->]. done.
    + done.
    + exists st'. split; [done|]. split; [|split].
      * intros q pr' Hq Hpr'. apply elem_of_cons in Hq as [Heq|Hq].
        -- subst q. assert (pr' = pr) as -> by congruence.
           destruct (Hout (KString p)) as [-> Hset]; [intros ? ? [= ->]; done|].
           simpl. rewrite lookup_insert_eq. split; [done|]. rewrite Hset. unfold st1. simpl.
           destruct (prop_is_accessor pr); rewrite ?elem_of_union, ?elem_of_singleton;
             intuition congruence.
        -- destruct (Hin q pr' Hq Hpr') as [-> Hset]. split; [done|]. rewrite Hset.
           unfold st1. simpl. assert (KString q ≠ KString p) by (intros [= ->]; done).
           destruct (prop_is_accessor pr); rewrite ?elem_of_union, ?elem_of_singleton;
             intuition congruence.
      * intros q Hq. destruct (Hout q) as [-> Hset]; [intros r Hr; apply Hq; by right|].
        assert (q ≠ KString p) by (apply Hq; by left).
        simpl. rewrite lookup_insert_ne by done. split; [done|]. rewrite Hset. unfold st1. simpl.
        destruct (prop_is_accessor pr); rewrite ?elem_of_union, ?elem_of_singleton;
          intuition congruence.
      * by rewrite Hinh.
Qed.

(** [createFakeWindow] completes; the fake window holds a copy of each
    string-keyed property of the host object that is not configurable, and
    nothing else; [propertiesWithGetter] holds the accessors among them. *)
Lemma createFakeWindow_spec env host speedy :
  ∃ fw pg, createFakeWindow env host speedy = (Normal (), (fw, pg))
    ∧ (∀ p pr, own host !! KString p = Some pr → prop_configurable pr = false →
         own fw !! KString p = Some (copied env speedy p pr)
         ∧ (KString p ∈ pg ↔ prop_is_accessor pr = true))
    ∧ (∀ q, (∀ p pr, q = KString p → own host !! q = Some pr → prop_configurable pr = true) →
         own fw !! q = None ∧ q ∉ pg)
    ∧ inherited fw = objectPrototype env.
Proof.
  unfold createFakeWindow.
  set (l := filter _ _).
  assert (∀ p, p ∈ l ↔ ∃ pr, own host !! KString p = Some pr ∧ prop_configurable pr = false) as Hl.
  { intros p. unfold l. rewrite list_elem_of_filter, getOwnPropertyNames_elem.
    unfold getOwnPropertyDescriptor. split.
    - intros [Hc [pr Hpr]]. exists pr. split; [done|]. rewrite Hpr in Hc. simpl in Hc.
      destruct pr as [???[]|???[]]; simpl in *; congruence.
    - intros (pr & Hpr & Hc). rewrite Hpr. split; [|by eexists]. simpl.
      destruct pr; simpl in *; subst; done. }
  destruct (createFakeWindow_loop env host speedy l (new_object (objectPrototype env), ∅))
    as ([fw pg] & Hrun & Hin & Hout & Hinh).
  - apply NoDup_filter, string_keys_NoDup.
  - intros p (pr & Hpr & _)%Hl. by eexists.
  - done.
  - done.
  - exists fw, pg. split; [done|]. simpl in *. split; [|split; [|done]].
    + intros p pr Hpr Hc. destruct (Hin p pr) as [-> Hset]; [apply Hl; eauto|done|].
      split; [done|]. rewrite Hset. rewrite elem_of_empty. intuition.
    + intros q Hq. destruct (Hout q) as [-> Hset].
      * intros p (pr & Hpr & Hc)%Hl ->. specialize (Hq p pr eq_refl Hpr). congruence.
      * split; [done|]. rewrite Hset. apply not_elem_of_empty.
Qed.

(** C5, as the code has it.  For a string-keyed property of the host object
    that is not configurable and is none of the names the constructor makes
    configurable ([top], [parent], [self], [window], [document] in speedy mode,
    the mock names in a test run), the descriptor reported through the proxy of
    a newly constructed instance is the descriptor the host object had at
    construction: not configurable, with the same value or accessors. *)
Theorem non_configurable_fidelity env name speedy w (p : string) pr :
  own (globalContext (heap w)) !! KString p = Some pr →
  prop_configurable pr = false →
  normalized env speedy p = false →
  ∃ i w', construct env name speedy w = (Normal i, w')
    ∧ result_of (getOwnPropertyDescriptor_trap i (KString p) w') = Normal (Some (fromProperty pr))
    ∧ d_configurable (fromProperty pr) = Some false.
Proof.
  intros Hpr Hc Hn.
  destruct (createFakeWindow_spec env (globalContext (heap w)) speedy)
    as (fw & pg & Hfw & Hin & _ & _).
  destruct (Hin p pr Hpr Hc) as [Hown _].
  unfold copied in Hown. rewrite Hn in Hown.
  unfold construct, mbind, M_bind, gets. simpl. rewrite Hfw. simpl.
  eexists _, _. split; [reflexivity|]. split; [|by destruct pr; simpl in *; subst].
  unfold getOwnPropertyDescriptor_trap, mbind, M_bind, this. simpl.
  rewrite lookup_insert_eq. simpl.
  unfold hasOwnProperty, getOwnPropertyDescriptor. simpl. by rewrite Hown.
Qed.

Lemma non_configurable_fidelity_witness :
  own (globalContext (heap page_world)) !! KString "fixed" = Some (Data (VNumber 7) true true false)
  ∧ ∃ i w', construct production "A" false page_world = (Normal i, w')
      ∧ result_of (getOwnPropertyDescriptor_trap i (KString "fixed") w')
        = Normal (Some (fromProperty (Data (VNumber 7) true true false)))
      ∧ d_configurable (fromProperty (Data (VNumber 7) true true false)) = Some false.
Proof.
  split; [by vm_compute|].
  apply (non_configurable_fidelity production "A" false page_world "fixed");
    [by vm_compute | reflexivity | reflexivity].
Defined.

(** C5, as it is stated, fails for [window]: the host object holds it as a
    property that is neither configurable nor writable, and the proxy of a newly
    constructed instance reports it as configurable and writable. *)
Lemma window_is_reported_configurable :
  own (globalContext (heap page_world)) !! KString "window"
    = Some (Data (VObject RGlobalContext) false true false)
  ∧ result_of (getOwnPropertyDescriptor_trap 0 (KString "window") (one_sandbox production))
    = Normal (Some (fromProperty (Data (VObject RGlobalContext) true true true))).
Proof. by vm_compute. Qed.

(** *** Isolation of the writes *)

Lemma get_trap_result env i p w s :
  sandboxes w !! i = Some s →
  result_of (get_trap env i p w) = result_of (get_value env s p (heap w)).
Proof.
  intros Hs. unfold get_trap. destruct (sandboxRunning s) eqn:Hr.
  - rewrite (bind_eq _ _ _ _ _ (registerRunningApp_running _ _ _ Hs Hr)).
    rewrite (bind_eq _ _ _ s (registered s w)) by (apply this_eq; by rewrite registered_sandboxes).
    unfold on_heap, result_of. cbn [fst snd]. by rewrite registered_heap.
  - rewrite (bind_eq _ _ _ _ _ (registerRunningApp_stopped _ _ _ Hs Hr)).
    rewrite (bind_eq _ _ _ s w) by (by apply this_eq).
    done.
Qed.

Lemma target_assign_heap env i p v w s :
  sandboxes w !! i = Some s → reaches_setter (fakeWindow s) p = false →
  heap (target_assign env i p v w).2 = heap w.
Proof.
  intros Hs Hset. unfold target_assign. rewrite (bind_eq _ _ _ _ _ (this_eq _ _ _ Hs)).
  destruct (ordinarySet (fakeWindow s) p v) eqn:Hos; [done| |done].
  by apply not_reaches_setter in Hos.
Qed.

(** A write of a key that is not whitelisted and reaches no setter changes
    neither the heap nor another instance. *)
Lemma set_trap_frame env a p v w sa :
  sandboxes w !! a = Some sa →
  in_whitelist env p = false →
  write_reaches_setter (fakeWindow sa) (globalContext (heap w)) p = false →
  heap (state_of (set_trap env a p v w)) = heap w
  ∧ ∀ b, a ≠ b → sandboxes (state_of (set_trap env a p v w)) !! b = sandboxes w !! b.
Proof.
  intros Hs Hwl Hset. unfold state_of, set_trap.
  rewrite (bind_eq _ _ _ _ _ (this_eq _ _ _ Hs)).
  destruct (sandboxRunning sa) eqn:Hr.
  - rewrite (bind_eq _ _ _ _ _ (registerRunningApp_running _ _ _ Hs Hr)). rewrite Hwl.
    assert (sandboxes (registered sa w) !! a = Some sa) as Hs1 by (by rewrite registered_sandboxes).
    split.
    + transitivity (heap (registered sa w)); [|apply registered_heap].
      apply preserves_bind_at; [|intros; preserves_tac].
      rewrite (bind_eq _ _ _ _ _ (this_eq _ _ _ Hs1)).
      unfold mbind at 1, M_bind at 1, gets at 1. cbv beta iota.
      unfold write_reaches_setter in Hset. pose proof (registered_heap sa w) as Hh.
      destruct (negb (hasOwnProperty (fakeWindow sa) p) && _) eqn:Hc; rewrite Hh in Hc.
      * unfold target_define.
        match goal with |- heap (?c _).2 = _ =>
          assert (preserves heap c) as -> by preserves_tac end.
        done.
      * apply target_assign_heap with sa; [done|].
        destruct (hasOwnProperty (fakeWindow sa) p), (hasOwnProperty (globalContext (heap w)) p);
          simpl in *; congruence.
    + intros b Hab.
      transitivity (sandboxes (registered sa w) !! b); [|by rewrite registered_sandboxes].
      match goal with |- sandboxes (?c _).2 !! b = _ =>
        assert (preserves (λ w, sandboxes w !! b) c) as Hp; [|apply Hp] end.
      unfold target_assign, target_define. preserves_tac.
  - split; [|intros b _]; by destruct (inDevelopment env).
Qed.




(** *** Whitelisted writes and their restoration *)

(** A whitelisted write of a running instance records the descriptor the host
    object has at the time of this write, in place of what was recorded for the
    key, and assigns to the host object. *)
Lemma set_trap_whitelisted env i (k : string) v w s :
  sandboxes w !! i = Some s → sandboxRunning s = true →
  in_whitelist env (KString k) = true →
  reaches_setter (globalContext (heap w)) (KString k) = false →
  let w' := state_of (set_trap env i (KString k) v w) in
  heap w' = set_globalContext (assigned (globalContext (heap w)) (KString k) v) (heap w)
  ∧ activeSandboxCount w' = activeSandboxCount w
  ∧ (∀ j, i ≠ j → sandboxes w' !! j = sandboxes w !! j)
  ∧ ∃ s', sandboxes w' !! i = Some s' ∧ sandboxRunning s' = true
      ∧ globalWhitelistPrevDescriptor s' =
          table_set k (getOwnPropertyDescriptor (globalContext (heap w)) (KString k))
                    (globalWhitelistPrevDescriptor s).
Proof.
  intros Hs Hr Hwl Hset. unfold set_trap.
  rewrite (bind_eq _ _ _ _ _ (this_eq _ _ _ Hs)). rewrite Hr.
  rewrite (bind_eq _ _ _ _ _ (registerRunningApp_running _ _ _ Hs Hr)). rewrite Hwl.
  pose proof (registered_heap s w) as Hh. pose proof (registered_sandboxes s w) as Hsb.
  pose proof (registered_count s w) as Hc.
  generalize dependent (registered s w). intros w1 Hh Hsb Hc.
  run. rewrite Hh, Hsb.
  pose proof (global_assign_state env (KString k) v (heap w) Hset) as Hst.
  destruct (global_assign env (KString k) v (heap w)) as [[[]|e] h'] eqn:Hga;
    simpl in Hst; subst h'; run; rewrite Hc.
  - repeat split; try done.
    + intros j Hij. by rewrite !lookup_alter_ne.
    + rewrite !lookup_alter_eq, Hs. simpl. eexists. split; [done|]. by run.
  - repeat split; try done.
    + intros j Hij. by rewrite !lookup_alter_ne.
    + rewrite !lookup_alter_eq, Hs. simpl. eexists. split; [done|]. by run.
Qed.

(** Outside a test run, [inactive] on an instance that is not the last active
    one only lowers the counter and stops the instance. *)
Lemma inactive_not_last env i w s :
  inTest env = false → sandboxes w !! i = Some s → activeSandboxCount w ≠ 1%Z →
  let r := inactive env i w in
  result_of r = Normal ()
  ∧ heap (state_of r) = heap w
  ∧ activeSandboxCount (state_of r) = (activeSandboxCount w - 1)%Z
  ∧ (∀ j, i ≠ j → sandboxes (state_of r) !! j = sandboxes w !! j).
Proof.
  intros Ht Hs Hc. unfold inactive, last_exit.
  rewrite (bind_eq _ _ _ _ _ (this_eq _ _ _ Hs)). rewrite Ht.
  destruct (inDevelopment env); run.
  all: destruct (Z.eqb_spec (activeSandboxCount w - 1) 0) as [Hz|Hz]; [lia|]; run.
  all: repeat split; try done; intros j Hij; by rewrite lookup_alter_ne.
Qed.

(** [inactive] on the last active instance, which recorded one key. *)
Lemma inactive_last env i w s k before :
  inTest env = false → sandboxes w !! i = Some s → activeSandboxCount w = 1%Z →
  globalWhitelistPrevDescriptor s = [(k, fromProperty <$> before)] →
  written_over before (own (globalContext (heap w)) !! KString k) →
  let r := inactive env i w in
  result_of r = Normal ()
  ∧ own (globalContext (heap (state_of r))) !! KString k = before.
Proof.
  intros Ht Hs Hc Hrec Hover. unfold inactive, last_exit.
  rewrite (bind_eq _ _ _ _ _ (this_eq _ _ _ Hs)). rewrite Ht.
  apply restore_recorded in Hover.
  destruct (inDevelopment env); run; rewrite Hc; change (1 - 1 =? 0)%Z with true; run;
    unfold this; run; rewrite Hs; run; rewrite Hrec; cbn [fmap list_fmap fst]; run;
    rewrite Hs; run; rewrite Hrec; cbn [table_get]; rewrite decide_True by done;
    destruct before as [pr|]; cbn [fmap option_fmap option_map mjoin option_join];
    destruct Hover as (host' & Hdef & Hown);
    unfold global_define, global_delete; run; rewrite Hdef; run; done.
Qed.




(** C3 against the code.  On a page without [System], the first write of
    [System] through the only instance records that the host object had no such
    property; the second write replaces the record by the descriptor of the
    value the first write stored; [inactive] then leaves [System] on the host
    object with that value, although the host object had no such property
    before the instance wrote. *)
Theorem second_whitelisted_write_overwrites_record :
  let w0 := one_sandbox production in
  let w1 := state_of (set_trap production 0 (KString "System") (VNumber 1) w0) in
  let w2 := state_of (set_trap production 0 (KString "System") (VNumber 2) w1) in
  let w3 := state_of (inactive production 0 w2) in
  own (globalContext (heap w0)) !! KString "System" = None
  ∧ (globalWhitelistPrevDescriptor <$> sandboxes w1 !! 0) = Some [("System", None)]
  ∧ (globalWhitelistPrevDescriptor <$> sandboxes w2 !! 0)
    = Some [("System", Some (fromProperty (Data (VNumber 1) true true true)))]
  ∧ own (globalContext (heap w2)) !! KString "System" = Some (Data (VNumber 2) true true true)
  ∧ own (globalContext (heap w3)) !! KString "System" = Some (Data (VNumber 1) true true true).
Proof. by vm_compute. Qed.

(** The same record is what the last exit restores when two instances wrote the
    key: the host object keeps the value of the first writer. *)
Lemma last_exit_restores_the_record_of_the_last_writer :
  let w2 :=
    state_of (set_trap production 1 (KString "System") (VNumber 2)
      (state_of (set_trap production 0 (KString "System") (VNumber 1)
                          (two_sandboxes production)))) in
  let w4 := state_of (inactive production 1 (state_of (inactive production 0 w2))) in
  own (globalContext (heap (two_sandboxes production))) !! KString "System" = None
  ∧ activeSandboxCount w4 = 0%Z
  ∧ own (globalContext (heap w4)) !! KString "System" = Some (Data (VNumber 1) true true true).
Proof. by vm_compute. Qed.

End ProxySandboxProperties.

(** ** The diffing sandbox *)

Module LegacySandboxProperties.
Import LegacySandbox.

Ltac run :=
  repeat progress (try unfold mbind; try unfold M_bind; try unfold mret; try unfold M_ret;
  cbn [gets modify when throw forEach state_of result_of fst snd global_get
       on_heap update_this heap self sandboxRunning addedPropsMapInSandbox
       modifiedPropsOriginalValueMapInSandbox currentUpdatedPropsValueMap latestSetProp
       set_sandboxRunning set_latestSetProp set_added set_modified set_current construct
       fresh_legacy table_set table_get table_has negb andb orb
       globalContext set_globalContext own inherited extensible with_own]).

Lemma global_assign_absent env p v h :
  own (globalContext h) !! p = None → reaches_setter (globalContext h) p = false →
  global_assign env p v h
    = (Normal (),
       set_globalContext (with_own (insert p (Data v true true true)) (globalContext h)) h)
  ∨ global_assign env p v h = (Throw TypeError, h).
Proof.
  intros Hown Hset. unfold global_assign.
  destruct (ordinarySet (globalContext h) p v) as [o'|f|] eqn:Hos.
  - left. by apply ordinarySet_own_absent in Hos as ->.
  - by apply not_reaches_setter in Hos.
  - by right.
Qed.

Lemma global_assign_data env p v h v0 wr e c :
  own (globalContext h) !! p = Some (Data v0 wr e c) →
  global_assign env p v h =
    if wr
    then (Normal (),
          set_globalContext (with_own (insert p (Data v wr e c)) (globalContext h)) h)
    else (Throw TypeError, h).
Proof. intros Hown. unfold global_assign, ordinarySet. rewrite Hown. by destruct wr. Qed.

Lemma global_delete_configurable p h pr :
  own (globalContext h) !! p = Some pr → prop_configurable pr = true →
  global_delete p h = (Normal (), set_globalContext (with_own (delete p) (globalContext h)) h).
Proof. intros Hown Hc. unfold global_delete, deleteOwnProperty. by rewrite Hown, Hc. Qed.

Lemma global_delete_absent p h :
  own (globalContext h) !! p = None →
  global_delete p h = (Normal (), set_globalContext (globalContext h) h).
Proof. intros Hown. unfold global_delete, deleteOwnProperty. by rewrite Hown. Qed.

Lemma isPropConfigurable_data o p v w e c :
  own o !! p = Some (Data v w e c) → isPropConfigurable o p = c.
Proof. intros H. unfold isPropConfigurable, getOwnPropertyDescriptor. by rewrite H. Qed.

Lemma setWindowProp_delete env p : setWindowProp env p VUndefined true = global_delete p.
Proof. reflexivity. Qed.

(** [setWindowProp] on a string key that the host object holds as a
    configurable property: the property becomes a writable data property with
    the given value. *)
Lemma setWindowProp_configurable env k v h pr :
  own (globalContext h) !! KString k = Some pr → prop_configurable pr = true →
  setWindowProp env (KString k) v false h =
    (Normal (),
     set_globalContext (with_own (insert (KString k) (rewritten v pr)) (globalContext h)) h).
Proof.
  intros Hown Hc. unfold setWindowProp. rewrite andb_false_r.
  unfold mbind, M_bind, gets, isPropConfigurable, getOwnPropertyDescriptor. rewrite Hown. simpl.
  replace (default false (d_configurable (fromProperty pr))) with true
    by (destruct pr; simpl in *; by subst).
  simpl. unfold global_define, defineOwnProperty. simpl. rewrite Hown. simpl. rewrite Hc. simpl.
  unfold mbind, M_bind. simpl.
  unfold global_assign, ordinarySet. simpl. rewrite lookup_insert_eq.
  destruct pr as [v' w e c|g s e c]; simpl; unfold rewritten, with_own, set_globalContext; simpl;
    by rewrite insert_insert_eq.
Qed.

(** [setWindowProp] on a string key that the host object does not hold. *)
Lemma setWindowProp_absent env k v h :
  own (globalContext h) !! KString k = None → extensible (globalContext h) = true →
  setWindowProp env (KString k) v false h =
    (Normal (), set_globalContext
                  (with_own (insert (KString k) (Data v true false true)) (globalContext h)) h).
Proof.
  intros Hown Hext. unfold setWindowProp. rewrite andb_false_r.
  unfold mbind, M_bind, gets, isPropConfigurable, getOwnPropertyDescriptor. rewrite Hown. simpl.
  unfold global_define, defineOwnProperty. simpl. rewrite Hown, Hext. simpl.
  unfold mbind, M_bind. simpl.
  unfold global_assign, ordinarySet. simpl. rewrite lookup_insert_eq.
  unfold with_own, set_globalContext; simpl. by rewrite insert_insert_eq.
Qed.

(** [setWindowProp] does nothing for a symbol and for a property that cannot
    be configured. *)
Lemma setWindowProp_skip env p v h :
  isPropConfigurable (globalContext h) p = false ∨ (∃ n, p = KSymbol n) →
  setWindowProp env p v false h = (Normal (), h).
Proof.
  intros H. unfold setWindowProp. rewrite andb_false_r. unfold mbind, M_bind, gets.
  destruct H as [->|[n ->]]; [done|]. by rewrite andb_false_r.
Qed.

(** C2, as the code has it.  For a sandbox that has just been constructed (it
    is active): (1) if the host object does not own the key and the write
    reaches no inherited setter, then after the write and [inactive], which
    completes, the host object does not own the key; (2) if the key is a string
    and the host object holds it as a configurable data property with value
    [v0], then after the write and [inactive], which completes, the host object
    holds it as a data property with value [v0] again. *)
Theorem legacy_cycle_restores_host env h name (p : PropertyKey) :
  (∀ v1, own (globalContext h) !! p = None → reaches_setter (globalContext h) p = false →
     let w1 := state_of (set_trap env p v1 (fresh_legacy h name)) in
     let r := inactive env w1 in
     result_of r = Normal () ∧ own (globalContext (heap (state_of r))) !! p = None)
  ∧ (∀ k v0 wr e v2, p = KString k → own (globalContext h) !! p = Some (Data v0 wr e true) →
     let w1 := state_of (set_trap env p v2 (fresh_legacy h name)) in
     let r := inactive env w1 in
     result_of r = Normal ()
     ∧ own (globalContext (heap (state_of r))) !! p = Some (Data v0 true e true)).
Proof.
  split.
  - intros v1 Hown Hset. unfold set_trap, setTrap. run.
    rewrite (hasOwnProperty_false _ _ Hown). run.
    destruct (global_assign_absent env p v1 h Hown Hset) as [-> | ->]; run.
    + unfold inactive. run. rewrite setWindowProp_delete.
      erewrite global_delete_configurable; [|run; apply lookup_insert_eq|done]. run.
      split; [done|]. apply lookup_delete_eq.
    + unfold inactive. run. rewrite setWindowProp_delete.
      rewrite (global_delete_absent _ _ Hown). run. done.
  - intros k v0 wr e v2 -> Hown. unfold set_trap, setTrap. run.
    rewrite (hasOwnProperty_true _ _ _ Hown). run.
    rewrite (readProperty_data _ _ _ _ _ _ _ _ Hown).
    rewrite (global_assign_data _ _ _ _ _ _ _ _ Hown).
    destruct wr; run.
    + unfold inactive. run.
      erewrite setWindowProp_configurable; [|run; apply lookup_insert_eq|done]. run.
      split; [done|]. by rewrite lookup_insert_eq.
    + unfold inactive. run.
      erewrite setWindowProp_configurable; [|run; apply Hown|done]. run.
      split; [done|]. by rewrite lookup_insert_eq.
Qed.

Lemma legacy_cycle_restores_host_witness :
  (own (globalContext page_heap) !! KString "y" = None
   ∧ reaches_setter (globalContext page_heap) (KString "y") = false
   ∧ let w1 := state_of (set_trap production (KString "y") (VNumber 3)
                                  (fresh_legacy page_heap "legacy")) in
     let r := inactive production w1 in
     result_of r = Normal () ∧ own (globalContext (heap (state_of r))) !! KString "y" = None)
  ∧ (own (globalContext page_heap) !! KString "x" = Some (Data (VNumber 1) true true true)
     ∧ let w1 := state_of (set_trap production (KString "x") (VNumber 3)
                                    (fresh_legacy page_heap "legacy")) in
       let r := inactive production w1 in
       result_of r = Normal ()
       ∧ own (globalContext (heap (state_of r))) !! KString "x"
         = Some (Data (VNumber 1) true true true)).
Proof.
  split.
  - split; [by vm_compute|]. split; [by vm_compute|].
    apply (proj1 (legacy_cycle_restores_host production page_heap "legacy" (KString "y")));
      by vm_compute.
  - split; [by vm_compute|].
    apply (proj2 (legacy_cycle_restores_host production page_heap "legacy" (KString "x"))
             "x" (VNumber 1) true true (VNumber 3));
      [reflexivity | by vm_compute].
Defined.

(** C2, as it is stated, fails for the second case on two kinds of keys:
    [inactive] leaves the value written through the proxy on the host object
    when the key is a symbol and when the property cannot be configured. *)
Lemma legacy_cycle_keeps_symbols_and_fixed_properties :
  (own (globalContext page_heap) !! KSymbol 7 = Some (Data (VNumber 0) true true true)
   ∧ let w1 := state_of (set_trap production (KSymbol 7) (VNumber 3)
                                  (fresh_legacy page_heap "legacy")) in
     let r := inactive production w1 in
     result_of r = Normal ()
     ∧ own (globalContext (heap (state_of r))) !! KSymbol 7
       = Some (Data (VNumber 3) true true true))
  ∧ (own (globalContext page_heap) !! KString "fixed" = Some (Data (VNumber 7) true true false)
     ∧ let w1 := state_of (set_trap production (KString "fixed") (VNumber 3)
                                    (fresh_legacy page_heap "legacy")) in
       let r := inactive production w1 in
       result_of r = Normal ()
       ∧ own (globalContext (heap (state_of r))) !! KString "fixed"
         = Some (Data (VNumber 3) true true false)).
Proof. by vm_compute. Qed.

(** C8, as the code has it.  For a sandbox that has just been constructed and
    a string key whose assignment the host object itself stores (no setter, no
    rejection): the write, [inactive] and the second [active] all complete, and
    afterwards the host object holds the key as a data property with the
    written value. *)
Theorem legacy_reactivation_reapplies env h name (k : string) v1 :
  accepts_write (globalContext h) (KString k) = true →
  let w1 := set_trap env (KString k) v1 (fresh_legacy h name) in
  let w2 := inactive env (state_of w1) in
  let w3 := active env (state_of w2) in
  result_of w1 = Normal true ∧ result_of w2 = Normal () ∧ result_of w3 = Normal ()
  ∧ ∃ wr e c, own (globalContext (heap (state_of w3))) !! KString k = Some (Data v1 wr e c).
Proof.
  intros [(Hown & Hext & Hset & Hos)|(v0 & e & c & Hown)]%accepts_write_cases.
  - unfold set_trap, setTrap. run.
    rewrite (hasOwnProperty_false _ _ Hown). run.
    unfold global_assign. rewrite Hos. run.
    unfold inactive. run. rewrite setWindowProp_delete.
    erewrite global_delete_configurable; [|run; apply lookup_insert_eq|done]. run.
    unfold active. run.
    erewrite setWindowProp_absent; [|run; apply lookup_delete_eq|done]. run.
    repeat split; try done. rewrite lookup_insert_eq. eauto.
  - unfold set_trap, setTrap. run.
    rewrite (hasOwnProperty_true _ _ _ Hown). run.
    rewrite (readProperty_data _ _ _ _ _ _ _ _ Hown).
    rewrite (global_assign_data _ _ _ _ _ _ _ _ Hown). run.
    unfold inactive. run.
    destruct c.
    + erewrite setWindowProp_configurable; [|run; apply lookup_insert_eq|done]. run.
      unfold active. run.
      erewrite setWindowProp_configurable; [|run; apply lookup_insert_eq|done]. run.
      repeat split; try done. rewrite lookup_insert_eq. unfold rewritten. eauto.
    + rewrite setWindowProp_skip by
        (left; run; erewrite isPropConfigurable_data; [done|run; apply lookup_insert_eq]).
      run. unfold active. run.
      rewrite setWindowProp_skip by
        (left; run; erewrite isPropConfigurable_data; [done|run; apply lookup_insert_eq]).
      run. repeat split; try done. rewrite lookup_insert_eq. eauto.
Qed.

Lemma legacy_reactivation_reapplies_witness :
  accepts_write (globalContext page_heap) (KString "y") = true
  ∧ (let w1 := set_trap production (KString "y") (VNumber 3) (fresh_legacy page_heap "legacy") in
     let w2 := inactive production (state_of w1) in
     let w3 := active production (state_of w2) in
     result_of w1 = Normal true ∧ result_of w2 = Normal () ∧ result_of w3 = Normal ()
     ∧ ∃ wr e c, own (globalContext (heap (state_of w3))) !! KString "y"
                 = Some (Data (VNumber 3) wr e c)).
Proof.
  split; [by vm_compute|].
  apply (legacy_reactivation_reapplies production page_heap "legacy" "y" (VNumber 3)).
  by vm_compute.
Defined.

(** C8, as it is stated, fails for a symbol: the key written during the first
    activation is removed by [inactive] and the second [active] does not put it
    back. *)
Lemma legacy_reactivation_skips_symbols :
  let w1 := set_trap production (KSymbol 9) (VNumber 3) (fresh_legacy page_heap "legacy") in
  let w2 := inactive production (state_of w1) in
  let w3 := active production (state_of w2) in
  result_of w1 = Normal true ∧ result_of w2 = Normal () ∧ result_of w3 = Normal ()
  ∧ own (globalContext (heap (state_of w1))) !! KSymbol 9 = Some (Data (VNumber 3) true true true)
  ∧ sandboxRunning (self (state_of w3)) = true
  ∧ own (globalContext (heap (state_of w3))) !! KSymbol 9 = None
  ∧ result_of (get_trap production (KSymbol 9) (state_of w3)) = Normal VUndefined.
Proof. by vm_compute. Qed.

End LegacySandboxProperties.

(** ** Writes while a sandbox is not running *)



(** * Further properties of the code *)

(** ** Tables *)

Section tables.
Context {K A : Type} `{EqDecision K}.
Implicit Types (l : list (K * A)) (k : K) (v : A).

Lemma table_get_set_eq k v l : table_get k (table_set k v l) = Some v.
Proof.
  induction l as [|[k' v'] l IH]; simpl.
  - by rewrite decide_True.
  - case_decide as Hk; simpl; [by rewrite decide_True|]. by rewrite decide_False.
Qed.

Lemma table_get_set_ne k k' v l : k ≠ k' → table_get k' (table_set k v l) = table_get k' l.
Proof.
  intros Hne. induction l as [|[k1 v1] l IH]; simpl.
  - by rewrite decide_False.
  - case_decide as Hk; simpl.
    + subst k1. by rewrite !decide_False.
    + case_decide; [done|]. apply IH.
Qed.

Lemma table_set_keys k v l x :
  x ∈ (table_set k v l).*1 ↔ x = k ∨ x ∈ l.*1.
Proof.
  induction l as [|[k1 v1] l IH]; simpl.
  - rewrite list_elem_of_singleton, elem_of_nil. tauto.
  - case_decide as Hk; simpl.
    + subst k1. rewrite !elem_of_cons. tauto.
    + rewrite !elem_of_cons, IH. tauto.
Qed.

Lemma table_set_NoDup k v l : NoDup l.*1 → NoDup (table_set k v l).*1.
Proof.
  induction l as [|[k1 v1] l IH]; simpl; intros Hnd.
  - apply NoDup_singleton.
  - apply NoDup_cons in Hnd as [Hk1 Hnd]. case_decide as Hk; simpl.
    + subst k1. by apply NoDup_cons.
    + apply NoDup_cons. split; [|by apply IH]. rewrite table_set_keys. intros [->|?]; done.
Qed.

Lemma table_get_None k l : table_get k l = None ↔ k ∉ l.*1.
Proof.
  induction l as [|[k1 v1] l IH]; simpl.
  - split; [intros _; apply not_elem_of_nil|done].
  - rewrite not_elem_of_cons. case_decide as Hk.
    + subst k1. split; [done|]. intros [? _]. done.
    + rewrite IH. split; [intros ?; split; [congruence|done]|tauto].
Qed.

Lemma table_get_elem k v l : NoDup l.*1 → (k, v) ∈ l → table_get k l = Some v.
Proof.
  induction l as [|[k1 v1] l IH]; simpl; intros Hnd Hin.
  - by apply elem_of_nil in Hin.
  - apply NoDup_cons in Hnd as [Hk1 Hnd]. apply elem_of_cons in Hin as [[= -> ->]|Hin].
    + by rewrite decide_True.
    + rewrite decide_False; [by apply IH|]. intros ->. apply Hk1.
      apply list_elem_of_fmap. by exists (k, v).
Qed.

Lemma table_has_get k l : table_has k l = bool_decide (is_Some (table_get k l)).
Proof.
  unfold table_has. destruct (table_get k l).
  - by rewrite bool_decide_true by eauto.
  - by rewrite bool_decide_false by (by intros [??]).
Qed.

End tables.

(** ** Frames

    Relations between the state a computation starts from and the state it
    ends in. *)

Lemma respects_ret {S A} (R : relation S) (a : A) :
  Reflexive R → respects R (mret a : M S A).
Proof. intros HR s. simpl. reflexivity. Qed.

Lemma respects_gets {S A} (R : relation S) (f : S → A) :
  Reflexive R → respects R (gets f).
Proof. intros HR s. simpl. reflexivity. Qed.

Lemma respects_bind {S A B} (R : relation S) (m : M S A) (f : A → M S B) :
  Transitive R → respects R m → (∀ a, respects R (f a)) → respects R (m ≫= f).
Proof.
  intros HT Hm Hf s. unfold mbind, M_bind. specialize (Hm s).
  destruct (m s) as [[a|e] s1]; simpl in *; [|done].
  etransitivity; [exact Hm|apply Hf].
Qed.

Lemma respects_when {S} (R : relation S) b (c : M S unit) :
  Reflexive R → respects R c → respects R (when b c).
Proof. intros HR Hc. destruct b; [done|by apply respects_ret]. Qed.

#[local] Instance keeps_but_refl b : Reflexive (keeps_but b).
Proof. intros h. unfold keeps_but. auto 10. Qed.

#[local] Instance keeps_but_trans b : Transitive (keeps_but b).
Proof.
  intros h1 h2 h3 (Hn & Hg & Hp & Hb & Hc & Hf) (Hn' & Hg' & Hp' & Hb' & Hc' & Hf').
  unfold keeps_but. repeat split; try congruence; [lia|].
  intros m Hm Hmb. rewrite Hf' by (done || lia). by apply Hf.
Qed.

Lemma function_define_keeps b p d : respects (keeps_but b) (function_define b p d).
Proof.
  intros h. unfold function_define. destruct (defineOwnProperty _ _ _); simpl; [|reflexivity].
  unfold keeps_but. simpl. repeat split; try done. intros m _ Hm. by rewrite lookup_insert_ne.
Qed.

Lemma new_function_keeps b o : respects (keeps_but b) (new_function o).
Proof.
  intros h. unfold new_function, keeps_but. simpl. repeat split; try done; [lia|].
  intros m Hm _. rewrite lookup_insert_ne; [done|lia].
Qed.

Lemma copy_prototype_keeps env n b : respects (keeps_but b) (copy_prototype env n b).
Proof.
  unfold copy_prototype. apply respects_bind; [apply _|apply respects_gets; apply _|].
  intros hasProto. apply respects_when; [apply _|].
  apply respects_bind; [apply _|apply respects_gets; apply _|].
  intros proto. apply function_define_keeps.
Qed.

Lemma keep_toString_keeps env n b : respects (keeps_but b) (keep_toString env n b).
Proof.
  unfold keep_toString. apply respects_bind; [apply _|apply respects_gets; apply _|].
  intros v. apply respects_when; [apply _|].
  apply respects_bind; [apply _|apply respects_gets; apply _|]. intros a.
  apply respects_bind; [apply _|apply respects_gets; apply _|]. intros bts.
  apply respects_bind; [apply _|apply respects_gets; apply _|]. intros pts.
  apply respects_when; [apply _|].
  apply respects_bind; [apply _|apply respects_gets; apply _|]. intros d.
  destruct (truthy _); [apply function_define_keeps|].
  apply respects_bind; [apply _|apply respects_gets; apply _|]. intros h.
  apply respects_bind; [apply _|apply new_function_keeps|]. intros c.
  apply function_define_keeps.
Qed.

(** ** The native value binding layer: the first application *)

Lemma getTargetValue_ineligible env target v h :
  eligible env v = false → getTargetValue env target v h = (Normal v, h).
Proof. intros He. unfold getTargetValue. by rewrite He. Qed.

(** The first application of the layer to an eligible callable, without
    enumerable fields and without a [toString] of its own, that is not yet in
    the cache: the result is a new function bound to the given target, it is
    put in the cache, and the host object and the callable itself stay as they
    are.  Every later application, with whatever target, returns this same
    function, which is still bound to the first target. *)
Theorem first_application_binds_to_the_target env target n h :
  eligible env (VFunction n) = true →
  functionBoundedValueMap h !! n = None →
  n < nextFunction h →
  for_in_keys (function_object h n) = [] →
  own (function_object h n) !! KString "toString" = None →
  (∀ g s e c, own (functionPrototype h) !! KString "toString" ≠ Some (Accessor g s e c)) →
  let b := nextFunction h in
  ∃ h', getTargetValue env target (VFunction n) h = (Normal (VFunction b), h')
    ∧ boundFunctions h' !! b = Some (VFunction n, target)
    ∧ functionBoundedValueMap h' !! n = Some (VFunction b)
    ∧ globalContext h' = globalContext h
    ∧ functions h' !! n = functions h !! n
    ∧ ∀ target', getTargetValue env target' (VFunction n) h' = (Normal (VFunction b), h').
Proof.
  intros He Hcache Hn Hkeys Hown Hproto b.
  destruct (getTargetValue_returns env target n h He Hcache ltac:(lia) Hkeys Hown Hproto)
    as [h' Hret].
  exists h'. split; [done|].
  revert Hret. unfold getTargetValue. rewrite He. unfold cachedBoundFunction. run_heap.
  rewrite Hcache. simpl. run_heap. fold b.
  set (h1 := set_boundFunction _ _ _ _).
  unfold copy_fields. run_heap.
  assert (function_object h1 n = function_object h n) as ->.
  { unfold h1, function_object, function_view. simpl. rewrite lookup_insert_ne; [done|].
    unfold b. lia. }
  rewrite Hkeys. run_heap.
  pose proof (copy_prototype_keeps env n b h1) as Hk1.
  destruct (copy_prototype env n b h1) as [[[]|e1] h2]; [|done].
  pose proof (keep_toString_keeps env n b h2) as Hk2.
  destruct (keep_toString env n b h2) as [[[]|e2] h3]; [|done].
  simpl in Hk1, Hk2. intros [= <-].
  assert (keeps_but b h1 h3) as (Hnf & Hg & Hp & Hb & Hc & Hf) by (by etransitivity).
  split; [|split; [|split; [|split]]].
  - simpl. rewrite Hb. unfold h1. simpl. apply lookup_insert_eq.
  - simpl. apply lookup_insert_eq.
  - simpl. by rewrite Hg.
  - simpl. rewrite Hf; [|unfold h1, b; simpl; lia|unfold b; lia].
    unfold h1. simpl. rewrite lookup_insert_ne; [done|]. unfold b. lia.
  - intros target'. run_heap. simpl. by rewrite lookup_insert_eq.
Qed.

Lemma first_application_binds_to_the_target_witness :
  ∃ h', getTargetValue production (nativeGlobal production) (VFunction 5) page_heap
        = (Normal (VFunction 200), h')
    ∧ boundFunctions h' !! 200 = Some (VFunction 5, nativeGlobal production)
    ∧ functionBoundedValueMap h' !! 5 = Some (VFunction 200)
    ∧ globalContext h' = globalContext page_heap
    ∧ functions h' !! 5 = functions page_heap !! 5
    ∧ ∀ target', getTargetValue production target' (VFunction 5) h' = (Normal (VFunction 200), h').
Proof.
  apply (first_application_binds_to_the_target production (nativeGlobal production) 5 page_heap);
    [reflexivity | by vm_compute | simpl; lia | by vm_compute | by vm_compute | by vm_compute].
Defined.

#[local] Instance keeps_own_refl b q : Reflexive (keeps_own b q).
Proof. intros h. unfold keeps_own. split; [reflexivity|done]. Qed.

#[local] Instance keeps_own_trans b q : Transitive (keeps_own b q).
Proof.
  intros h1 h2 h3 [Hk Hrest] [Hk' Hrest']. unfold keeps_own.
  split; [by etransitivity|]. intros Hb.
  destruct Hrest as (Hi & He & Ho); [done|].
  destruct Hrest' as (Hi' & He' & Ho'); [destruct Hk as [Hn _]; lia|].
  split; [congruence|]. split; [congruence|].
  intros q' Hq. rewrite Ho' by done. by apply Ho.
Qed.

Lemma function_define_keeps_own b q d : respects (keeps_own b q) (function_define b q d).
Proof.
  intros h. unfold keeps_own. split; [apply function_define_keeps|]. intros Hb.
  unfold function_define, defineOwnProperty.
  destruct (well_formed_descriptor d); simpl; [|done].
  destruct (validateAndApply _ _ _); simpl; [|done].
  rewrite function_object_set_function, decide_True by done. simpl.
  split; [done|]. split; [done|]. intros q' Hq. by rewrite lookup_insert_ne.
Qed.

Lemma new_function_keeps_own b q o : respects (keeps_own b q) (new_function o).
Proof.
  intros h. unfold keeps_own. split; [apply new_function_keeps|]. intros Hb.
  unfold new_function. simpl.
  rewrite function_object_new_function by lia. done.
Qed.

Lemma keep_toString_keeps_own env n b :
  respects (keeps_own b (KString "toString")) (keep_toString env n b).
Proof.
  unfold keep_toString. apply respects_bind; [apply _|apply respects_gets; apply _|].
  intros v. apply respects_when; [apply _|].
  apply respects_bind; [apply _|apply respects_gets; apply _|]. intros a.
  apply respects_bind; [apply _|apply respects_gets; apply _|]. intros bts.
  apply respects_bind; [apply _|apply respects_gets; apply _|]. intros pts.
  apply respects_when; [apply _|].
  apply respects_bind; [apply _|apply respects_gets; apply _|]. intros d.
  destruct (truthy _); [apply function_define_keeps_own|].
  apply respects_bind; [apply _|apply respects_gets; apply _|]. intros h.
  apply respects_bind; [apply _|apply new_function_keeps_own|]. intros c.
  apply function_define_keeps_own.
Qed.

Lemma with_fields_frame ob fields :
  inherited (with_fields ob fields) = inherited ob
  ∧ extensible (with_fields ob fields) = extensible ob
  ∧ ∀ q, q ∉ (KString <$> fields.*1) → own (with_fields ob fields) !! q = own ob !! q.
Proof.
  revert ob. induction fields as [|[k v] l IH]; intros ob; [done|].
  simpl. destruct (IH (with_own (insert (KString k) (Data v true true true)) ob))
    as (Hi & He & Ho).
  split; [done|]. split; [done|]. intros q Hq. apply not_elem_of_cons in Hq as [Hqk Hq].
  rewrite Ho by done. simpl. by rewrite lookup_insert_ne.
Qed.

(** A field that is given once, or always with the same value, ends with it. *)
Lemma with_fields_lookup ob fields (val : string → value) k :
  (∀ k' v, (k', v) ∈ fields → v = val k') →
  k ∈ fields.*1 →
  own (with_fields ob fields) !! KString k = Some (Data (val k) true true true).
Proof.
  revert ob. induction fields as [|[k0 v0] l IH]; intros ob Hval Hk; simpl in *.
  - by apply elem_of_nil in Hk.
  - destruct (decide (k ∈ l.*1)) as [Hin|Hin].
    + apply IH; [|done]. intros k' v Hin'. apply Hval. by right.
    + apply elem_of_cons in Hk as [->|Hk]; [|done].
      destruct (with_fields_frame (with_own (insert (KString k0) (Data v0 true true true)) ob) l)
        as (_ & _ & Ho).
      rewrite Ho.
      * simpl. rewrite lookup_insert_eq. by rewrite (Hval k0 v0) by (by left).
      * intros Hc. apply Hin. apply list_elem_of_fmap in Hc as (k' & [= <-] & Hk'). done.
Qed.

Lemma set_function_set_function b o o' h :
  set_function b o' (set_function b o h) = set_function b o' h.
Proof. unfold set_function. simpl. by rewrite insert_insert_eq. Qed.

Lemma set_function_id b o h : functions h !! b = Some o → set_function b o h = h.
Proof. intros H. destruct h. unfold set_function. simpl in *. by rewrite insert_id. Qed.

(** The [for ... in] loop of the layer, for keys that the wrapper takes as
    plain fields. *)
Lemma copy_fields_loop env n b keys h ob :
  n ≠ b → functions h !! b = Some ob → extensible ob = true →
  (∀ k, k ∈ keys →
     (own ob !! KString k = None ∨ ∃ x, own ob !! KString k = Some (Data x true true true))
     ∧ match inherited ob !! KString k with
       | Some (Data _ true _ _) | None => True
       | _ => False
       end) →
  forEach keys (λ key, v ← function_get env n (KString key);
                       function_assign env b (KString key) v) h
  = (Normal (),
     set_function b
       (with_fields ob
          ((λ k, (k, readProperty env (globalContext h) (function_object h n) (KString k)))
             <$> keys)) h).
Proof.
  intros Hnb. revert h ob. induction keys as [|k keys IH]; intros h ob Hob Hext Hkeys.
  - simpl. by rewrite set_function_id.
  - simpl. run_heap.
    set (v := readProperty env (globalContext h) (function_object h n) (KString k)).
    assert (function_object h b = ob) as Hfb.
    { unfold function_object. by rewrite Hob. }
    assert (ordinarySet ob (KString k) v
            = SetOwn (with_own (insert (KString k) (Data v true true true)) ob)) as Hos.
    { destruct (Hkeys k) as [Hown Hinh]; [by left|]. unfold ordinarySet.
      destruct Hown as [->|[x ->]]; [|done].
      destruct (inherited ob !! KString k) as [[? [] ? ?|]|]; try done; by rewrite Hext. }
    unfold function_assign. rewrite Hfb, Hos.
    set (ob1 := with_own _ ob). set (h1 := set_function b ob1 h).
    etransitivity; [apply (IH h1 ob1)|].
    4: { unfold h1. rewrite set_function_set_function. simpl.
         by rewrite function_object_set_function, decide_False by done. }
    + unfold h1. simpl. apply lookup_insert_eq.
    + done.
    + intros k' Hk'. destruct (Hkeys k') as [Hown Hinh]; [by right|]. split; [|done].
      unfold ob1. simpl. destruct (decide (k = k')) as [->|Hne].
      * rewrite lookup_insert_eq. eauto.
      * rewrite lookup_insert_ne by congruence. done.
Qed.

Lemma copy_prototype_outcome env n b h :
  own (function_object h b) !! KString "prototype" = None →
  extensible (function_object h b) = true →
  copy_prototype env n b h
  = (Normal (),
     if hasOwnProperty (function_object h n) (KString "prototype")
     then set_function b
            (with_own (insert (KString "prototype")
                         (Data (readProperty env (globalContext h) (function_object h n)
                                  (KString "prototype")) true false false))
                      (function_object h b)) h
     else h).
Proof.
  intros Hown Hext. unfold copy_prototype. run_heap.
  rewrite (hasOwnProperty_false _ _ Hown). simpl. rewrite andb_true_r.
  destruct (hasOwnProperty (function_object h n) (KString "prototype")); run_heap; [|done].
  unfold function_define, defineOwnProperty. simpl. by rewrite Hown, Hext.
Qed.



(** ** The multiplexed sandbox: its handlers and its life cycle *)

Module ProxySandboxBehaviour.
Import ProxySandbox ProxySandboxProperties.

Lemma get_value_lookup env s p :
  intercepted env p = false → get_value env s p = get_lookup env s p.
Proof.
  unfold intercepted, get_value. intros H.
  rewrite get_whitelist_guard_false.
  repeat (apply orb_false_iff in H as [H ?]).
  repeat match goal with H : bool_decide _ = false |- _ => rewrite H; clear H end.
  destruct (inTest env); simpl in *.
  - repeat match goal with H : _ || _ = false |- _ => apply orb_false_iff in H as [H ?] end.
    repeat match goal with H : bool_decide _ = false |- _ => rewrite H; clear H end. done.
  - done.
Qed.

Lemma get_lookup_own_data env s p v wr e c h :
  p ∉ propertiesWithGetter s →
  own (fakeWindow s) !! p = Some (Data v wr e c) →
  eligible env v = false →
  get_lookup env s p h = (Normal v, h).
Proof.
  intros Hg Hown He. unfold get_lookup. run.
  rewrite bool_decide_false by done. unfold hasProperty.
  rewrite (hasOwnProperty_true _ _ _ Hown). simpl.
  rewrite (readProperty_data _ _ _ _ _ _ _ _ Hown).
  destruct (isPropertyFrozen env _ _); [done|].
  by apply getTargetValue_ineligible.
Qed.

Lemma target_define_ok i p d w s o' :
  sandboxes w !! i = Some s → defineOwnProperty (fakeWindow s) p d = Some o' →
  target_define i p d w = (Normal (), set_sandboxes (alter (set_fakeWindow o') i (sandboxes w)) w).
Proof.
  intros Hs Hd. unfold target_define. rewrite (bind_eq _ _ _ _ _ (this_eq _ _ _ Hs)).
  by rewrite Hd.
Qed.

Lemma target_assign_ok env i p v w s o' :
  sandboxes w !! i = Some s → ordinarySet (fakeWindow s) p v = SetOwn o' →
  target_assign env i p v w
  = (Normal (), set_sandboxes (alter (set_fakeWindow o') i (sandboxes w)) w).
Proof.
  intros Hs Hd. unfold target_assign. rewrite (bind_eq _ _ _ _ _ (this_eq _ _ _ Hs)).
  by rewrite Hd.
Qed.

(** What a kept write makes of the fake window. *)
Lemma write_is_kept_window env i p v w s :
  sandboxes w !! i = Some s →
  write_is_kept (fakeWindow s) (globalContext (heap w)) p = true →
  (if negb (hasOwnProperty (fakeWindow s) p) && hasOwnProperty (globalContext (heap w)) p
   then
     match getOwnPropertyDescriptor (globalContext (heap w)) p with
     | Some descriptor =>
         when (default false (d_writable descriptor)
               || truthy (default VUndefined (d_set descriptor)))
           (target_define i p
              {| d_value := Some v; d_writable := Some true; d_get := None; d_set := None;
                 d_enumerable := d_enumerable descriptor;
                 d_configurable := d_configurable descriptor |})
     | None => throw TypeError
     end
   else target_assign env i p v) w
  = (Normal (),
     set_sandboxes
       (alter (set_fakeWindow
                 (with_own (insert p (kept_property (fakeWindow s) (globalContext (heap w)) p v))
                           (fakeWindow s))) i
              (sandboxes w)) w).
Proof.
  intros Hs. unfold write_is_kept, getOwnPropertyDescriptor, kept_property.
  destruct (negb _ && _) eqn:Hc.
  - apply andb_true_iff in Hc as [Hfw _]. apply negb_true_iff in Hfw.
    unfold hasOwnProperty in Hfw. apply bool_decide_eq_false in Hfw.
    assert (own (fakeWindow s) !! p = None) as Hnone.
    { destruct (own (fakeWindow s) !! p) eqn:E; [|done]. destruct Hfw. eauto. }
    rewrite Hnone.
    destruct (own (globalContext (heap w)) !! p) as [pr|]; [|done].
    intros [Ho Hext]%andb_true_iff. simpl.
    assert (default false (d_writable (fromProperty pr))
            || truthy (default VUndefined (d_set (fromProperty pr))) = true) as ->.
    { destruct pr; simpl in *; [by rewrite Ho|done]. }
    simpl. erewrite target_define_ok; [done..|].
    unfold defineOwnProperty. simpl. rewrite Hnone, Hext. simpl.
    unfold create_property. simpl. by destruct pr.
  - intros Ha. apply accepts_write_cases in Ha as [(Hnone & Hext & Hset & Hos)|(v0 & e & c & Hown)].
    + rewrite Hnone.
      rewrite (hasOwnProperty_false _ _ Hnone) in Hc. simpl in Hc.
      unfold hasOwnProperty in Hc. apply bool_decide_eq_false in Hc.
      destruct (own (globalContext (heap w)) !! p) eqn:E; [destruct Hc; eauto|].
      by erewrite target_assign_ok.
    + rewrite Hown. erewrite target_assign_ok; [done..|].
      unfold ordinarySet. by rewrite Hown.
Qed.

(** The sandbox a kept write leaves. *)
Lemma set_trap_kept env i p v w s :
  sandboxes w !! i = Some s → sandboxRunning s = true →
  in_whitelist env p = false →
  write_is_kept (fakeWindow s) (globalContext (heap w)) p = true →
  ∃ w',
    set_trap env i p v w = (Normal true, w')
    ∧ heap w' = heap w
    ∧ activeSandboxCount w' = activeSandboxCount w
    ∧ (∀ j, i ≠ j → sandboxes w' !! j = sandboxes w !! j)
    ∧ sandboxes w' !! i =
        Some (set_latestSetProp (Some p)
               (set_updatedValueSet ({[p]} ∪ updatedValueSet s)
                  (set_fakeWindow
                     (with_own (insert p (kept_property (fakeWindow s) (globalContext (heap w)) p v))
                               (fakeWindow s)) s))).
Proof.
  intros Hs Hr Hwl Hkept. unfold set_trap.
  rewrite (bind_eq _ _ _ _ _ (this_eq _ _ _ Hs)). rewrite Hr.
  rewrite (bind_eq _ _ _ _ _ (registerRunningApp_running _ _ _ Hs Hr)). rewrite Hwl.
  pose proof (registered_heap s w) as Hh. pose proof (registered_sandboxes s w) as Hsb.
  pose proof (registered_count s w) as Hc.
  generalize dependent (registered s w). intros w1 Hh Hsb Hc.
  assert (sandboxes w1 !! i = Some s) as Hs1 by (by rewrite Hsb).
  rewrite <- Hh in Hkept.
  pose proof (write_is_kept_window env i p v w1 s Hs1 Hkept) as Hmid.
  unfold this. run. rewrite Hs1. run. rewrite Hmid. run. rewrite Hh.
  eexists. split; [reflexivity|]. run.
  repeat split; try done.
  - intros j Hij. by rewrite !lookup_alter_ne, Hsb.
  - by rewrite !lookup_alter_eq, Hs1.
Qed.

Lemma kept_property_data target host p v :
  ∃ e c, kept_property target host p v = Data v true e c.
Proof.
  unfold kept_property. destruct (own target !! p), (own host !! p); eauto.
Qed.

(** *** Writes and reads through one proxy *)





(** *** Deleting through the proxy *)



(** What the [get] handler answers depends on the fake window, the getter
    table and the objects the instance hands out, not on its bookkeeping. *)
Lemma get_value_ext env s s' p :
  proxy s' = proxy s → document s' = document s →
  hasOwnProperty_closure s' = hasOwnProperty_closure s →
  fakeWindow s' = fakeWindow s → propertiesWithGetter s' = propertiesWithGetter s →
  get_value env s' p = get_value env s p.
Proof.
  intros H1 H2 H3 H4 H5. unfold get_value, get_lookup. by rewrite H1, H2, H3, H4, H5.
Qed.

Lemma with_own_delete_insert o p pr :
  own o !! p = None → with_own (delete p) (with_own (insert p pr) o) = o.
Proof.
  intros H. destruct o as [m inh ext]. unfold with_own. simpl in *.
  by rewrite delete_insert_id.
Qed.



(** *** The keys the proxy answers itself *)

Lemma preserves_update_this_field {X} (g : t → X) i j f :
  (∀ s, g (f s) = g s) → preserves (λ w, g <$> sandboxes w !! i) (update_this j f).
Proof.
  intros H w. simpl. destruct (decide (j = i)) as [->|Hne].
  - rewrite lookup_alter_eq. destruct (sandboxes w !! i); simpl; by rewrite ?H.
  - by rewrite lookup_alter_ne.
Qed.

Ltac field_tac :=
  repeat first [ apply preserves_update_this_field; intros; reflexivity | preserves_step ].

Lemma set_trap_proxy env j q v i : preserves (λ w, proxy <$> sandboxes w !! i) (set_trap env j q v).
Proof. unfold set_trap, registerRunningApp, target_assign, target_define. field_tac. Qed.



(** *** [top] and [parent] *)

(** [top] and [parent] read as the proxy when the host object is its own
    parent; otherwise as the value the host object has for them, as it is. *)
Theorem top_and_parent_follow_the_frame env w i s p :
  sandboxes w !! i = Some s →
  p = KString "top" ∨ p = KString "parent" →
  let host := globalContext (heap w) in
  (readProperty env host host (KString "parent") = VObject RGlobalContext →
     result_of (get_trap env i p w) = result_of (get_trap env i (KString "window") w)
     ∧ result_of (get_trap env i p w) = Normal (proxy s))
  ∧ (readProperty env host host (KString "parent") ≠ VObject RGlobalContext →
     result_of (get_trap env i p w) = Normal (readProperty env host host p)).
Proof.
  intros Hs Hp host.
  rewrite (get_trap_result env i p w s Hs), (get_trap_result env i _ w s Hs).
  assert (get_value env s p (heap w)
          = (Normal (if bool_decide (VObject RGlobalContext
                                     = readProperty env host host (KString "parent"))
                     then proxy s else readProperty env host host p), heap w)) as ->.
  { unfold get_value. destruct Hp as [-> | ->]; simpl; destruct (inTest env); simpl;
      unfold global_get; run; fold host; by case_bool_decide. }
  split.
  - intros ->. by rewrite bool_decide_true.
  - intros Hne. by rewrite bool_decide_false.
Qed.

Lemma top_and_parent_follow_the_frame_witness :
  ∃ s, sandboxes (one_sandbox production) !! 0 = Some s
    ∧ result_of (get_trap production 0 (KString "top") (one_sandbox production))
      = Normal (readProperty production (globalContext (heap (one_sandbox production)))
                  (globalContext (heap (one_sandbox production))) (KString "top")).
Proof.
  eexists. split; [by vm_compute|].
  unshelve eapply (proj2 (top_and_parent_follow_the_frame production (one_sandbox production) 0 _
                            (KString "top") _ _)); try (by vm_compute). by left.
Defined.

(** *** Descriptors and definitions through the proxy *)





(** *** The document of an instance *)



(** *** Construction *)

(** [new ProxySandbox] always completes.  It adds one running instance under a
    new index, raises the counter by one and leaves the host object and the
    other instances as they are; the fake window of the instance owns exactly
    the string keys that the host object owns as properties that cannot be
    configured, and the getter table holds the accessors among them. *)
Theorem construct_adds_a_running_instance env nm speedy w :
  ∃ i s w', construct env nm speedy w = (Normal i, w')
    ∧ sandboxes w !! i = None
    ∧ sandboxes w' = <[i := s]> (sandboxes w)
    ∧ globalContext (heap w') = globalContext (heap w)
    ∧ activeSandboxCount w' = (activeSandboxCount w + 1)%Z
    ∧ name s = nm ∧ sandboxRunning s = true ∧ proxy s = VObject (RProxy i)
    ∧ latestSetProp s = None ∧ updatedValueSet s = ∅
    ∧ globalWhitelistPrevDescriptor s = [] ∧ document s = pageDocument env
    ∧ (∀ q, is_Some (own (fakeWindow s) !! q)
            ↔ ∃ pr, own (globalContext (heap w)) !! q = Some pr
                    ∧ prop_configurable pr = false ∧ ∃ k, q = KString k)
    ∧ (∀ q, q ∈ propertiesWithGetter s
            ↔ ∃ pr, own (globalContext (heap w)) !! q = Some pr
                    ∧ prop_configurable pr = false ∧ prop_is_accessor pr = true
                    ∧ ∃ k, q = KString k).
Proof.
  destruct (createFakeWindow_spec env (globalContext (heap w)) speedy)
    as (fw & pg & Hfw & Hin & Hout & _).
  unfold construct. run. rewrite Hfw. run.
  eexists _, _, _. split; [reflexivity|]. run.
  split. { apply not_elem_of_dom, is_fresh. }
  repeat (split; [reflexivity|]).
  assert (∀ q, (∃ pr, own (globalContext (heap w)) !! q = Some pr
                      ∧ prop_configurable pr = false ∧ ∃ k, q = KString k)
               ∨ (∀ p pr, q = KString p → own (globalContext (heap w)) !! q = Some pr →
                          prop_configurable pr = true)) as Hcases.
  { intros q. destruct q as [k|n]; [|right; by intros].
    destruct (own (globalContext (heap w)) !! KString k) as [pr|] eqn:E; [|right; by intros].
    destruct (prop_configurable pr) eqn:Hc.
    - right. intros p pr' _ [= <-]. done.
    - left. eauto. }
  cbn [fakeWindow propertiesWithGetter fst snd]. split.
  - intros q. destruct (Hcases q) as [(pr & Hpr & Hc & k & ->)|Hq].
    + destruct (Hin k pr Hpr Hc) as [Hown _]. rewrite Hown. split; [eauto|by eexists].
    + destruct (Hout q Hq) as [Hown _]. rewrite Hown. split; [by intros [??]|].
      intros (pr & Hpr & Hc & k & ->). specialize (Hq k pr eq_refl Hpr). congruence.
  - intros q. destruct (Hcases q) as [(pr & Hpr & Hc & k & ->)|Hq].
    + destruct (Hin k pr Hpr Hc) as [_ Hg]. rewrite Hg. split.
      * intros Ha. eauto 10.
      * intros (pr' & Hpr' & _ & Ha & _). congruence.
    + destruct (Hout q Hq) as [_ Hg]. split; [done|].
      intros (pr & Hpr & Hc & _ & k & ->). specialize (Hq k pr eq_refl Hpr). congruence.
Qed.

(** *** The counter of active instances *)

Lemma running_size_alter f i (m : gmap nat t) :
  (∀ s, m !! i = Some s → sandboxRunning (f s) = sandboxRunning s) →
  size (filter (λ kv : nat * t, sandboxRunning kv.2 = true) (alter f i m)) = size (filter (λ kv : nat * t, sandboxRunning kv.2 = true) m).
Proof.
  intros Hf. destruct (m !! i) as [s|] eqn:Hs; [|by rewrite alter_id'].
  assert (alter f i m = <[i := f s]> m) as ->.
  { apply map_eq. intros j. destruct (decide (i = j)) as [<-|Hne].
    - by rewrite lookup_alter_eq, lookup_insert_eq, Hs.
    - by rewrite lookup_alter_ne, lookup_insert_ne. }
  rewrite map_filter_insert. case_decide as Hr; simpl in Hr.
  - apply map_size_insert_Some. exists s. apply map_lookup_filter_Some. split; [done|].
    simpl. by rewrite <- (Hf s eq_refl).
  - rewrite map_filter_delete, delete_id; [done|].
    apply map_lookup_filter_None. right. intros s' Hs' Hrun. simpl in Hrun.
    assert (s' = s) as -> by congruence. by rewrite (Hf s eq_refl) in Hr.
Qed.

Lemma running_size_start i s (m : gmap nat t) :
  m !! i = Some s → sandboxRunning s = false →
  size (filter (λ kv : nat * t, sandboxRunning kv.2 = true) (alter (set_sandboxRunning true) i m)) = S (size (filter (λ kv : nat * t, sandboxRunning kv.2 = true) m)).
Proof.
  intros Hs Hr.
  assert (alter (set_sandboxRunning true) i m = <[i := set_sandboxRunning true s]> m) as ->.
  { apply map_eq. intros j. destruct (decide (i = j)) as [<-|Hne].
    - by rewrite lookup_alter_eq, lookup_insert_eq, Hs.
    - by rewrite lookup_alter_ne, lookup_insert_ne. }
  rewrite map_filter_insert_True by done.
  apply map_size_insert_None. apply map_lookup_filter_None. right.
  intros s' Hs' Hrun. simpl in Hrun. assert (s' = s) as -> by congruence. congruence.
Qed.

Lemma running_size_stop i s (m : gmap nat t) :
  m !! i = Some s → sandboxRunning s = true →
  S (size (filter (λ kv : nat * t, sandboxRunning kv.2 = true) (alter (set_sandboxRunning false) i m))) = size (filter (λ kv : nat * t, sandboxRunning kv.2 = true) m).
Proof.
  intros Hs Hr.
  assert (alter (set_sandboxRunning false) i m = <[i := set_sandboxRunning false s]> m) as ->.
  { apply map_eq. intros j. destruct (decide (i = j)) as [<-|Hne].
    - by rewrite lookup_alter_eq, lookup_insert_eq, Hs.
    - by rewrite lookup_alter_ne, lookup_insert_ne. }
  rewrite map_filter_insert_False by done. rewrite map_filter_delete.
  assert (filter (λ kv : nat * t, sandboxRunning kv.2 = true) m !! i = Some s) as Hf by (by apply map_lookup_filter_Some).
  rewrite <- (insert_id _ _ _ Hf) at 2. rewrite <- insert_delete_eq.
  rewrite map_size_insert_None; [done|]. apply lookup_delete_eq.
Qed.

Lemma running_size_new i s (m : gmap nat t) :
  m !! i = None → sandboxRunning s = true →
  size (filter (λ kv : nat * t, sandboxRunning kv.2 = true) (<[i := s]> m)) = S (size (filter (λ kv : nat * t, sandboxRunning kv.2 = true) m)).
Proof.
  intros Hs Hr. rewrite map_filter_insert_True by done.
  apply map_size_insert_None. apply map_lookup_filter_None. by left.
Qed.

Lemma preserves_running_update_this i f :
  (∀ s, sandboxRunning (f s) = sandboxRunning s) →
  preserves running_instances (update_this i f).
Proof.
  intros Hf w. unfold running_instances. simpl. f_equal. apply running_size_alter. auto.
Qed.

Ltac count_tac :=
  repeat first [ apply preserves_running_update_this; intros; reflexivity | preserves_step ].

(** The restoring part of [inactive] changes neither the counter nor the
    instances. *)
Lemma inactive_restore_frame i (b : bool) :
  let c : M world unit :=
    when b (
      s ← this i;
      forEach (globalWhitelistPrevDescriptor s).*1 (λ p,
        s ← this i;
        match mjoin (table_get p (globalWhitelistPrevDescriptor s)) with
        | Some descriptor => on_heap (global_define (KString p) descriptor)
        | None => on_heap (global_delete (KString p))
        end)) in
  preserves activeSandboxCount c ∧ preserves sandboxes c.
Proof. split; preserves_tac. Qed.

Lemma inactive_outcome env i w s :
  inTest env = false → sandboxes w !! i = Some s →
  activeSandboxCount (inactive env i w).2 = (activeSandboxCount w - 1)%Z
  ∧ (sandboxes (inactive env i w).2 = sandboxes w
     ∨ (inactive env i w).1 = Normal ()
       ∧ sandboxes (inactive env i w).2 = alter (set_sandboxRunning false) i (sandboxes w)).
Proof.
  intros Ht Hs. unfold inactive, last_exit.
  rewrite (bind_eq _ _ _ _ _ (this_eq _ _ _ Hs)). rewrite Ht.
  destruct (inDevelopment env); run.
  all: match goal with |- context [when ?b ?c ?w1] =>
         assert (activeSandboxCount (when b c w1).2 = activeSandboxCount w1
                 ∧ sandboxes (when b c w1).2 = sandboxes w1) as [Hc Hsb]
           by (split; [apply (proj1 (inactive_restore_frame i b) w1)
                      |apply (proj2 (inactive_restore_frame i b) w1)]);
         destruct (when b c w1) as [[[]|e] w2] end.
  all: run; simpl in Hc, Hsb; rewrite ?Hc, ?Hsb; split; [done|]; auto.
Qed.

(** Outside a test run the counter [activeSandboxCount] is the number of
    running instances, and stays so when an instance is constructed, when any
    instance is activated, when a running instance is deactivated without an
    error, and through every handler of the proxies.  Deactivating an instance
    that is already stopped lowers the counter all the same, which leaves it
    one below the number of running instances. *)
Theorem counter_counts_the_running_instances env w :
  inTest env = false →
  activeSandboxCount w = running_instances w →
  (∀ nm speedy, let w' := state_of (construct env nm speedy w) in
     activeSandboxCount w' = running_instances w')
  ∧ (∀ i, let w' := state_of (active i w) in activeSandboxCount w' = running_instances w')
  ∧ (∀ i s, sandboxes w !! i = Some s → sandboxRunning s = true →
       result_of (inactive env i w) = Normal () →
       let w' := state_of (inactive env i w) in activeSandboxCount w' = running_instances w')
  ∧ (∀ i p v, let w' := state_of (set_trap env i p v w) in
       activeSandboxCount w' = running_instances w')
  ∧ (∀ i p, let w' := state_of (get_trap env i p w) in
       activeSandboxCount w' = running_instances w')
  ∧ (∀ i p, let w' := state_of (deleteProperty_trap i p w) in
       activeSandboxCount w' = running_instances w')
  ∧ (∀ i p d, let w' := state_of (defineProperty_trap i p d w) in
       activeSandboxCount w' = running_instances w')
  ∧ (∀ i p, let w' := state_of (getOwnPropertyDescriptor_trap i p w) in
       activeSandboxCount w' = running_instances w')
  ∧ (∀ i s, sandboxes w !! i = Some s → sandboxRunning s = false →
       let w' := state_of (inactive env i w) in
       activeSandboxCount w' = (running_instances w' - 1)%Z).
Proof.
  intros Ht Hinv.
  assert (∀ {A} (c : M world A),
            preserves activeSandboxCount c → preserves running_instances c →
            activeSandboxCount (state_of (c w)) = running_instances (state_of (c w))) as Hframe.
  { intros A c H1 H2. unfold state_of. by rewrite (H1 w), (H2 w). }
  split; [|split; [|split; [|split; [|split; [|split; [|split; [|split]]]]]]].
  - intros nm speedy.
    destruct (createFakeWindow_spec env (globalContext (heap w)) speedy)
      as (fw & pg & Hfw & _).
    unfold construct. run. rewrite Hfw. run. unfold running_instances. simpl.
    rewrite running_size_new; [|apply not_elem_of_dom, is_fresh|done].
    unfold running_instances in Hinv. lia.
  - intros i. unfold active, this. run.
    destruct (sandboxes w !! i) as [s|] eqn:Hs; run; [|done].
    unfold running_instances in *. destruct (sandboxRunning s) eqn:Hr; run.
    + rewrite running_size_alter; [done|]. intros s' Hs'.
      assert (s' = s) as -> by congruence. by rewrite Hr.
    + rewrite (running_size_start i s) by done. lia.
  - intros i s Hs Hr Hn w'. subst w'. unfold state_of, result_of in *.
    destruct (inactive_outcome env i w s Ht Hs) as [Hc [Hsb|[_ Hsb]]].
    + (* the restoration raised *)
      exfalso. revert Hn Hsb. unfold inactive, last_exit.
      rewrite (bind_eq _ _ _ _ _ (this_eq _ _ _ Hs)). rewrite Ht.
      destruct (inDevelopment env); run.
      all: match goal with |- context [when ?b ?c ?w1] =>
             assert (sandboxes (when b c w1).2 = sandboxes w1) as Hsb
               by (apply (proj2 (inactive_restore_frame i b) w1));
             destruct (when b c w1) as [[[]|e] w2] end; run; [|done].
      all: simpl in Hsb; rewrite Hsb; intros _ Heq.
      all: apply (f_equal (λ m, sandboxRunning <$> m !! i)) in Heq.
      all: rewrite lookup_alter_eq, Hs in Heq; simpl in Heq; congruence.
    + rewrite Hc. unfold running_instances in *. rewrite Hsb.
      pose proof (running_size_stop i s (sandboxes w) Hs Hr). lia.
  - intros i p v. apply Hframe.
    + unfold set_trap, registerRunningApp, target_assign, target_define. preserves_tac.
    + unfold set_trap, registerRunningApp, target_assign, target_define. count_tac.
  - intros i p. apply Hframe.
    + unfold get_trap, registerRunningApp. preserves_tac.
    + unfold get_trap, registerRunningApp. count_tac.
  - intros i p. apply Hframe.
    + unfold deleteProperty_trap, registerRunningApp, target_delete. preserves_tac.
    + unfold deleteProperty_trap, registerRunningApp, target_delete. count_tac.
  - intros i p d. apply Hframe.
    + unfold defineProperty_trap. preserves_tac.
    + unfold defineProperty_trap. count_tac.
  - intros i p. apply Hframe.
    + unfold getOwnPropertyDescriptor_trap. preserves_tac.
    + unfold getOwnPropertyDescriptor_trap. count_tac.
  - intros i s Hs Hr w'. subst w'. unfold state_of.
    destruct (inactive_outcome env i w s Ht Hs) as [Hc [Hsb|[_ Hsb]]].
    + rewrite Hc. unfold running_instances in *. rewrite Hsb. lia.
    + rewrite Hc. unfold running_instances in *. rewrite Hsb.
      rewrite running_size_alter; [lia|]. intros s' Hs'.
      assert (s' = s) as -> by congruence. by rewrite Hr.
Qed.

Lemma counter_counts_the_running_instances_witness :
  inTest production = false
  ∧ activeSandboxCount (two_sandboxes production) = running_instances (two_sandboxes production)
  ∧ ∀ i, let w' := state_of (active i (two_sandboxes production)) in
         activeSandboxCount w' = running_instances w'.
Proof.
  split; [reflexivity|]. split; [by vm_compute|].
  apply (proj1 (proj2 (counter_counts_the_running_instances production (two_sandboxes production)
                         eq_refl ltac:(by vm_compute)))).
Defined.

(** *** The constant tables of the module *)

Lemma elem_of_unique_from seen array x :
  x ∈ unique_from seen array ↔ x ∈ array ∧ x ∉ seen.
Proof.
  revert seen. induction array as [|y l IH]; intros seen; simpl.
  - rewrite elem_of_nil. tauto.
  - case_decide as Hy.
    + rewrite IH, elem_of_cons. split; [tauto|]. intros [[->|?] ?]; tauto.
    + rewrite elem_of_cons, IH, elem_of_cons, elem_of_cons. split.
      * intros [->|[? ?]]; [tauto|]. split; [tauto|]. tauto.
      * intros [[->|?] ?]; [tauto|]. destruct (decide (x = y)); [tauto|]. right. tauto.
Qed.

Lemma NoDup_unique_from seen array : NoDup (unique_from seen array).
Proof.
  revert seen. induction array as [|y l IH]; intros seen; simpl; [constructor|].
  case_decide; [apply IH|]. apply NoDup_cons. split; [|apply IH].
  rewrite elem_of_unique_from, elem_of_cons. tauto.
Qed.

Lemma elem_of_without array values x : x ∈ without array values ↔ x ∈ array ∧ x ∉ values.
Proof. unfold without. rewrite list_elem_of_filter. tauto. Qed.

Lemma overwritten_not_spied env g : g ∈ overwrittenGlobals env → g ∉ accessingSpiedGlobals.
Proof.
  unfold overwrittenGlobals, accessingSpiedGlobals, mockGlobalThis.
  rewrite elem_of_app. intros [H|H] Hs.
  - repeat (apply elem_of_cons in H as [->|H]);
      try (by apply elem_of_nil in H);
      repeat (apply elem_of_cons in Hs as [Hs|Hs]; [discriminate Hs|]);
      by apply elem_of_nil in Hs.
  - destruct (inTest env); [|by apply elem_of_nil in H].
    apply elem_of_cons in H as [->|H]; [|by apply elem_of_nil in H].
    repeat (apply elem_of_cons in Hs as [Hs|Hs]; [discriminate Hs|]);
      by apply elem_of_nil in Hs.
Qed.

(** The names cached for a speedy sandbox are the declared globals, the
    overwritten globals and [requestAnimationFrame], each once and without the
    four names whose every access is spied; the unscopable names are the cached
    ones that are not overwritten globals, so no overwritten global is ever
    unscopable. *)
Theorem cached_and_unscopable_names env :
  NoDup (cachedGlobals env)
  ∧ (∀ g, g ∈ cachedGlobals env
          ↔ (g ∈ globals env ∨ g ∈ overwrittenGlobals env ∨ g = "requestAnimationFrame")
            ∧ g ∉ accessingSpiedGlobals)
  ∧ (∀ g, g ∈ unscopables env ↔ g ∈ cachedGlobals env ∧ g ∉ overwrittenGlobals env)
  ∧ (∀ g, g ∈ overwrittenGlobals env → g ∈ cachedGlobals env ∧ g ∉ unscopables env).
Proof.
  assert (∀ g, g ∈ cachedGlobals env
               ↔ (g ∈ globals env ∨ g ∈ overwrittenGlobals env ∨ g = "requestAnimationFrame")
                 ∧ g ∉ accessingSpiedGlobals) as Hc.
  { intros g. unfold cachedGlobals, unique.
    rewrite elem_of_unique_from, elem_of_without, !elem_of_app, list_elem_of_singleton,
      elem_of_nil. tauto. }
  assert (∀ g, g ∈ unscopables env ↔ g ∈ cachedGlobals env ∧ g ∉ overwrittenGlobals env) as Hu.
  { intros g. unfold unscopables. rewrite elem_of_without, elem_of_app, Hc. tauto. }
  split; [apply NoDup_unique_from|]. split; [done|]. split; [done|].
  intros g Hg. rewrite Hu, Hc. pose proof (overwritten_not_spied env g Hg). tauto.
Qed.

(** *** The keys of the proxy *)

Lemma uniq_filter_seen (seen s1 s2 : gset PropertyKey) array :
  (∀ y, y ∈ seen ↔ y ∈ s1 ∨ y ∈ s2) →
  uniq_filter seen array = filter (λ y, y ∉ s1) (uniq_filter s2 array).
Proof.
  revert seen s2. induction array as [|x l IH]; intros seen s2 Hseen; simpl; [done|].
  destruct (decide (x ∈ s2)) as [H2|H2].
  - rewrite decide_True by (apply Hseen; by right). by apply IH.
  - rewrite filter_cons. destruct (decide (x ∈ s1)) as [H1|H1].
    + rewrite decide_True by (apply Hseen; by left).
      rewrite decide_False by tauto. apply IH. intros y.
      rewrite elem_of_union, elem_of_singleton, Hseen. split; [tauto|].
      intros [?|[->|?]]; tauto.
    + rewrite decide_False by (rewrite Hseen; tauto).
      rewrite decide_True by done. f_equal. apply IH. intros y.
      rewrite !elem_of_union, elem_of_singleton, Hseen. tauto.
Qed.

Lemma uniq_cons x array : uniq (x :: array) = x :: filter (λ y, y ≠ x) (uniq array).
Proof.
  unfold uniq. simpl. rewrite decide_False by apply not_elem_of_empty. f_equal.
  rewrite (uniq_filter_seen _ {[x]} ∅).
  - apply list_filter_iff. intros y. by rewrite elem_of_singleton.
  - intros y. rewrite elem_of_union. tauto.
Qed.

Lemma elem_of_uniq array x : x ∈ uniq array ↔ x ∈ array.
Proof.
  induction array as [|y l IH]; [done|].
  rewrite uniq_cons, !elem_of_cons, list_elem_of_filter, IH.
  destruct (decide (x = y)); tauto.
Qed.

Lemma NoDup_uniq array : NoDup (uniq array).
Proof.
  induction array as [|y l IH]; [constructor|].
  rewrite uniq_cons. apply NoDup_cons. split; [|by apply NoDup_filter].
  rewrite list_elem_of_filter. tauto.
Qed.

(** [uniq] keeps the first occurrence of each element: the result has no
    duplicates and the elements of the array, in the order in which they first
    come; an array without duplicates is returned as it is. *)
Theorem uniq_keeps_the_first_occurrences :
  uniq [] = []
  ∧ (∀ x array, uniq (x :: array) = x :: filter (λ y, y ≠ x) (uniq array))
  ∧ (∀ array, NoDup (uniq array))
  ∧ (∀ array x, x ∈ uniq array ↔ x ∈ array)
  ∧ (∀ array, NoDup array → uniq array = array)
  ∧ (∀ array, uniq (uniq array) = uniq array).
Proof.
  assert (∀ array, NoDup array → uniq array = array) as Hid.
  { induction 1 as [|x l Hx Hnd IH]; [done|].
    rewrite uniq_cons, IH. f_equal. clear IH Hnd.
    induction l as [|y l IH]; [done|].
    rewrite filter_cons. apply not_elem_of_cons in Hx as [Hxy Hx].
    rewrite decide_True by done. f_equal. by apply IH. }
  split; [done|]. split; [apply uniq_cons|]. split; [apply NoDup_uniq|].
  split; [apply elem_of_uniq|]. split; [done|].
  intros array. apply Hid, NoDup_uniq.
Qed.

Lemma elem_of_ownKeys o p : p ∈ ownKeys o ↔ is_Some (own o !! p).
Proof.
  unfold ownKeys, getOwnPropertySymbols. rewrite elem_of_app, !list_elem_of_fmap. split.
  - intros [(k & -> & Hk)|(n & -> & Hn)].
    + by apply getOwnPropertyNames_elem.
    + apply list_elem_of_omap in Hn as ([q pr] & Hin & Hq). simpl in Hq.
      destruct q; [done|]. injection Hq as ->. apply elem_of_map_to_list in Hin. eauto.
  - intros [pr Hpr]. destruct p as [k|n].
    + left. exists k. split; [done|]. apply getOwnPropertyNames_elem. eauto.
    + right. exists n. split; [done|]. apply list_elem_of_omap.
      exists (KSymbol n, pr). split; [by apply elem_of_map_to_list|done].
Qed.

(** The keys listed through the proxy are the own keys of the host object and
    of the fake window, each once; listing them changes nothing. *)
Theorem ownKeys_lists_host_and_sandbox_keys_once w i s :
  sandboxes w !! i = Some s →
  ∃ keys, ownKeys_trap i w = (Normal keys, w)
    ∧ NoDup keys
    ∧ ∀ p, p ∈ keys ↔ hasOwnProperty (globalContext (heap w)) p = true
                        ∨ hasOwnProperty (fakeWindow s) p = true.
Proof.
  intros Hs. unfold ownKeys_trap. rewrite (bind_eq _ _ _ _ _ (this_eq _ _ _ Hs)). run.
  eexists. split; [done|]. split; [apply NoDup_uniq|].
  intros p. rewrite elem_of_uniq, elem_of_app, !elem_of_ownKeys.
  unfold hasOwnProperty. by rewrite !bool_decide_eq_true.
Qed.

Lemma ownKeys_lists_host_and_sandbox_keys_once_witness :
  ∃ s, sandboxes (one_sandbox production) !! 0 = Some s
    ∧ ∃ keys, ownKeys_trap 0 (one_sandbox production) = (Normal keys, one_sandbox production)
        ∧ NoDup keys
        ∧ ∀ p, p ∈ keys ↔ hasOwnProperty (globalContext (heap (one_sandbox production))) p = true
                            ∨ hasOwnProperty (fakeWindow s) p = true.
Proof.
  eexists. split; [by vm_compute|].
  apply (ownKeys_lists_host_and_sandbox_keys_once (one_sandbox production) 0).
  by vm_compute.
Defined.

(** A cached global is in the proxy whatever the host object and the fake
    window hold, and so is every key found in the fake window or in the host
    object, own or inherited; the test changes nothing. *)
Theorem cached_globals_are_in_the_proxy env w i s p :
  sandboxes w !! i = Some s →
  ((∃ g, p = KString g ∧ g ∈ cachedGlobals env)
   ∨ hasProperty (fakeWindow s) p = true ∨ hasProperty (globalContext (heap w)) p = true) →
  has_trap env i p w = (Normal true, w).
Proof.
  intros Hs Hp. unfold has_trap. rewrite (bind_eq _ _ _ _ _ (this_eq _ _ _ Hs)). run.
  do 2 f_equal. destruct Hp as [(g & -> & Hg)|[Hp|Hp]].
  - unfold in_cachedGlobalObjects. by rewrite bool_decide_true.
  - rewrite Hp. by rewrite orb_true_r.
  - rewrite Hp. by rewrite orb_true_r.
Qed.

Lemma cached_globals_are_in_the_proxy_witness :
  has_trap production 0 (KString "requestAnimationFrame") (one_sandbox production)
  = (Normal true, one_sandbox production).
Proof.
  unshelve eapply (cached_globals_are_in_the_proxy production (one_sandbox production) 0 _
                     (KString "requestAnimationFrame") _ _);
    [| by vm_compute |].
  left. exists "requestAnimationFrame". split; [done|].
  refine (bool_decide_unpack _ _). by vm_compute.
Defined.

(** *** The [hasOwnProperty] of the proxy *)



(** *** Whitelisted keys *)

Lemma whitelisted_not_intercepted env p : in_whitelist env p = true → intercepted env p = false.
Proof.
  intros H. apply in_whitelist_cases in H as [-> | [-> | [-> | ->]]];
    unfold intercepted; by destruct (inTest env).
Qed.

(** A write of a whitelisted key through the proxy of a running instance that
    the host object stores is on the host object, and every instance whose
    fake window does not hold the key, the writer too, reads the value written:
    the whitelist is shared by all the sandboxes of the page. *)
Theorem whitelisted_write_is_seen_through_every_proxy env w a sa (k : string) v :
  sandboxes w !! a = Some sa → sandboxRunning sa = true →
  in_whitelist env (KString k) = true →
  accepts_write (globalContext (heap w)) (KString k) = true →
  eligible env v = false →
  let w' := state_of (set_trap env a (KString k) v w) in
  result_of (set_trap env a (KString k) v w) = Normal true
  ∧ (∃ wr e c, own (globalContext (heap w')) !! KString k = Some (Data v wr e c))
  ∧ ∀ b sb, sandboxes w !! b = Some sb → hasProperty (fakeWindow sb) (KString k) = false →
      result_of (get_trap env b (KString k) w') = Normal v.
Proof.
  intros Hs Hr Hwl Ha He w'.
  assert (reaches_setter (globalContext (heap w)) (KString k) = false) as Hset.
  { unfold accepts_write in Ha. unfold reaches_setter.
    by destruct (ordinarySet (globalContext (heap w)) (KString k) VUndefined). }
  assert (∃ wr e c, own (assigned (globalContext (heap w)) (KString k) v) !! KString k
                    = Some (Data v wr e c)) as (wr & e & c & Hown).
  { unfold assigned.
    apply accepts_write_cases in Ha as [(_ & _ & _ & Hos)|(v0 & e & c & Hown)].
    - rewrite Hos. simpl. rewrite lookup_insert_eq. eauto.
    - unfold ordinarySet. rewrite Hown. simpl. rewrite lookup_insert_eq. eauto. }
  destruct (set_trap_whitelisted env a k v w sa Hs Hr Hwl Hset)
    as (Hheap & _ & Hother & s' & Hs' & _ & Hrec).
  fold w' in Hheap, Hother, Hs'.
  split; [|split].
  - unfold set_trap. rewrite (bind_eq _ _ _ _ _ (this_eq _ _ _ Hs)). rewrite Hr.
    rewrite (bind_eq _ _ _ _ _ (registerRunningApp_running _ _ _ Hs Hr)). rewrite Hwl.
    pose proof (registered_heap sa w) as Hh.
    generalize dependent (registered sa w). intros w1 Hh.
    run. rewrite Hh. unfold global_assign.
    unfold accepts_write in Ha. pose proof (ordinarySet_kind (globalContext (heap w)) (KString k)
                                              v VUndefined) as Hk.
    destruct (ordinarySet (globalContext (heap w)) (KString k) VUndefined); try done.
    destruct (ordinarySet (globalContext (heap w)) (KString k) v); try done.
  - rewrite Hheap. simpl. eauto.
  - intros b sb Hsb Hfw.
    assert (∃ sb', sandboxes w' !! b = Some sb' ∧ fakeWindow sb' = fakeWindow sb
                   ∧ propertiesWithGetter sb' = propertiesWithGetter sb) as (sb' & Hsb' & Hf & Hg).
    { destruct (decide (a = b)) as [<-|Hab].
      - assert (sb = sa) as -> by congruence.
        assert (preserves (λ w, (λ s, (fakeWindow s, propertiesWithGetter s)) <$> sandboxes w !! a)
                  (set_trap env a (KString k) v)) as Hp.
        { unfold set_trap. rewrite Hwl. unfold registerRunningApp. field_tac. }
        specialize (Hp w). cbv beta in Hp.
        change ((set_trap env a (KString k) v w).2) with w' in Hp.
        rewrite Hs, Hs' in Hp. simpl in Hp. injection Hp as Hf Hg. eauto.
      - exists sb. by rewrite Hother. }
    rewrite (get_trap_result env b _ w' sb' Hsb').
    rewrite get_value_lookup by (by apply whitelisted_not_intercepted).
    unfold get_lookup. run. rewrite Hf.
    rewrite Hfw, andb_false_r. rewrite Hheap. simpl.
    rewrite (readProperty_data _ _ _ _ _ _ _ _ Hown).
    destruct (isPropertyFrozen env _ _); [done|].
    by rewrite (getTargetValue_ineligible env _ _ _ He).
Qed.

Lemma whitelisted_write_is_seen_through_every_proxy_witness :
  let w := two_sandboxes production in
  let w' := state_of (set_trap production 0 (KString "System") (VNumber 1) w) in
  result_of (set_trap production 0 (KString "System") (VNumber 1) w) = Normal true
  ∧ (∃ wr e c, own (globalContext (heap w')) !! KString "System" = Some (Data (VNumber 1) wr e c))
  ∧ ∀ b sb, sandboxes w !! b = Some sb → hasProperty (fakeWindow sb) (KString "System") = false →
      result_of (get_trap production b (KString "System") w') = Normal (VNumber 1).
Proof.
  intros w w'.
  unshelve eapply (whitelisted_write_is_seen_through_every_proxy production w 0 _ "System"
                     (VNumber 1)); try (by vm_compute).
Defined.

End ProxySandboxBehaviour.

(** ** The diffing sandbox: its bookkeeping *)

Module LegacySandboxBehaviour.
Import LegacySandbox LegacySandboxProperties.

(** *** Undoing the writes *)

(** The loop of [inactive] over the recorded original values. *)
Lemma restore_loop env (l : list (PropertyKey * value)) w :
  NoDup l.*1 →
  (∀ p x, (p, x) ∈ l → ∃ k pr, p = KString k ∧ own (globalContext (heap w)) !! p = Some pr
                               ∧ prop_configurable pr = true) →
  ∃ host',
    forEach l (λ pv, on_heap (setWindowProp env pv.1 pv.2 false)) w
    = (Normal (), {| heap := set_globalContext host' (heap w); self := self w |})
    ∧ inherited host' = inherited (globalContext (heap w))
    ∧ extensible host' = extensible (globalContext (heap w))
    ∧ ∀ p, own host' !! p
           = match table_get p l with
             | Some x => rewritten x <$> own (globalContext (heap w)) !! p
             | None => own (globalContext (heap w)) !! p
             end.
Proof.
  revert w. induction l as [|[p x] l IH]; intros [h s] Hnd Hl; simpl in *.
  - exists (globalContext h). by rewrite set_globalContext_id.
  - apply NoDup_cons in Hnd as [Hp Hnd].
    destruct (Hl p x) as (k & pr & -> & Hown & Hc); [by left|].
    unfold mbind, M_bind, on_heap. simpl.
    rewrite (setWindowProp_configurable env k x h pr Hown Hc). simpl.
    set (host1 := with_own (insert (KString k) (rewritten x pr)) (globalContext h)).
    destruct (IH {| heap := set_globalContext host1 h; self := s |} Hnd)
      as (host' & Hrun & Hinh & Hext & Hlook).
    { intros q y Hq. destruct (Hl q y) as (k' & pr' & -> & Hown' & Hc'); [by right|].
      exists k', pr'. split; [done|]. split; [|done]. unfold host1. simpl.
      rewrite lookup_insert_ne; [done|]. intros [= <-]. apply Hp.
      apply list_elem_of_fmap. by exists (KString k, y). }
    exists host'. simpl in *. split; [|split; [done|split; [done|]]].
    + etransitivity; [exact Hrun|]. by destruct h.
    + intros q. rewrite Hlook. case_decide as Hq.
      * subst q. apply table_get_None in Hp. rewrite Hp. by rewrite lookup_insert_eq, Hown.
      * by rewrite lookup_insert_ne.
Qed.

(** The loop of [inactive] over the added keys. *)
Lemma delete_loop env (l : list (PropertyKey * value)) w :
  NoDup l.*1 →
  (∀ p x, (p, x) ∈ l → ∃ pr, own (globalContext (heap w)) !! p = Some pr
                             ∧ prop_configurable pr = true) →
  ∃ host',
    forEach l (λ pv, on_heap (setWindowProp env pv.1 VUndefined true)) w
    = (Normal (), {| heap := set_globalContext host' (heap w); self := self w |})
    ∧ inherited host' = inherited (globalContext (heap w))
    ∧ extensible host' = extensible (globalContext (heap w))
    ∧ ∀ p, own host' !! p
           = match table_get p l with
             | Some x => None
             | None => own (globalContext (heap w)) !! p
             end.
Proof.
  revert w. induction l as [|[p x] l IH]; intros [h s] Hnd Hl; simpl in *.
  - exists (globalContext h). by rewrite set_globalContext_id.
  - apply NoDup_cons in Hnd as [Hp Hnd].
    destruct (Hl p x) as (pr & Hown & Hc); [by left|].
    unfold mbind, M_bind, on_heap. simpl. rewrite setWindowProp_delete.
    rewrite (global_delete_configurable p h pr Hown Hc). simpl.
    set (host1 := with_own (delete p) (globalContext h)).
    destruct (IH {| heap := set_globalContext host1 h; self := s |} Hnd)
      as (host' & Hrun & Hinh & Hext & Hlook).
    { intros q y Hq. destruct (Hl q y) as (pr' & Hown' & Hc'); [by right|].
      exists pr'. split; [|done]. unfold host1. simpl.
      rewrite lookup_delete_ne; [done|]. intros <-. apply Hp.
      apply list_elem_of_fmap. by exists (p, y). }
    exists host'. simpl in *. split; [|split; [done|split; [done|]]].
    + etransitivity; [exact Hrun|]. by destruct h.
    + intros q. rewrite Hlook. case_decide as Hq.
      * subst q. apply table_get_None in Hp. rewrite Hp. by rewrite lookup_delete_eq.
      * by rewrite lookup_delete_ne.
Qed.

Lemma ordinarySet_absent_ext o o' p v :
  own o !! p = None → own o' !! p = None →
  inherited o = inherited o' → extensible o = extensible o' →
  accepts_write o' p = true →
  ordinarySet o p v = SetOwn (with_own (insert p (Data v true true true)) o).
Proof.
  intros Ho Ho' Hinh Hext. unfold accepts_write, ordinarySet. rewrite Ho, Ho', Hinh, Hext.
  destruct (inherited o' !! p) as [[? [] ? ?|? s ? ?]|]; try done.
  - by destruct (extensible o').
  - by destruct (bool_decide (s = VUndefined)).
  - by destruct (extensible o').
Qed.

(** A write of a restorable key through the proxy of a running sandbox is
    stored by the host object and keeps the bookkeeping consistent. *)
Lemma set_trap_consistent env h0 w k v :
  legacy_consistent h0 w → restorable (globalContext h0) (KString k) = true →
  ∃ w', set_trap env (KString k) v w = (Normal true, w') ∧ legacy_consistent h0 w'
    ∧ ∃ e c, own (globalContext (heap w')) !! KString k = Some (Data v true e c).
Proof.
  destruct w as [h s]. unfold legacy_consistent. simpl.
  intros (Hr & Hheap & Hinh & Hext & Hna & Hnm & Hkeys) Hres.
  set (p := KString k) in *.
  (* the assignment to the host object *)
  assert (∃ e c, (own (globalContext h) !! p = None ∧ e = true ∧ c = true
                  ∨ ∃ v1, own (globalContext h) !! p = Some (Data v1 true e c))
                 ∧ global_assign env p v h
                   = (Normal (), set_globalContext
                                   (with_own (insert p (Data v true e c)) (globalContext h)) h))
    as (e & c & Hcur & Hassign).
  { pose proof (Hkeys p) as Hp. unfold restorable in Hres.
    destruct (own (globalContext h0) !! p) as [pr0|] eqn:Hown0.
    - destruct Hp as [_ [[_ Hown]|(k' & v0 & e & v1 & _ & -> & _ & Hown)]].
      + destruct pr0 as [v0 [] e []|]; try done. exists e, true. split; [eauto|].
        by rewrite (global_assign_data _ _ _ _ _ _ _ _ Hown).
      + exists e, true. split; [eauto|]. by rewrite (global_assign_data _ _ _ _ _ _ _ _ Hown).
    - destruct Hp as [(_ & _ & Hown)|(_ & _ & v1 & Hown)].
      + exists true, true. split; [by left|]. unfold global_assign.
        by rewrite (ordinarySet_absent_ext _ (globalContext h0) p v Hown Hown0 Hinh Hext Hres).
      + exists true, true. split; [eauto|]. by rewrite (global_assign_data _ _ _ _ _ _ _ _ Hown). }
  unfold set_trap, setTrap. run. rewrite Hr. run.
  destruct Hcur as [(Hown & -> & ->)|[v1 Hown]].
  - (* the host object does not own the key: it is recorded as added *)
    rewrite (hasOwnProperty_false _ _ Hown). run. rewrite Hassign. run.
    eexists. split; [reflexivity|]. run. split; [|by rewrite lookup_insert_eq; eauto].
    split; [done|]. split; [by rewrite <- Hheap; destruct h|]. split; [done|]. split; [done|].
    split; [by apply table_set_NoDup|]. split; [done|].
    intros q. specialize (Hkeys q). destruct (decide (q = p)) as [->|Hq].
    + rewrite table_get_set_eq, lookup_insert_eq.
      destruct (own (globalContext h0) !! p) as [pr0|].
      * destruct Hkeys as [_ [[_ H]|(? & ? & ? & ? & _ & _ & _ & H)]]; congruence.
      * right. split; [eauto|]. split; eauto.
    + rewrite table_get_set_ne, lookup_insert_ne by done. done.
  - (* the host object owns the key: its value is recorded once *)
    rewrite (hasOwnProperty_true _ _ _ Hown). run.
    rewrite (readProperty_data _ _ _ _ _ _ _ _ Hown). unfold table_has.
    destruct (table_get p (modifiedPropsOriginalValueMapInSandbox s)) as [x|] eqn:Hmod;
      run; rewrite Hassign; run.
    + eexists. split; [reflexivity|]. run. split; [|by rewrite lookup_insert_eq; eauto].
      split; [done|]. split; [by rewrite <- Hheap; destruct h|]. split; [done|].
      split; [done|]. split; [done|]. split; [done|].
      intros q. specialize (Hkeys q). destruct (decide (q = p)) as [->|Hq].
      * rewrite lookup_insert_eq. rewrite Hmod, Hown in Hkeys.
        destruct (own (globalContext h0) !! p) as [pr0|].
        -- destruct Hkeys as [Ha [[H _]|(k' & v0 & e' & v2 & Hk & -> & Hm & [= <- <- ->])]];
             [done|].
           split; [done|]. right. exists k', v0, e, v. repeat split; congruence.
        -- destruct Hkeys as [(_ & H & _)|(Ha & Hk & v2 & [= <- -> ->])]; [done|].
           right. eauto.
      * by rewrite lookup_insert_ne.
    + eexists. split; [reflexivity|]. run. split; [|by rewrite lookup_insert_eq; eauto].
      split; [done|]. split; [by rewrite <- Hheap; destruct h|]. split; [done|].
      split; [done|]. split; [done|]. split; [by apply table_set_NoDup|].
      intros q. specialize (Hkeys q). destruct (decide (q = p)) as [->|Hq].
      * rewrite table_get_set_eq, lookup_insert_eq. rewrite Hmod, Hown in Hkeys.
        unfold restorable in Hres.
        destruct (own (globalContext h0) !! p) as [pr0|].
        -- destruct Hkeys as [Ha [[_ [= <-]]|(k' & v0 & e' & v2 & Hk & -> & Hm & _)]];
             [|done].
           destruct c; [|done]. split; [done|]. right. exists k, v1, e, v. by repeat split.
        -- destruct Hkeys as [(_ & _ & H)|(Ha & Hk & v2 & [= <- -> ->])]; [done|].
           right. eauto.
      * rewrite table_get_set_ne, lookup_insert_ne by done. done.
Qed.

Lemma fresh_legacy_consistent h name : legacy_consistent h (fresh_legacy h name).
Proof.
  unfold legacy_consistent, fresh_legacy. simpl.
  split; [done|]. split; [apply set_globalContext_id|]. split; [done|]. split; [done|].
  split; [constructor|]. split; [constructor|].
  intros p. destruct (own (globalContext h) !! p); auto.
Qed.

Lemma legacy_writes_consistent env h0 ws w :
  legacy_consistent h0 w →
  (∀ k v, (k, v) ∈ ws → restorable (globalContext h0) (KString k) = true) →
  ∃ w', legacy_writes env ws w = (Normal (), w') ∧ legacy_consistent h0 w'
    ∧ ∀ ws' k v, ws = ws' ++ [(k, v)] →
        ∃ e c, own (globalContext (heap w')) !! KString k = Some (Data v true e c).
Proof.
  revert w. induction ws as [|[k0 v0] ws IH]; intros w Hw Hws.
  - exists w. split; [done|]. split; [done|]. intros [|??] ???; done.
  - destruct (set_trap_consistent env h0 w k0 v0 Hw) as (w1 & Hset & Hw1 & Hlast).
    { apply (Hws k0 v0). by left. }
    destruct (IH w1 Hw1) as (w' & Hrun & Hw' & Hlast').
    { intros k v Hin. apply (Hws k v). by right. }
    exists w'. unfold legacy_writes in *. simpl.
    unfold mbind at 1, M_bind at 1. unfold mbind at 1, M_bind at 1. rewrite Hset. simpl.
    split; [done|]. split; [done|].
    intros [|[k1 v1] ws'] k v Heq; simpl in Heq.
    + injection Heq as -> -> ->. simpl in Hrun. by injection Hrun as <-.
    + injection Heq as -> -> ->. by apply (Hlast' ws').
Qed.

Lemma inactive_consistent env h0 w :
  legacy_consistent h0 w →
  ∃ w', inactive env w = (Normal (), w') ∧ heap w' = h0 ∧ sandboxRunning (self w') = false.
Proof.
  destruct w as [h s]. unfold legacy_consistent. simpl.
  intros (Hr & Hheap & Hinh & Hext & Hna & Hnm & Hkeys).
  destruct (restore_loop env (modifiedPropsOriginalValueMapInSandbox s) {| heap := h; self := s |}
              Hnm) as (host1 & Hrun1 & Hinh1 & Hext1 & Hlook1).
  { intros p x Hin. apply (table_get_elem _ _ _ Hnm) in Hin. simpl.
    specialize (Hkeys p). destruct (own (globalContext h0) !! p) as [pr0|].
    - destruct Hkeys as [_ [[H _]|(k & v0 & e & v & -> & _ & _ & Hown)]]; [congruence|]. eauto.
    - destruct Hkeys as [(_ & H & _)|(_ & [k ->] & v & Hown)]; [congruence|]. eauto. }
  simpl in *.
  destruct (delete_loop env (addedPropsMapInSandbox s)
              {| heap := set_globalContext host1 h; self := s |} Hna)
    as (host2 & Hrun2 & Hinh2 & Hext2 & Hlook2).
  { intros p x Hin. apply (table_get_elem _ _ _ Hna) in Hin. simpl. rewrite Hlook1.
    specialize (Hkeys p). destruct (own (globalContext h0) !! p) as [pr0|].
    - destruct Hkeys as [H _]. congruence.
    - destruct Hkeys as [(H & _)|(_ & _ & v & Hown)]; [congruence|]. rewrite Hown.
      destruct (table_get p (modifiedPropsOriginalValueMapInSandbox s)); simpl; eauto. }
  simpl in *.
  unfold inactive. run. rewrite Hrun1. run. rewrite Hrun2. run.
  eexists. split; [reflexivity|]. run. split; [|done].
  rewrite <- Hheap. destruct h as [host fp fs bf nf fb]. unfold set_globalContext. simpl in *.
  f_equal. destruct host2 as [m2 i2 e2], (globalContext h0) as [m0 i0 e0] eqn:Hh0. simpl in *.
  f_equal; [|congruence|congruence].
  apply map_eq. intros p. rewrite Hlook2, Hlook1. specialize (Hkeys p).
  destruct (m0 !! p) as [pr0|].
  - destruct Hkeys as [-> [[-> ->]|(k & v0 & e & v & -> & -> & -> & ->)]]; done.
  - destruct Hkeys as [(-> & -> & ->)|([x ->] & _)]; done.
Qed.



(** *** Writes and reads through the proxy of the diffing sandbox *)

Lemma legacy_get_trap_cases env p w :
  get_trap env p w
  = if bool_decide (p ∈ [KString "top"; KString "parent"; KString "window"; KString "self"])
    then (Normal proxy, w)
    else (val ← on_heap (global_get env p);
          on_heap (getTargetValue env (VObject RGlobalContext) val)) w.
Proof.
  unfold get_trap.
  destruct (decide (p ∈ [KString "top"; KString "parent"; KString "window"; KString "self"]))
    as [Hp|Hp].
  - rewrite (bool_decide_true (p ∈ _)) by done.
    rewrite !elem_of_cons in Hp. destruct Hp as [->|[->|[->|[->|Hp]]]]; try done.
    by apply elem_of_nil in Hp.
  - rewrite (bool_decide_false (p ∈ _)) by done.
    rewrite !bool_decide_false; [done|..]; intros ->; apply Hp; rewrite !elem_of_cons; tauto.
Qed.



(** *** The recorded original values *)

Lemma setTrap_keeps_recorded env p v original sync q x w :
  table_get q (modifiedPropsOriginalValueMapInSandbox (self w)) = Some x →
  table_get q (modifiedPropsOriginalValueMapInSandbox (self (setTrap env p v original sync w).2))
  = Some x.
Proof.
  destruct w as [h s]. simpl. intros Hq. unfold setTrap. run.
  destruct (sandboxRunning s); run; [|done].
  destruct (negb (hasOwnProperty (globalContext h) p)); run.
  - destruct sync; run; [|done]. by destruct (global_assign env p v h) as [[[]|?] ?].
  - unfold table_has.
    destruct (table_get p (modifiedPropsOriginalValueMapInSandbox s)) as [y|] eqn:Hp; run.
    + destruct sync; run; [|done]. by destruct (global_assign env p v h) as [[[]|?] ?].
    + assert (p ≠ q) as Hne by congruence.
      destruct sync; run; [|by rewrite table_get_set_ne].
      destruct (global_assign env p v h) as [[[]|?] ?]; run; by rewrite table_get_set_ne.
Qed.

(** The value recorded as the original one of a key is the value found at the
    first write: no later write or definition through the proxy replaces it,
    whatever their completion. *)
Theorem recorded_original_value_is_kept env w q x :
  table_get q (modifiedPropsOriginalValueMapInSandbox (self w)) = Some x →
  (∀ p v, table_get q (modifiedPropsOriginalValueMapInSandbox
                         (self (state_of (set_trap env p v w)))) = Some x)
  ∧ (∀ p attributes,
       table_get q (modifiedPropsOriginalValueMapInSandbox
                      (self (state_of (defineProperty_trap env p attributes w)))) = Some x).
Proof.
  intros Hq. split.
  - intros p v. unfold set_trap, state_of. run. by apply setTrap_keeps_recorded.
  - intros p attributes. unfold defineProperty_trap, state_of. run.
    destruct (defineOwnProperty (globalContext (heap w)) p attributes) as [o'|]; run.
    + match goal with |- context [setTrap ?e ?p ?v ?o ?b ?w1] =>
        pose proof (setTrap_keeps_recorded e p v o b q x w1 Hq) as Hk;
        destruct (setTrap e p v o b w1) as [[?|?] ?] end; by run.
    + match goal with |- context [setTrap ?e ?p ?v ?o ?b ?w1] =>
        pose proof (setTrap_keeps_recorded e p v o b q x w1) as Hk;
        destruct (setTrap e p v o b w1) as [[?|?] ?] end; run; apply Hk; by destruct w.
Qed.

Lemma recorded_original_value_is_kept_witness :
  let w := state_of (set_trap production (KString "x") (VNumber 2)
                              (fresh_legacy page_heap "legacy")) in
  table_get (KString "x") (modifiedPropsOriginalValueMapInSandbox (self w)) = Some (VNumber 1)
  ∧ ∀ p v, table_get (KString "x")
             (modifiedPropsOriginalValueMapInSandbox
                (self (state_of (set_trap production p v w)))) = Some (VNumber 1).
Proof.
  intros w. split; [reflexivity|].
  apply (proj1 (recorded_original_value_is_kept production w (KString "x") (VNumber 1) eq_refl)).
Defined.

(** *** Definitions through the proxy of the diffing sandbox *)



(** *** The second activation *)

(** A key that the host object did not own and that a write through the proxy
    added is an enumerable property while the sandbox runs for the first time;
    [inactive] removes it, and the second [active] puts it back with its value
    as a property that is not enumerable. *)
Theorem reactivated_added_key_is_not_enumerable env h name (k : string) v :
  own (globalContext h) !! KString k = None →
  accepts_write (globalContext h) (KString k) = true →
  let w1 := state_of (set_trap env (KString k) v (fresh_legacy h name)) in
  let w2 := state_of (inactive env w1) in
  let r3 := active env w2 in
  own (globalContext (heap w1)) !! KString k = Some (Data v true true true)
  ∧ own (globalContext (heap w2)) !! KString k = None
  ∧ result_of r3 = Normal ()
  ∧ own (globalContext (heap (state_of r3))) !! KString k = Some (Data v true false true)
  ∧ sandboxRunning (self (state_of r3)) = true.
Proof.
  intros Hown [(_ & Hext & Hset & Hos)|(v0 & e & c & Hown')]%accepts_write_cases; [|congruence].
  unfold set_trap, setTrap. run.
  rewrite (hasOwnProperty_false _ _ Hown). run.
  unfold global_assign. rewrite Hos. run.
  unfold inactive. run. rewrite setWindowProp_delete.
  erewrite global_delete_configurable; [|run; apply lookup_insert_eq|done]. run.
  unfold active. run.
  erewrite setWindowProp_absent; [|run; apply lookup_delete_eq|done]. run.
  repeat split; try done; by rewrite ?lookup_insert_eq, ?lookup_delete_eq.
Qed.

Lemma reactivated_added_key_is_not_enumerable_witness :
  let w1 := state_of (set_trap production (KString "y") (VNumber 3)
                               (fresh_legacy page_heap "legacy")) in
  let w2 := state_of (inactive production w1) in
  let r3 := active production w2 in
  own (globalContext (heap w1)) !! KString "y" = Some (Data (VNumber 3) true true true)
  ∧ own (globalContext (heap w2)) !! KString "y" = None
  ∧ result_of r3 = Normal ()
  ∧ own (globalContext (heap (state_of r3))) !! KString "y"
    = Some (Data (VNumber 3) true false true)
  ∧ sandboxRunning (self (state_of r3)) = true.
Proof.
  apply (reactivated_added_key_is_not_enumerable production page_heap "legacy" "y" (VNumber 3));
    by vm_compute.
Defined.

End LegacySandboxBehaviour.

(** ** The loader: the life cycles of an entry *)

Module LoaderBehaviour.
Import ProxySandbox ProxySandboxProperties ProxySandboxBehaviour.

(** A read of a plain value that the fake window of a running instance owns. *)
Lemma get_trap_own_data env i p w s v wr e c :
  sandboxes w !! i = Some s → sandboxRunning s = true →
  intercepted env p = false → p ∉ propertiesWithGetter s →
  own (fakeWindow s) !! p = Some (Data v wr e c) → eligible env v = false →
  ∃ w', get_trap env i p w = (Normal v, w')
      ∧ sandboxes w' = sandboxes w ∧ heap w' = heap w.
Proof.
  intros Hs Hr Hint Hg Hown He. unfold get_trap.
  rewrite (bind_eq _ _ _ _ _ (registerRunningApp_running _ _ _ Hs Hr)).
  rewrite (bind_eq _ _ _ s (registered s w)) by (apply this_eq; by rewrite registered_sandboxes).
  unfold on_heap. rewrite get_value_lookup by done.
  rewrite (get_lookup_own_data env s p v wr e c _ Hg Hown He).
  eexists. split; [reflexivity|]. run.
  split; [apply registered_sandboxes | apply registered_heap].
Qed.

Lemma on_sandbox_eq {A} (c : M ProxySandbox.world A) w r sw :
  c (Loader.sandbox_world w) = (r, sw) →
  Loader.on_sandbox c w = (r, {| Loader.sandbox_world := sw; Loader.warnings := Loader.warnings w |}).
Proof. unfold Loader.on_sandbox. by intros ->. Qed.





End LoaderBehaviour.
